(** * Satellite-Latency-Viewer: the fan-in tool and the latency pipeline

    A shallow embedding of the parts of [amqpfind.py] (emitter, transforms,
    dispatcher, the two main loops) and of [sat_latency.pipeline]
    (extract, load, transform) that the specification makes claims about.

    Conventions.
    - Python exceptions are values of [exn]; a call that may raise returns
      an [outcome].
    - Times are integers: microseconds since the epoch for [datetime]
      values, microseconds for [timedelta].
    - User expressions ([--key], [--score], [--transform], [--callback])
      are compiled code objects in the source; here each is the function it
      denotes, from the payload to an [outcome]. *)

From Stdlib Require Import ZArith String Ascii Bool Permutation Sorted.
From Stdlib Require Import DecimalString.
From Stdlib.Strings Require Import Byte.
From Stdlib Require Import Floats.
From stdpp Require Import gmap strings.
From stdpp Require Import base option list sorting.

Local Open Scope Z_scope.
Local Open Scope string_scope.
Local Open Scope list_scope.

(** ** Exceptions and outcomes *)

Inductive exn : Type :=
| KeyboardInterrupt
| TimeoutException
| TypeError
| KeyError
| ValueError
| IndexError
| AttributeError
| StopIteration
| UserError (tag : string).

Inductive outcome (A : Type) : Type :=
| Ok (a : A)
| Raise (e : exn).
Arguments Ok {A} a.
Arguments Raise {A} e.

(** The error monad, with stdpp's [x ← m; k] notation. *)
#[global] Instance outcome_ret : MRet outcome := fun A a => Ok a.
#[global] Instance outcome_bind : MBind outcome := fun A B k m =>
  match m with
  | Ok a => k a
  | Raise e => Raise e
  end.

#[global] Instance exn_eq_dec : EqDecision exn.
Proof. solve_decision. Defined.

#[global] Instance byte_eq_decision : EqDecision byte := byte_eq_dec.

(** ** Ingest parser: [sat_latency/pipeline/extract.py] *)

Module Ingest.

Definition INGEST_FIELDS : list string :=
  [ "topic"; "band"; "coverage"; "ingest_source"; "instrument";
    "satellite_ID"; "section"; "reception_time"; "start_time";
    "end_time"; "create_time" ].

(** [_missing_().encode("utf-8")] *)
Definition AMQPFIND_MISSING : list byte := list_byte_of_string "?UNKNOWN?".

Definition INGEST_SEPARATOR : byte := "!"%byte.
Definition NEWLINE : byte := "010"%byte.

Definition bytes_eqb (a b : list byte) : bool :=
  bool_decide (a = b).

(** [stream.read_at(nbytes, offset)]: up to [nbytes] bytes from [offset],
    without moving the read position. *)
Definition read_at (line : list byte) (nbytes offset : nat) : list byte :=
  take nbytes (drop offset line).

(** The [while True] loop of [fields_from_line]: [rest] is what
    [stream.read(1)] has not consumed yet. *)
Fixpoint fields_loop (line rest : list byte) (p_index p_size : nat)
  : list (option (list byte)) :=
  match rest with
  | [] => []
  | b :: rest' =>
      if Byte.eqb b INGEST_SEPARATOR || Byte.eqb b NEWLINE then
        let field := read_at line p_size p_index in
        (if bool_decide (field = []) || bytes_eqb field AMQPFIND_MISSING
         then None else Some field)
        :: fields_loop line rest' (p_index + p_size + 1)%nat 0%nat
      else fields_loop line rest' p_index (S p_size)
  end.

Definition fields_from_line (line : list byte) : list (option (list byte)) :=
  fields_loop line line 0%nat 0%nat.

(** A record mapping: the dict built by the comprehension over
    [zip(INGEST_FIELDS, fields_from_line(line))]; the names are distinct,
    so the pairs are the dict's items in order. *)
Definition mapping : Type := list (string * option (list byte)).

Definition mapping_of_line (line : list byte) : mapping :=
  zip INGEST_FIELDS (fields_from_line line).

(** [iter(source.readline, b"")]: the successive results of [readline]
    on the byte stream, up to end of file. [cur] holds, reversed, the
    bytes of the line being read. *)
Fixpoint readlines_from (cur : list byte) (source : list byte)
  : list (list byte) :=
  match source with
  | [] => match cur with [] => [] | _ => [rev cur] end
  | b :: source' =>
      if Byte.eqb b NEWLINE then rev (b :: cur) :: readlines_from [] source'
      else readlines_from (b :: cur) source'
  end.

Definition readlines (source : list byte) : list (list byte) :=
  readlines_from [] source.

(** The generator [read_input], as the list of what it yields. *)
Definition read_input (source : list byte) : list mapping :=
  map mapping_of_line (readlines source).

(** Number of fields a line encodes. *)
Definition field_count (line : list byte) : nat :=
  length (fields_from_line line).

Definition bytes (s : string) : list byte := list_byte_of_string s.

Definition nl : string := String (ascii_of_byte NEWLINE) EmptyString.

(** *** Properties *)

Lemma length_mapping_of_line line :
  length (mapping_of_line line) = Nat.min 11 (field_count line).
Proof.
  unfold mapping_of_line, field_count.
  rewrite length_zip. reflexivity.
Qed.

Lemma fst_mapping_of_line line :
  map fst (mapping_of_line line) = take (field_count line) INGEST_FIELDS.
Proof.
  unfold mapping_of_line, field_count.
  generalize (fields_from_line line) as fs.
  generalize INGEST_FIELDS as names.
  induction names as [|n names IH]; intros [|f fs]; simpl; try reflexivity.
  f_equal. apply IH.
Qed.

Example read_input_S5 :
  read_input (bytes ("topic1!b1!c1!s1!i1!G16!sec1!2025-01-02T03:04:05!2025-01-02T03:04:00!?UNKNOWN?!?UNKNOWN?" ++ nl))
  = [ [ ("topic", Some (bytes "topic1")); ("band", Some (bytes "b1"));
        ("coverage", Some (bytes "c1")); ("ingest_source", Some (bytes "s1"));
        ("instrument", Some (bytes "i1")); ("satellite_ID", Some (bytes "G16"));
        ("section", Some (bytes "sec1"));
        ("reception_time", Some (bytes "2025-01-02T03:04:05"));
        ("start_time", Some (bytes "2025-01-02T03:04:00"));
        ("end_time", None); ("create_time", None) ] ].
Proof. vm_compute. reflexivity. Qed.

(** C9, as stated, fails: a line with two fields, and an empty line, each
    still yield a mapping (with the first names only). *)
Lemma read_input_short_line_counterexample :
  field_count (bytes ("a!b" ++ nl)) = 2%nat /\
  read_input (bytes ("a!b" ++ nl))
    = [ [ ("topic", Some (bytes "a")); ("band", Some (bytes "b")) ] ] /\
  field_count (bytes nl) = 1%nat /\
  read_input (bytes nl) = [ [ ("topic", None) ] ] /\
  ~ (forall source line,
        line ∈ readlines source -> field_count line <> 11%nat ->
        read_input source = []).
Proof.
  repeat split; try (vm_compute; reflexivity).
  intros H.
  specialize (H (bytes nl) (bytes nl)).
  assert (Hin : bytes nl ∈ readlines (bytes nl)).
  { vm_compute. apply list_elem_of_here. }
  specialize (H Hin).
  assert (Hc : field_count (bytes nl) <> 11%nat) by (vm_compute; lia).
  specialize (H Hc). vm_compute in H. discriminate H.
Qed.

(** C9 (amended): [read_input] yields exactly one mapping per line read,
    whatever the line's field count; the mapping pairs the first
    [min 11 n] schema names, in order, with the line's first fields, so a
    line of 11 fields yields one mapping over all of [INGEST_FIELDS]. *)
Theorem read_input_one_mapping_per_line (source : list byte) :
  length (read_input source) = length (readlines source) /\
  (forall i line, readlines source !! i = Some line ->
     exists m, read_input source !! i = Some m /\
       m = zip INGEST_FIELDS (fields_from_line line) /\
       length m = Nat.min 11 (field_count line) /\
       map fst m = take (field_count line) INGEST_FIELDS /\
       (field_count line = 11%nat -> map fst m = INGEST_FIELDS)).
Proof.
  split.
  - unfold read_input. apply length_map.
  - intros i line Hi. exists (mapping_of_line line).
    split; [|split; [|split; [|split]]].
    + unfold read_input. rewrite list_lookup_fmap, Hi. reflexivity.
    + reflexivity.
    + apply length_mapping_of_line.
    + apply fst_mapping_of_line.
    + intros H11. rewrite fst_mapping_of_line, H11. reflexivity.
Qed.

End Ingest.

(** ** Partitioned writer: [BatchWriter] of [sat_latency/pipeline/load.py]

    The file system is taken to succeed: opening, flushing and closing a
    file raise nothing here. *)

Module Writer.

Section BatchWriter.
Context {Date : Type} `{EqDecision Date}.

(** An open [(pa.OSFile, pa.RecordBatchStreamWriter)] pair is named by the
    number it got when it was opened. *)
Definition handle : Type := nat.

Inductive io_event : Type :=
| Opened (d : Date) (h : handle)
| WriterClosed (h : handle)
| Flushed (h : handle)
| FileClosed (h : handle)
| Pooled (d : Date) (h : handle)
| Wrote (h : handle).

(** [_writer_pool] is an [OrderedDict]: its items, oldest first. *)
Record BatchWriter : Type := mkBatchWriter {
  _writer_pool : list (Date * handle);
  _max_size : Z;
  next_handle : handle;
  open_handles : list handle;
  io_log : list io_event;
  uses : list Date
}.

(** [BatchWriter.__init__] *)
Definition init (pool_size : Z) : BatchWriter :=
  {| _writer_pool := []; _max_size := pool_size; next_handle := 0%nat;
     open_handles := []; io_log := []; uses := [] |}.

Definition default_pool_size : Z := 5.

(** [OrderedDict.get] *)
Fixpoint pool_get (date : Date) (pool : list (Date * handle)) : option handle :=
  match pool with
  | [] => None
  | (d, h) :: pool' => if decide (d = date) then Some h else pool_get date pool'
  end.

Definition pool_remove (date : Date) (pool : list (Date * handle))
  : list (Date * handle) :=
  filter (fun dh => dh.1 <> date) pool.

(** [OrderedDict.move_to_end] of a key that is present *)
Definition move_to_end (date : Date) (h : handle) (pool : list (Date * handle))
  : list (Date * handle) :=
  pool_remove date pool ++ [(date, h)].

(** [_close_date]: close the writer, flush and close the file; the pool
    itself is left as it is. *)
Definition _close_date (date : Date) (w : BatchWriter) : BatchWriter :=
  match pool_get date (_writer_pool w) with
  | None => w
  | Some h =>
      {| _writer_pool := _writer_pool w; _max_size := _max_size w;
         next_handle := next_handle w;
         open_handles := filter (fun h' => h' <> h) (open_handles w);
         io_log := io_log w ++ [WriterClosed h; Flushed h; FileClosed h];
         uses := uses w |}
  end.

Definition set_pool (pool : list (Date * handle)) (w : BatchWriter) : BatchWriter :=
  {| _writer_pool := pool; _max_size := _max_size w;
     next_handle := next_handle w; open_handles := open_handles w;
     io_log := io_log w; uses := uses w |}.

(** [pa.OSFile(path, mode="ab")] and [pa.ipc.new_stream] *)
Definition open_file (date : Date) (w : BatchWriter) : handle * BatchWriter :=
  let h := next_handle w in
  (h, {| _writer_pool := _writer_pool w; _max_size := _max_size w;
         next_handle := S h; open_handles := open_handles w ++ [h];
         io_log := io_log w ++ [Opened date h]; uses := uses w |}).

Definition log_event (e : io_event) (w : BatchWriter) : BatchWriter :=
  {| _writer_pool := _writer_pool w; _max_size := _max_size w;
     next_handle := next_handle w; open_handles := open_handles w;
     io_log := io_log w ++ [e]; uses := uses w |}.

(** [_get_writer] *)
Definition _get_writer (date : Date) (w : BatchWriter)
  : outcome handle * BatchWriter :=
  match pool_get date (_writer_pool w) with
  | Some h => (Ok h, set_pool (move_to_end date h (_writer_pool w)) w)
  | None =>
      let '(new_writer, w1) := open_file date w in
      if Z.of_nat (length (_writer_pool w1)) >=? _max_size w1 then
        match _writer_pool w1 with
        | [] => (Raise StopIteration, w1)
        | (old_date, _) :: _ =>
            let w2 := _close_date old_date w1 in
            let w3 := set_pool (tail (_writer_pool w2)) w2 in
            (Ok new_writer,
             log_event (Pooled date new_writer)
               (set_pool (_writer_pool w3 ++ [(date, new_writer)]) w3))
        end
      else
        (Ok new_writer,
         log_event (Pooled date new_writer)
           (set_pool (_writer_pool w1 ++ [(date, new_writer)]) w1))
  end.

(** [uses] is not in the source: it records, newest first, the dates
    [write_batch] was called with, to say what least recently used means. *)
Definition record_use (date : Date) (w : BatchWriter) : BatchWriter :=
  {| _writer_pool := _writer_pool w; _max_size := _max_size w;
     next_handle := next_handle w; open_handles := open_handles w;
     io_log := io_log w; uses := date :: uses w |}.

(** [write_batch] *)
Definition write_batch (date : Date) (w : BatchWriter)
  : outcome unit * BatchWriter :=
  match _get_writer date (record_use date w) with
  | (Ok writer, w') => (Ok tt, log_event (Wrote writer) w')
  | (Raise e, w') => (Raise e, w')
  end.

(** The states a sequence of [write_batch] calls goes through. *)
Fixpoint write_batches (dates : list Date) (w : BatchWriter) : BatchWriter :=
  match dates with
  | [] => w
  | d :: dates' => write_batches dates' (write_batch d w).2
  end.

(** How long ago [date] was last used: its first position in [uses]. *)
Fixpoint age (date : Date) (us : list Date) : nat :=
  match us with
  | [] => 0%nat
  | d :: us' => if decide (d = date) then 0%nat else S (age date us')
  end.

Definition pool_dates (w : BatchWriter) : list Date := (_writer_pool w).*1.

(** Oldest first, each pooled date was used longer ago than the next. *)
Definition by_age (us : list Date) (pool : list (Date * handle)) : Prop :=
  StronglySorted (fun a b => (age b us < age a us)%nat) pool.*1.

Record pool_inv (w : BatchWriter) : Prop := {
  inv_size : Z.of_nat (length (_writer_pool w)) <= _max_size w;
  inv_dates : NoDup (_writer_pool w).*1;
  inv_handles : NoDup (_writer_pool w).*2;
  inv_open : forall d h, (d, h) ∈ _writer_pool w -> h ∈ open_handles w;
  inv_fresh : forall h, h ∈ open_handles w -> (h < next_handle w)%nat;
  inv_age : by_age (uses w) (_writer_pool w)
}.

(** *** Properties *)

Lemma pool_get_None date pool :
  pool_get date pool = None <-> date ∉ pool.*1.
Proof.
  induction pool as [|[d h] pool IH]; simpl.
  - split; [intros _; apply not_elem_of_nil | reflexivity].
  - destruct (decide (d = date)) as [->|Hne].
    + split; [discriminate|]. intros Hn. exfalso. apply Hn. left.
    + rewrite IH. rewrite not_elem_of_cons. split; [auto | tauto].
Qed.

Lemma pool_get_Some date h pool :
  pool_get date pool = Some h -> (date, h) ∈ pool.
Proof.
  induction pool as [|[d h'] pool IH]; simpl; [discriminate|].
  destruct (decide (d = date)) as [->|Hne].
  - intros [= ->]. left.
  - intros Hg. right. auto.
Qed.

Lemma pool_remove_fst date pool :
  (pool_remove date pool).*1 = filter (fun d => d <> date) pool.*1.
Proof.
  unfold pool_remove. induction pool as [|[d h] pool IH]; [reflexivity|].
  rewrite fmap_cons. simpl fst. rewrite !filter_cons. simpl.
  destruct (decide (d <> date)); rewrite ?fmap_cons; simpl; congruence.
Qed.

Lemma pool_remove_sublist date pool : sublist (pool_remove date pool) pool.
Proof. apply sublist_filter. Qed.

Lemma pool_remove_length date h pool :
  NoDup pool.*1 -> (date, h) ∈ pool ->
  S (length (pool_remove date pool)) = length pool.
Proof.
  unfold pool_remove. induction pool as [|[d h'] pool IH]; intros Hnd Hin.
  - inversion Hin.
  - rewrite fmap_cons in Hnd. apply NoDup_cons in Hnd as [Hd Hnd].
    rewrite filter_cons. simpl in *.
    destruct (decide (d <> date)) as [Hne|Heq].
    + simpl. f_equal. apply IH; [assumption|].
      apply elem_of_cons in Hin as [[= -> ->]|Hin]; [congruence|assumption].
    + assert (d = date) as -> by (destruct (decide (d = date)); tauto).
      simpl. f_equal.
      assert (Hall : Forall (fun dh : Date * handle => dh.1 <> date) pool).
      { apply Forall_forall. intros [d2 h2] Hin2 Heq2. simpl in Heq2. subst d2.
        apply Hd. apply list_elem_of_fmap. exists (date, h2). split; [reflexivity|assumption]. }
      clear -Hall. induction pool as [|x pool IHp]; [reflexivity|].
      apply Forall_cons in Hall as [Hx Hall].
      rewrite filter_cons. destruct (decide (x.1 <> date)); [|tauto].
      simpl. f_equal. auto.
Qed.

Lemma age_cons_eq date us : age date (date :: us) = 0%nat.
Proof. simpl. destruct (decide (date = date)); congruence. Qed.

Lemma age_cons_ne date d us :
  d <> date -> age date (d :: us) = S (age date us).
Proof. intros Hne. simpl. destruct (decide (d = date)); congruence. Qed.

(** Using [date] keeps the order of the other dates and makes [date] the
    most recently used. *)
Lemma by_age_use date h us (pool : list (Date * handle)) :
  date ∉ pool.*1 -> by_age us pool ->
  by_age (date :: us) (pool ++ [(date, h)]).
Proof.
  unfold by_age. rewrite fmap_app.
  induction pool as [|[d h'] pool IH]; intros Hnin Hs.
  - repeat constructor.
  - rewrite fmap_cons in Hnin, Hs. rewrite fmap_cons, <- app_comm_cons.
    cbn [fst] in *.
    apply not_elem_of_cons in Hnin as [Hne Hnin].
    apply StronglySorted_inv in Hs as [Hs Hall].
    constructor; [auto|].
    apply Forall_app. split.
    + eapply Forall_impl; [exact Hall|].
      intros b Hb. cbn beta in Hb.
      destruct (decide (b = date)) as [->|Hb'].
      * rewrite age_cons_eq, age_cons_ne by congruence. lia.
      * rewrite !age_cons_ne by congruence. lia.
    + constructor; [|constructor]. cbn [fst].
      rewrite age_cons_eq, age_cons_ne by congruence. lia.
Qed.

Lemma by_age_sublist us (p q : list (Date * handle)) :
  sublist p q -> by_age us q -> by_age us p.
Proof.
  unfold by_age. intros Hsub.
  assert (Hs1 : sublist p.*1 q.*1) by (apply fmap_sublist; assumption).
  revert Hs1. generalize (p.*1) (q.*1). clear.
  intros l1 l2 Hsub. induction Hsub as [|x l1 l2 Hsub IH|x l1 l2 Hsub IH]; intros Hs.
  - constructor.
  - apply StronglySorted_inv in Hs as [Hs Hall]. constructor; [auto|].
    eapply Forall_forall. intros y Hy. eapply Forall_forall in Hall; [exact Hall|].
    eapply elem_of_sublist; eassumption.
  - apply StronglySorted_inv in Hs as [Hs _]. auto.
Qed.

Lemma snd_unique (pool : list (Date * handle)) a b h :
  NoDup pool.*2 -> (a, h) ∈ pool -> (b, h) ∈ pool -> a = b.
Proof.
  induction pool as [|[d h'] pool IH]; intros Hnd Ha Hb; [inversion Ha|].
  rewrite fmap_cons in Hnd. apply NoDup_cons in Hnd as [Hh Hnd]. cbn [snd] in Hh.
  apply elem_of_cons in Ha as [[= -> ->]|Ha]; apply elem_of_cons in Hb as [[= ->]|Hb].
  - reflexivity.
  - exfalso. apply Hh. apply list_elem_of_fmap. exists (b, h'). auto.
  - subst h'. exfalso. apply Hh. apply list_elem_of_fmap. exists (a, h). auto.
  - auto.
Qed.

Lemma pool_inv_init pool_size : 0 <= pool_size -> pool_inv (init pool_size).
Proof.
  intros Hp. constructor; simpl; try (constructor; fail); try assumption.
  - intros d h Hin. inversion Hin.
  - intros h Hin. inversion Hin.
Qed.

Lemma pool_inv_append date (w : BatchWriter) pool opened :
  pool_inv w ->
  sublist pool (_writer_pool w) ->
  date ∉ pool.*1 ->
  Z.of_nat (S (length pool)) <= _max_size w ->
  (forall h, h ∈ opened <-> (h ∈ open_handles w \/ h = next_handle w) /\
       (forall d' h', (d', h') ∈ _writer_pool w -> (d', h') ∉ pool -> h' <> h)) ->
  forall log,
  pool_inv {| _writer_pool := pool ++ [(date, next_handle w)];
              _max_size := _max_size w; next_handle := S (next_handle w);
              open_handles := opened; io_log := log;
              uses := date :: uses w |}.
Proof.
  intros [Hsize Hd Hh Hopen Hfresh Hage] Hsub Hnin Hlen Hop log.
  assert (Hlt : forall d' h', (d', h') ∈ _writer_pool w -> (h' < next_handle w)%nat).
  { intros d' h' Hin. eauto. }
  constructor; cbn [_writer_pool _max_size next_handle open_handles uses].
  - rewrite length_app. simpl. lia.
  - rewrite fmap_app. apply NoDup_app. split; [|split].
    + eapply sublist_NoDup; [exact Hd | apply fmap_sublist; exact Hsub].
    + intros x Hx Hx'. apply list_elem_of_singleton in Hx'. cbn [fst] in Hx'. congruence.
    + apply NoDup_singleton.
  - rewrite fmap_app. apply NoDup_app. split; [|split].
    + eapply sublist_NoDup; [exact Hh | apply fmap_sublist; exact Hsub].
    + intros x Hx Hx'. apply list_elem_of_singleton in Hx'. cbn [snd] in Hx'. subst x.
      apply list_elem_of_fmap in Hx as [[d' h'] [Heq Hin]]. cbn [snd] in Heq. subst h'.
      eapply elem_of_sublist in Hin; [|exact Hsub].
      apply Hlt in Hin. lia.
    + apply NoDup_singleton.
  - intros d' h' Hin. apply Hop. apply elem_of_app in Hin as [Hin|Hin].
    + assert (Hin' := Hin). eapply elem_of_sublist in Hin'; [|exact Hsub].
      split; [left; eauto|].
      intros d2 h2 Hin2 Hn2 Heq. subst h2.
      assert (d2 = d') by (eapply snd_unique; eassumption). subst d2. tauto.
    + apply list_elem_of_singleton in Hin. injection Hin as -> ->.
      split; [right; reflexivity|].
      intros d2 h2 Hin2 _ Heq. subst h2. apply Hlt in Hin2. lia.
  - intros h Hin. apply Hop in Hin as [[Hin| ->] _]; [apply Hfresh in Hin|]; lia.
  - apply by_age_use; [assumption|]. eapply by_age_sublist; eassumption.
Qed.

Local Ltac PRJ :=
  cbn [fst snd tail _writer_pool _max_size next_handle open_handles io_log uses].
Local Ltac RED :=
  cbv beta iota delta [log_event set_pool move_to_end record_use open_file];
  PRJ.

Lemma pool_inv_write_batch date (w : BatchWriter) :
  pool_inv w -> pool_inv (write_batch date w).2.
Proof.
  intros Hinv. assert (Hinv' := Hinv).
  destruct Hinv' as [Hsize Hd Hh Hopen Hfresh Hage].
  unfold write_batch, _get_writer.
  cbn [record_use _writer_pool].
  destruct (pool_get date (_writer_pool w)) as [h|] eqn:Hget.
  - (* the date has an open writer: it moves to the end *)
    apply pool_get_Some in Hget as Hin.
    RED.
    constructor; PRJ.
    + rewrite length_app. simpl.
      pose proof (pool_remove_length date h _ Hd Hin). lia.
    + rewrite fmap_app. apply NoDup_app. split; [|split].
      * eapply sublist_NoDup; [exact Hd | apply fmap_sublist, pool_remove_sublist].
      * intros x Hx Hx'. apply list_elem_of_singleton in Hx'. cbn [fst] in Hx'. subst x.
        rewrite pool_remove_fst in Hx. apply list_elem_of_filter in Hx as [Hx _]. congruence.
      * apply NoDup_singleton.
    + rewrite fmap_app. apply NoDup_app. split; [|split].
      * eapply sublist_NoDup; [exact Hh | apply fmap_sublist, pool_remove_sublist].
      * intros x Hx Hx'. apply list_elem_of_singleton in Hx'. cbn [snd] in Hx'. subst x.
        apply list_elem_of_fmap in Hx as [[d' h'] [Heq Hin']]. cbn [snd] in Heq. subst h'.
        unfold pool_remove in Hin'. apply list_elem_of_filter in Hin' as [Hne Hin'].
        cbn [fst] in Hne. apply Hne. eapply snd_unique; eassumption.
      * apply NoDup_singleton.
    + intros d' h' Hin'. apply elem_of_app in Hin' as [Hin'|Hin'].
      * unfold pool_remove in Hin'. apply list_elem_of_filter in Hin' as [_ Hin']. eauto.
      * apply list_elem_of_singleton in Hin'. injection Hin' as -> ->. eauto.
    + assumption.
    + apply by_age_use.
      * rewrite pool_remove_fst. intros Hx. apply list_elem_of_filter in Hx as [Hx _]. congruence.
      * eapply by_age_sublist; [apply pool_remove_sublist | assumption].
  - (* a new file is opened *)
    apply pool_get_None in Hget as Hnin.
    cbn [open_file record_use _writer_pool _max_size next_handle open_handles io_log uses].
    destruct (Z.of_nat (length (_writer_pool w)) >=? _max_size w) eqn:Hfull.
    + destruct (_writer_pool w) as [|[old h_old] rest] eqn:Hpool.
      * (* nothing to evict: [next(iter(...))] raises *)
        RED. constructor; PRJ.
        -- simpl. simpl in Hsize. lia.
        -- constructor.
        -- constructor.
        -- intros d h Hin. inversion Hin.
        -- intros h Hin. apply elem_of_app in Hin as [Hin|Hin].
           ++ apply Hfresh in Hin. lia.
           ++ apply list_elem_of_singleton in Hin. lia.
        -- constructor.
      * (* the oldest entry is closed and popped *)
        unfold _close_date. cbn [_writer_pool pool_get].
        destruct (decide (old = old)) as [_|]; [|congruence].
        RED.
        eapply (pool_inv_append date w rest); try exact Hinv.
        -- rewrite Hpool. apply sublist_cons. reflexivity.
        -- rewrite fmap_cons in Hnin. apply not_elem_of_cons in Hnin. tauto.
        -- simpl in Hsize. simpl. lia.
        -- intros h. rewrite list_elem_of_filter, elem_of_app, list_elem_of_singleton.
           rewrite Hpool.
           assert (Hold : (h_old < next_handle w)%nat).
           { apply Hfresh. apply (Hopen old). left. }
           split.
           ++ intros [Hne Hin]. split; [exact Hin|].
              intros d' h' Hin' Hnr. apply elem_of_cons in Hin' as [[= -> ->]|Hin'].
              ** congruence.
              ** tauto.
           ++ intros [Hin Hall]. split; [|exact Hin].
              intros ->. apply (Hall old h_old); [left| |reflexivity].
              intros Hr. rewrite !fmap_cons in Hh. apply NoDup_cons in Hh as [Hh _].
              apply Hh. apply list_elem_of_fmap. exists (old, h_old). auto.
    + RED.
      eapply (pool_inv_append date w (_writer_pool w)); try exact Hinv.
      * reflexivity.
      * assumption.
      * lia.
      * intros h. rewrite elem_of_app, list_elem_of_singleton.
        split; [intros Hin; split; [exact Hin|tauto] | tauto].
Qed.

Lemma write_batch_max_size date (w : BatchWriter) :
  _max_size (write_batch date w).2 = _max_size w.
Proof.
  unfold write_batch, _get_writer. RED.
  destruct (pool_get date (_writer_pool w)); [reflexivity|].
  destruct (_ >=? _); [|reflexivity].
  destruct (_writer_pool w) as [|[old h_old] rest]; [reflexivity|].
  unfold _close_date. RED. cbn [pool_get].
  destruct (decide (old = old)); [reflexivity | congruence].
Qed.

Lemma write_batches_inv dates : forall (w : BatchWriter),
  pool_inv w ->
  pool_inv (write_batches dates w) /\
  _max_size (write_batches dates w) = _max_size w.
Proof.
  induction dates as [|d dates IH]; intros w Hinv; [split; [assumption|reflexivity]|].
  simpl. destruct (IH (write_batch d w).2) as [H1 H2].
  - apply pool_inv_write_batch. assumption.
  - split; [assumption|]. rewrite H2. apply write_batch_max_size.
Qed.

(** C8. Over any sequence of [write_batch] calls on a writer made with
    [pool_size >= 0], the pool never holds more than [pool_size] entries
    and each entry's file is open. When the next date is not pooled and
    the pool is full, the call opens the new file, then closes the writer
    of, flushes and closes the file of the pool's first entry, which is
    the least recently used date, and only then puts the new date in the
    pool, in place of the old one. *)
Theorem writer_pool_bounded_lru (pool_size : Z) (dates : list Date) :
  0 <= pool_size ->
  let w := write_batches dates (init pool_size) in
  Z.of_nat (length (_writer_pool w)) <= pool_size /\
  (forall d h, (d, h) ∈ _writer_pool w -> h ∈ open_handles w) /\
  (forall date,
      date ∉ pool_dates w -> 1 <= pool_size ->
      pool_size <= Z.of_nat (length (_writer_pool w)) ->
      exists old h_old rest,
        _writer_pool w = (old, h_old) :: rest /\
        (forall d', d' ∈ rest.*1 -> (age d' (uses w) < age old (uses w))%nat) /\
        (write_batch date w).1 = Ok tt /\
        _writer_pool (write_batch date w).2 = rest ++ [(date, next_handle w)] /\
        io_log (write_batch date w).2 =
          io_log w ++ [ Opened date (next_handle w);
                        WriterClosed h_old; Flushed h_old; FileClosed h_old;
                        Pooled date (next_handle w); Wrote (next_handle w) ] /\
        h_old ∉ open_handles (write_batch date w).2).
Proof.
  intros Hp w.
  destruct (write_batches_inv dates (init pool_size) (pool_inv_init _ Hp))
    as [Hinv Hmax].
  fold w in Hinv, Hmax. simpl in Hmax.
  destruct Hinv as [Hsize Hd Hh Hopen Hfresh Hage].
  split; [lia|]. split; [exact Hopen|].
  intros date Hnin H1 Hfull.
  unfold pool_dates in Hnin.
  destruct (_writer_pool w) as [|[old h_old] rest] eqn:Hpool; [simpl in Hfull; lia|].
  exists old, h_old, rest. split; [reflexivity|].
  split.
  { unfold by_age in Hage. rewrite fmap_cons in Hage.
    apply StronglySorted_inv in Hage as [_ Hall].
    intros d' Hd'. eapply Forall_forall in Hall; [exact Hall | exact Hd']. }
  apply pool_get_None in Hnin.
  assert (Hge : (Z.of_nat (length ((old, h_old) :: rest)) >=? _max_size w) = true).
  { rewrite Hmax. lia. }
  unfold write_batch, _get_writer. RED. rewrite Hpool, Hnin, Hge.
  unfold _close_date. RED. cbn [pool_get].
  destruct (decide (old = old)) as [_|]; [|congruence].
  RED. repeat split.
  - rewrite <- !app_assoc. reflexivity.
  - rewrite list_elem_of_filter. tauto.
Qed.

End BatchWriter.

(** An instance: pool size 2, writes for days 1, 2, 3. *)
Lemma writer_pool_bounded_lru_witness :
  let w := write_batches [1; 2; 3]%nat (init 2) in
  Z.of_nat (length (_writer_pool w)) <= 2 /\
  (forall d h, (d, h) ∈ _writer_pool w -> h ∈ open_handles w) /\
  (forall date : nat,
      date ∉ pool_dates w -> 1 <= 2 ->
      2 <= Z.of_nat (length (_writer_pool w)) ->
      exists old h_old rest,
        _writer_pool w = (old, h_old) :: rest /\
        (forall d', d' ∈ rest.*1 -> (age d' (uses w) < age old (uses w))%nat) /\
        (write_batch date w).1 = Ok tt /\
        _writer_pool (write_batch date w).2 = rest ++ [(date, next_handle w)] /\
        io_log (write_batch date w).2 =
          io_log w ++ [ Opened date (next_handle w);
                        WriterClosed h_old; Flushed h_old; FileClosed h_old;
                        Pooled date (next_handle w); Wrote (next_handle w) ] /\
        h_old ∉ open_handles (write_batch date w).2).
Proof. apply (writer_pool_bounded_lru 2 [1; 2; 3]%nat). lia. Defined.

Example writer_pool_evicts_lru :
  let w := write_batches [1; 2; 1; 3]%nat (init 2) in
  _writer_pool w = [(1, 0); (3, 2)]%nat /\
  io_log w = [ Opened 1 0; Pooled 1 0; Wrote 0; Opened 2 1; Pooled 2 1; Wrote 1;
               Wrote 0; Opened 3 2; WriterClosed 1; Flushed 1; FileClosed 1;
               Pooled 3 2; Wrote 2 ]%nat.
Proof. vm_compute. split; reflexivity. Qed.

End Writer.

(** ** Storage schema and partitioned reader:
       [sat_latency/pipeline/transform.py], [read_satellite_data] of
       [sat_latency/pipeline/load.py] *)

Module Reader.

Inductive arrow_type : Type :=
| ArrowString
| ArrowTimestampUsUTC.

Record field : Type := mkField {
  fname : string;
  ftype : arrow_type;
  nullable : bool
}.

Definition TIME_SCHEMA : list field :=
  [ mkField "reception_time" ArrowTimestampUsUTC true;
    mkField "start_time" ArrowTimestampUsUTC true;
    mkField "end_time" ArrowTimestampUsUTC true;
    mkField "create_time" ArrowTimestampUsUTC true ].

Definition META_SCHEMA : list field :=
  [ mkField "topic" ArrowString true;
    mkField "band" ArrowString true;
    mkField "coverage" ArrowString true;
    mkField "ingest_source" ArrowString true;
    mkField "instrument" ArrowString true;
    mkField "satellite_ID" ArrowString true;
    mkField "section" ArrowString true ].

(** [pa.unify_schemas]: the fields of the schemas in order, a name that
    was seen before is not added again. *)
Fixpoint add_fields (acc : list field) (fs : list field) : list field :=
  match fs with
  | [] => acc
  | f :: fs' =>
      if bool_decide (fname f ∈ fname <$> acc) then add_fields acc fs'
      else add_fields (acc ++ [f]) fs'
  end.

Definition unify_schemas (schemas : list (list field)) : list field :=
  foldl add_fields [] schemas.

Definition STORAGE_SCHEMA : list field := unify_schemas [META_SCHEMA; TIME_SCHEMA].

Definition schema_names (s : list field) : list string := fname <$> s.

(** A row of a table that has the storage schema. Timestamps are
    microseconds since the epoch, UTC; [None] is null. *)
Record stored_record : Type := mkStored {
  topic : option string;
  band : option string;
  coverage : option string;
  ingest_source : option string;
  instrument : option string;
  satellite_ID : option string;
  section : option string;
  reception_time : option Z;
  start_time : option Z;
  end_time : option Z;
  create_time : option Z
}.

(** One partition file: its record batches in order; [None] is a batch
    that [read_next_batch] fails on with [OSError]. *)
Definition arrows_file : Type := list (option (list stored_record)).

Definition DAY : Z := 86400 * 1000000.

(** [daterange] of [_utils.py] with the default step: [date_until] is
    [None] for the default, which is one day after [now]. *)
Definition daterange (now start_date : Z) (end_date : option Z) : list Z :=
  let _max_date := default (now + DAY) end_date in
  (fun n => start_date + n * DAY) <$> seqZ 0 ((_max_date - start_date) `div` DAY + 1).

(** [_files_from_date_range]: [files_on day] is the partition file of
    that calendar day, when [os.path.isfile] finds it. *)
Definition _files_from_date_range (files_on : Z -> option arrows_file)
    (now date_start : Z) (date_end : option Z) : list arrows_file :=
  omap (fun date => files_on (date `div` DAY)) (daterange now date_start date_end).

(** [_yield_batches]: corrupt batches are passed over. *)
Definition _yield_batches (files : list arrows_file) : list (list stored_record) :=
  omap id (concat files).

(** [pc.milliseconds_between(start, end)]: the millisecond boundaries
    crossed from [start] to [end], each truncated to the millisecond;
    null when one of them is null. *)
Definition milliseconds_between (start end_ : option Z) : option Z :=
  match start, end_ with
  | Some s, Some e => Some (e `div` 1000 - s `div` 1000)
  | _, _ => None
  end.

(** The float64 nearest to the integer [z] of a 64-bit word. *)
Definition float64_value (z : Z) : float :=
  match z with
  | Z0 => 0%float
  | Zpos _ => PrimFloat.of_uint63 (Uint63.of_Z z)
  | Zneg p => PrimFloat.opp (PrimFloat.of_uint63 (Uint63.of_Z (Zpos p)))
  end.

(** [pc.cast(_, target_type=pa.float64())] of a 64-bit integer. The cast
    is a safe one: an integer beyond [2^53] in magnitude, which a
    float64 may not hold, is refused with [ArrowInvalid]. *)
Definition float64_of_int (z : Z) : outcome float :=
  if (Z.abs z <=? 2 ^ 53)%Z then Ok (float64_value z)
  else Raise (UserError "ArrowInvalid").

(** The cast of a column: a null stays null, and one integer that is
    refused fails the cast. *)
Fixpoint cast_float64 (col : list (option Z)) : outcome (list (option float)) :=
  match col with
  | [] => Ok []
  | None :: col' => rest ← cast_float64 col'; Ok (None :: rest)
  | Some z :: col' =>
      x ← float64_of_int z; rest ← cast_float64 col'; Ok (Some x :: rest)
  end.

(** [pc.divide(column, y)] of a float64 column by a float64 *)
Definition divide (col : list (option float)) (y : float) : list (option float) :=
  (fun v : option float => (fun x => PrimFloat.div x y) <$> v) <$> col.

(** What [read_satellite_data] returns: a table whose first columns are
    those of the rows, followed by one more column of floats. *)
Record frame : Type := mkFrame {
  column_names : list string;
  rows : list stored_record;
  last_column : list (option float)
}.

(** [read_satellite_data]. [pa.Table.from_batches] is given no schema and
    raises [ValueError] when there is no batch; the files hold batches of
    the storage schema, which [tbl.cast(STORAGE_SCHEMA)] leaves as they
    are. *)
Definition read_satellite_data (files_on : Z -> option arrows_file)
    (now date_from : Z) (date_until : option Z)
    (arrow_filter : option (stored_record -> bool)) : outcome frame :=
  match _yield_batches (_files_from_date_range files_on now date_from date_until) with
  | [] => Raise ValueError
  | batches =>
      let tbl := concat batches in
      let tbl := match arrow_filter with
                 | Some f => List.filter f tbl
                 | None => tbl
                 end in
      ms ← cast_float64
             ((fun r => milliseconds_between (start_time r) (reception_time r))
                <$> tbl);
      Ok {| column_names := schema_names STORAGE_SCHEMA ++ ["latency"];
            rows := tbl;
            last_column := divide ms 1000%float |}
  end.

(** The latency of one row, the range of the cast aside. *)
Definition latency_of (r : stored_record) : option float :=
  (fun ms => PrimFloat.div (float64_value ms) 1000%float)
    <$> milliseconds_between (start_time r) (reception_time r).

(** The frame that [read_satellite_data] returns when it returns. *)
Definition read_frame (files_on : Z -> option arrows_file)
    (now date_from : Z) (date_until : option Z)
    (arrow_filter : option (stored_record -> bool)) : frame :=
  let tbl := concat (_yield_batches
                       (_files_from_date_range files_on now date_from date_until)) in
  let tbl := match arrow_filter with
             | Some f => List.filter f tbl
             | None => tbl
             end in
  {| column_names := schema_names STORAGE_SCHEMA ++ ["latency"];
     rows := tbl;
     last_column := latency_of <$> tbl |}.

(** The rows on disk in the date range, before the filter. *)
Definition stored_rows (files_on : Z -> option arrows_file)
    (now date_from : Z) (date_until : option Z) : list stored_record :=
  concat (_yield_batches (_files_from_date_range files_on now date_from date_until)).

(** *** Properties *)

Lemma storage_schema_names :
  schema_names STORAGE_SCHEMA = Ingest.INGEST_FIELDS.
Proof. vm_compute. reflexivity. Qed.

Lemma latency_not_stored : "latency" ∉ schema_names STORAGE_SCHEMA.
Proof.
  rewrite storage_schema_names. unfold Ingest.INGEST_FIELDS.
  rewrite !not_elem_of_cons. repeat split; try discriminate.
  apply not_elem_of_nil.
Qed.

(** S5: received 5 s after the start time. *)
Example latency_S5 :
  latency_of (mkStored (Some "topic1") (Some "b1") (Some "c1") (Some "s1")
                (Some "i1") (Some "G16") (Some "sec1")
                (Some 1735787045000000) (Some 1735787040000000) None None)
  = Some 5%float.
Proof. vm_compute. reflexivity. Qed.

End Reader.

(** ** The fan-in tool: [amqpfind/amqpfind.py] *)

Module Amqpfind.

#[local] Set Warnings "-register-all".
Local Open Scope Z_scope.

(** *** Payload values

    A payload is the dict decoded from a JSON message body. JSON numbers
    are integers here; strings are sequences of ASCII characters. *)

Inductive value : Type :=
| VNone
| VBool (b : bool)
| VInt (z : Z)
| VStr (s : string)
| VList (items : list value)
| VDict (items : list (string * value)).

Abbreviation payload := (gmap string value).

Definition SQUOTE : ascii := "'"%char.
Definition DQUOTE : ascii := "034"%char.
Definition BACKSLASH : ascii := "\"%char.

Definition char_in (c : ascii) (s : string) : bool :=
  existsb (Ascii.eqb c) (list_ascii_of_string s).

Definition hex_digit (n : nat) : string :=
  match String.get n "0123456789abcdef" with
  | Some c => String c EmptyString
  | None => "0"
  end.

(** One character of [repr] of a [str], between quotes [q]. *)
Definition repr_char (q c : ascii) : string :=
  if Ascii.eqb c q || Ascii.eqb c BACKSLASH then String BACKSLASH (String c EmptyString)
  else if Ascii.eqb c "009"%char then "\t"
  else if Ascii.eqb c "010"%char then "\n"
  else if Ascii.eqb c "013"%char then "\r"
  else
    let n := nat_of_ascii c in
    if (n <? 32)%nat || (n =? 127)%nat
    then "\x" +:+ hex_digit (n / 16) +:+ hex_digit (n mod 16)
    else String c EmptyString.

Definition repr_str (s : string) : string :=
  let q := if char_in SQUOTE s && negb (char_in DQUOTE s) then DQUOTE else SQUOTE in
  String q (String.concat "" (repr_char q <$> list_ascii_of_string s))
  +:+ String q EmptyString.

Definition str_of_int (z : Z) : string := NilZero.string_of_int (Z.to_int z).

(** [repr(v)] *)
Fixpoint py_repr (v : value) : string :=
  match v with
  | VNone => "None"
  | VBool b => if b then "True" else "False"
  | VInt z => str_of_int z
  | VStr s => repr_str s
  | VList items => "[" +:+ String.concat ", " (py_repr <$> items) +:+ "]"
  | VDict items =>
      "{" +:+ String.concat ", "
                ((fun kv => repr_str kv.1 +:+ ": " +:+ py_repr kv.2) <$> items)
      +:+ "}"
  end.

(** [str(v)], which is also [format(v, "")] *)
Definition py_str (v : value) : string :=
  match v with
  | VStr s => s
  | _ => py_repr v
  end.

(** [v[i]] for an integer [i >= 0] *)
Definition getitem_index (v : value) (i : nat) : outcome value :=
  match v with
  | VStr s =>
      match String.get i s with
      | Some c => Ok (VStr (String c EmptyString))
      | None => Raise IndexError
      end
  | VList items =>
      match items !! i with
      | Some x => Ok x
      | None => Raise IndexError
      end
  | VDict _ => Raise KeyError
  | _ => Raise TypeError
  end.

Fixpoint assoc (k : string) (items : list (string * value)) : option value :=
  match items with
  | [] => None
  | (k', v) :: items' => if decide (k' = k) then Some v else assoc k items'
  end.

(** [v[k]] for a string [k] *)
Definition getitem_key (v : value) (k : string) : outcome value :=
  match v with
  | VDict items =>
      match assoc k items with
      | Some x => Ok x
      | None => Raise KeyError
      end
  | _ => Raise TypeError
  end.

(** *** What the program does to the outside *)

Inductive output : Type :=
| Line (s : string)
| PrettyDump (items : list (string * value))
| NullJson (topic : string) (content : payload)
| DumpLine (topic : string) (content : payload).

(** [Emitting] marks a call of [Dispatcher.emit] with its arguments;
    [Alarm n] is [alarm(n)]; [Called] is a call of the user's callback;
    [LogError] and [LogWarning] are [LOG.error] and [LOG.warning], with the
    start of the message. Debug and info logging is left out. *)
Inductive event : Type :=
| Emitting (topic : string) (msg : payload)
| Alarm (seconds : Z)
| Stdout (o : output)
| StdoutFlush
| Called (topic : string) (msg : payload)
| LogError (text : string)
| LogWarning (text : string).

(** A computation that acts on the outside and may raise: what it did,
    and how it ended. What was done before an exception stays done. *)
Definition act (A : Type) : Type := (list event * outcome A)%type.

#[global] Instance act_ret : MRet act := fun A a => ([], Ok a).
#[global] Instance act_bind : MBind act := fun A B k m =>
  match m.2 with
  | Ok a => (m.1 ++ (k a).1, (k a).2)
  | Raise e => (m.1, Raise e)
  end.

Definition tell (e : event) : act unit := ([e], Ok tt).
Definition raise {A : Type} (e : exn) : act A := ([], Raise e).
Definition lift {A : Type} (r : outcome A) : act A := ([], r).

(** *** Emitter: [json_emit] *)

(** [_missing_] *)
Definition _missing_ : value := VStr "?UNKNOWN?".

(** A format string other than ['?'] and ['*'] is held as what
    [str.format_map] parses it into: literal text and replacement fields,
    a field being a key name followed by [[index]] and [[key]] lookups.
    Fields with an attribute path, a conversion or a format specification
    are not represented, nor are strings with unbalanced braces. A field
    with no name or a number for name ([{}], [{0}]) is a positional
    field. *)
Inductive accessor : Type :=
| Index (i : nat)
| Key (k : string).

Record replacement_field : Type := mkRepl {
  arg_name : string;
  path : list accessor
}.

Inductive segment : Type :=
| Literal (s : string)
| Field (f : replacement_field).

Inductive format_string : Type :=
| FmtPretty
| FmtNullJson
| FmtTemplate (t : list segment).

(** [discontent[name]] on the [defaultdict(_missing_)]: a missing key gets
    the default, which is also stored. *)
Definition defaultdict_getitem (discontent : payload) (name : string)
  : value * payload :=
  match discontent !! name with
  | Some v => (v, discontent)
  | None => (_missing_, <[name := _missing_]> discontent)
  end.

Definition apply_accessor (r : outcome value) (a : accessor) : outcome value :=
  obj ← r;
  match a with
  | Index i => getitem_index obj i
  | Key k => getitem_key obj k
  end.

Definition get_field (f : replacement_field) (discontent : payload)
  : outcome value * payload :=
  let '(obj, discontent') := defaultdict_getitem discontent (arg_name f) in
  (foldl apply_accessor (Ok obj) (path f), discontent').

Definition is_digit (c : ascii) : bool :=
  (48 <=? nat_of_ascii c)%nat && (nat_of_ascii c <=? 57)%nat.

(** A field name that stands for a positional argument: the empty name
    and a name made of digits. *)
Definition positional (name : string) : bool :=
  forallb is_digit (list_ascii_of_string name).

(** [format_str.format_map(discontent)]. The string is formatted from
    left to right; [format_map] has no positional arguments and raises
    [ValueError] when it comes to a positional field. *)
Fixpoint format_map (t : list segment) (discontent : payload) : outcome string :=
  match t with
  | [] => Ok ""
  | Literal s :: t' =>
      rest ← format_map t' discontent;
      Ok (s +:+ rest)
  | Field f :: t' =>
      if positional (arg_name f) then Raise ValueError
      else
        let '(r, discontent') := get_field f discontent in
        obj ← r;
        rest ← format_map t' discontent';
        Ok (py_str obj +:+ rest)
  end.

(** [sorted(content.keys())] with the values *)
Definition key_le (a b : string * value) : Prop := String.leb a.1 b.1 = true.

#[global] Instance key_le_dec a b : Decision (key_le a b).
Proof. unfold key_le. apply _. Defined.

Definition sorted_items (content : payload) : list (string * value) :=
  merge_sort key_le (map_to_list content).

(** [json_emit]. [format_map] exists on the Python versions the package
    supports and raises no [AttributeError] on the templates held here,
    so the handler for it is not reached. An exception that is not a
    [KeyError] leaves before the final flush. *)
Definition json_emit (topic : string) (content : payload)
    (format_str : option format_string) : act unit :=
  match format_str with
  | Some (FmtTemplate t) =>
      let discontent : payload := content in
      match format_map t discontent with
      | Ok s => _ ← tell (Stdout (Line s)); tell StdoutFlush
      | Raise KeyError =>
          _ ← tell (LogError "skipping message, missing key"); tell StdoutFlush
      | Raise e => raise e
      end
  | Some FmtPretty =>
      _ ← tell (Stdout (PrettyDump (sorted_items content))); tell StdoutFlush
  | Some FmtNullJson =>
      _ ← tell (Stdout (NullJson topic content)); tell StdoutFlush
  | None =>
      _ ← tell (Stdout (DumpLine topic content)); tell StdoutFlush
  end.

(** A template of literal text and plain [{name}] fields: a field has a
    name that is not positional, and no lookup after it. *)
Definition plain (t : list segment) : Prop :=
  Forall (fun seg => match seg with
                     | Literal _ => True
                     | Field f => positional (arg_name f) = false /\ path f = []
                     end) t.

(** The text a plain segment stands for, with the default for a key the
    payload does not have. *)
Definition substitute (content : payload) (seg : segment) : string :=
  match seg with
  | Literal s => s
  | Field f => py_str (default _missing_ (content !! arg_name f))
  end.

Definition concat_strings (l : list string) : string := foldr String.app "" l.

(** **** Properties of the emitter *)

Lemma defaultdict_getitem_value (d : payload) name :
  (defaultdict_getitem d name).1 = default _missing_ (d !! name).
Proof. unfold defaultdict_getitem. destruct (d !! name); reflexivity. Qed.

Lemma defaultdict_getitem_same (d : payload) name n :
  default _missing_ ((defaultdict_getitem d name).2 !! n)
  = default _missing_ (d !! n).
Proof.
  unfold defaultdict_getitem. destruct (d !! name) eqn:E; [reflexivity|].
  cbn [snd]. destruct (decide (name = n)) as [->|Hne].
  - rewrite lookup_insert_eq, E. reflexivity.
  - rewrite lookup_insert_ne by assumption. reflexivity.
Qed.

Lemma format_map_plain (content : payload) t : forall d : payload,
  plain t ->
  (forall n, default _missing_ (d !! n) = default _missing_ (content !! n)) ->
  format_map t d = Ok (concat_strings (substitute content <$> t)).
Proof.
  induction t as [|seg t IH]; intros d Hplain Hd; [reflexivity|].
  apply Forall_cons in Hplain as [Hseg Hplain].
  destruct seg as [s|f]; cbn [format_map fmap list_fmap].
  - rewrite (IH d Hplain Hd). reflexivity.
  - destruct Hseg as [Hname Hseg]. rewrite Hname. unfold get_field.
    pose proof (defaultdict_getitem_value d (arg_name f)) as Hv.
    pose proof (defaultdict_getitem_same d (arg_name f)) as Hs.
    destruct (defaultdict_getitem d (arg_name f)) as [obj d'].
    cbn [fst snd] in Hv, Hs. rewrite Hseg. cbn [foldl mbind outcome_bind].
    rewrite (IH d' Hplain).
    + subst obj. rewrite Hd. reflexivity.
    + intros n. rewrite Hs. apply Hd.
Qed.

(** S4 *)
Example json_emit_S4 :
  json_emit "t" {[ "sat" := VStr "G16" ]}
    (Some (FmtTemplate [ Field (mkRepl "sat" []); Literal "/";
                         Field (mkRepl "missing" []) ]))
  = ([Stdout (Line "G16/?UNKNOWN?"); StdoutFlush], Ok tt).
Proof. vm_compute. reflexivity. Qed.

(** C5, as stated, fails. With the template [{meta[name]}], a payload
    without [meta] makes [format_map] index the default string with a
    string: [TypeError], nothing is written, while a payload with [meta]
    is written. With [{path[0]}], a payload without [path] is written as
    [?], the first character of the default. With [{0}] and with [{}]
    nothing is written and [ValueError] is raised, whether the payload
    has the key or not. *)
Lemma json_emit_index_on_missing_counterexample :
  json_emit "t" ∅ (Some (FmtTemplate [Field (mkRepl "meta" [Key "name"])]))
    = ([], Raise TypeError) /\
  json_emit "t" {[ "meta" := VDict [("name", VStr "abi")] ]}
      (Some (FmtTemplate [Field (mkRepl "meta" [Key "name"])]))
    = ([Stdout (Line "abi"); StdoutFlush], Ok tt) /\
  json_emit "t" ∅ (Some (FmtTemplate [Field (mkRepl "path" [Index 0])]))
    = ([Stdout (Line "?"); StdoutFlush], Ok tt) /\
  json_emit "t" ∅ (Some (FmtTemplate [Field (mkRepl "0" [])]))
    = ([], Raise ValueError) /\
  json_emit "t" {[ "0" := VStr "x" ]} (Some (FmtTemplate [Field (mkRepl "0" [])]))
    = ([], Raise ValueError) /\
  json_emit "t" ∅ (Some (FmtTemplate [Field (mkRepl "" [])]))
    = ([], Raise ValueError).
Proof. vm_compute. repeat split; reflexivity. Qed.

(** C5 (amended). For a template of literal text and plain [{name}]
    fields (the name neither empty nor a number, nothing after the
    name), and every payload, [json_emit] writes one line and raises
    nothing; in that line each field stands for [str] of the payload's
    value, and for [?UNKNOWN?] when the payload has no such key. *)
Theorem json_emit_plain_template (topic : string) (content : payload)
    (t : list segment) :
  plain t ->
  json_emit topic content (Some (FmtTemplate t))
    = ([Stdout (Line (concat_strings (substitute content <$> t))); StdoutFlush],
       Ok tt) /\
  (forall f, Field f ∈ t -> content !! arg_name f = None ->
     substitute content (Field f) = "?UNKNOWN?").
Proof.
  intros Hplain. split.
  - unfold json_emit.
    rewrite (format_map_plain content t content Hplain) by reflexivity.
    reflexivity.
  - intros f _ Hnone. cbn [substitute]. rewrite Hnone. reflexivity.
Qed.

Lemma json_emit_plain_template_witness :
  json_emit "t" {[ "sat" := VStr "G16" ]}
    (Some (FmtTemplate [ Field (mkRepl "sat" []); Literal "/";
                         Field (mkRepl "missing" []) ]))
    = ([Stdout (Line (concat_strings
                        (substitute {[ "sat" := VStr "G16" ]} <$>
                           [ Field (mkRepl "sat" []); Literal "/";
                             Field (mkRepl "missing" []) ])));
        StdoutFlush], Ok tt) /\
  (forall f, Field f ∈ [ Field (mkRepl "sat" []); Literal "/";
                         Field (mkRepl "missing" []) ] ->
     ({[ "sat" := VStr "G16" ]} : payload) !! arg_name f = None ->
     substitute {[ "sat" := VStr "G16" ]} (Field f) = "?UNKNOWN?").
Proof.
  apply (json_emit_plain_template "t" {[ "sat" := VStr "G16" ]}).
  repeat constructor.
Defined.

(** *** Transforms and the dispatcher *)

(** A compiled expression, as the function from the names it can read to
    what evaluating it gives. *)
Definition expr (A : Type) : Type := payload -> outcome A.

(** [Transforms]: [_trans] is the list of [(key, code)] pairs. *)
Record Transforms : Type := mkTransforms {
  _trans : list (string * expr value)
}.

(** The loop of [Transforms.__call__]: every expression reads [old_msg],
    the results go to [new_msg]. *)
Fixpoint transforms_loop (trans : list (string * expr value))
    (old_msg new_msg : payload) : outcome payload :=
  match trans with
  | [] => Ok new_msg
  | (key, code) :: trans' =>
      new_val ← code old_msg;
      transforms_loop trans' old_msg (<[key := new_val]> new_msg)
  end.

(** [Transforms.__call__] *)
Definition Transforms_call (t : Transforms) (msg : payload) : outcome payload :=
  transforms_loop (_trans t) msg msg.

(** A message dict as an object: [msg_id] is its [id()]. *)
Record message : Type := mkMessage {
  msg_id : nat;
  content : payload
}.

(** Python dicts whose keys need not be strings, with their items in
    insertion order. *)
Section Dict.
Context {K V : Type} `{EqDecision K}.

Fixpoint dict_get (k : K) (d : list (K * V)) : option V :=
  match d with
  | [] => None
  | (k', v) :: d' => if decide (k' = k) then Some v else dict_get k d'
  end.

Definition dict_mem (k : K) (d : list (K * V)) : bool :=
  bool_decide (is_Some (dict_get k d)).

Fixpoint dict_set (k : K) (v : V) (d : list (K * V)) : list (K * V) :=
  match d with
  | [] => [(k, v)]
  | (k', v') :: d' =>
      if decide (k' = k) then (k, v) :: d' else (k', v') :: dict_set k v d'
  end.

Definition dict_del (k : K) (d : list (K * V)) : list (K * V) :=
  filter (fun kv => kv.1 <> k) d.

(** [dict(pairs)]: a later pair replaces an earlier one with its key. *)
Definition dict_of_pairs (pairs : list (K * V)) : list (K * V) :=
  foldl (fun d kv => dict_set kv.1 kv.2 d) [] pairs.

End Dict.

Section Dispatcher.
Context {Key : Type} `{EqDecision Key}.

(** [datetime.isoformat], and [random.shuffle] as the permutation it
    makes in a given state of the generator. *)
Variable isoformat : Z -> string.
Variable random_shuffle : nat -> list message -> list message.

(** What a key expression gives: [None] is Python's [None]. *)
Abbreviation okey := (option Key).

(** [--score]: a [lambda a, b] comparator, or a scalar expression. *)
Inductive score_option : Type :=
| ScoreLambda (cmp : message -> message -> outcome message)
| ScoreExpr (code : expr (option Z)).

(** The parsed options that the dispatcher reads; [opt_window] is in
    microseconds. *)
Record options : Type := mkOptions {
  opt_timeout : Z;
  opt_key : option (expr okey);
  opt_score : option score_option;
  opt_json : option format_string;
  opt_window : option Z;
  opt_callback : option (string -> payload -> outcome unit);
  opt_transforms : list (string * expr value)
}.

(** [score_code]: [None], [False] (a comparator was given) or the code. *)
Inductive score_code_t : Type :=
| ScoreCodeNone
| ScoreCodeFalse
| ScoreCode (code : expr (option Z)).

(** A tuple [(when, host, routing_key, msg)]. *)
Record entry : Type := mkEntry {
  e_when : Z;
  e_host : string;
  e_routing_key : string;
  e_msg : message
}.

(** The [Dispatcher] object. [compare_lambda] is the instance attribute
    [compare] that shadows the method when a comparator was given; [rng]
    is the state of the random generator. *)
Record Dispatcher : Type := mkDispatcher {
  transforms : option Transforms;
  key_code : option (expr okey);
  score_code : score_code_t;
  compare_lambda : option (message -> message -> outcome message);
  active_keys : option (list (okey * Z));
  msg_buffer : option (list (okey * list entry));
  horizon : option Z;
  shuffle : bool;
  json_format_str : option format_string;
  callback : option (string -> payload -> outcome unit);
  timeout : option Z;
  extra_default_payload : payload;
  rng : nat
}.

Definition set_active_keys (ak : option (list (okey * Z))) (d : Dispatcher)
  : Dispatcher :=
  mkDispatcher (transforms d) (key_code d) (score_code d) (compare_lambda d)
    ak (msg_buffer d) (horizon d) (shuffle d) (json_format_str d)
    (callback d) (timeout d) (extra_default_payload d) (rng d).

Definition set_msg_buffer (buf : option (list (okey * list entry)))
    (d : Dispatcher) : Dispatcher :=
  mkDispatcher (transforms d) (key_code d) (score_code d) (compare_lambda d)
    (active_keys d) buf (horizon d) (shuffle d) (json_format_str d)
    (callback d) (timeout d) (extra_default_payload d) (rng d).

Definition next_rng (d : Dispatcher) : Dispatcher :=
  mkDispatcher (transforms d) (key_code d) (score_code d) (compare_lambda d)
    (active_keys d) (msg_buffer d) (horizon d) (shuffle d) (json_format_str d)
    (callback d) (timeout d) (extra_default_payload d) (S (rng d)).

Definition DEFAULT_HORIZON_SEC : Z := 5 * 1000000.

(** [Dispatcher.__init__] *)
Definition Dispatcher_init (transforms : option Transforms) (opts : options)
    (extra_default_payload : payload) : Dispatcher :=
  {| transforms := transforms;
     timeout := if bool_decide (opt_timeout opts = 0) then None
                else Some (opt_timeout opts);
     key_code := opt_key opts;
     active_keys := match opt_key opts with Some _ => Some [] | None => None end;
     score_code := match opt_score opts with
                   | None => ScoreCodeNone
                   | Some (ScoreLambda _) => ScoreCodeFalse
                   | Some (ScoreExpr code) => ScoreCode code
                   end;
     compare_lambda := match opt_score opts with
                       | Some (ScoreLambda cmp) => Some cmp
                       | _ => None
                       end;
     msg_buffer := match opt_score opts with Some _ => Some [] | None => None end;
     json_format_str := opt_json opts;
     horizon := match opt_window opts with
                | Some w => Some w
                | None => match opt_key opts with
                          | Some _ => Some DEFAULT_HORIZON_SEC
                          | None => None
                          end
                end;
     callback := opt_callback opts;
     extra_default_payload := extra_default_payload;
     shuffle := true;
     rng := 0%nat |}.

(** [add_default_metadata]; the message is changed in place in the
    source, the changed message is the result here. *)
Definition add_default_metadata (d : Dispatcher) (now : Z) (topic : string)
    (msg : payload) : payload :=
  let msg := match msg !! "__topic__" with
             | Some _ => msg
             | None => <["__topic__" := VStr topic]> msg
             end in
  let msg := match msg !! "__reception_time__" with
             | Some _ => msg
             | None => <["__reception_time__" := VStr (isoformat now)]> msg
             end in
  msg ∪ extra_default_payload d.

(** [emit] *)
Definition emit (d : Dispatcher) (now : Z) (topic : string) (msg : payload)
  : act unit :=
  _ ← tell (Emitting topic msg);
  _ ← match timeout d with
      | Some t => tell (Alarm t)
      | None => mret tt
      end;
  let msg := add_default_metadata d now topic msg in
  msg ← match transforms d with
        | Some t => lift (Transforms_call t msg)
        | None => mret msg
        end;
  match callback d with
  | Some cb => _ ← tell (Called topic msg); lift (cb topic msg)
  | None => json_emit topic msg (json_format_str d)
  end.

(** [key_for_msg]: the expression reads the message through a
    [NoneDict]; whatever it raises is logged and gives [None]. *)
Definition key_for_msg (d : Dispatcher) (msg : payload) : act okey :=
  match key_code d with
  | Some code =>
      match code msg with
      | Ok k => mret k
      | Raise _ => _ ← tell (LogError "could not evaluate key"); mret None
      end
  | None => mret None
  end.

(** [score_for_msg] *)
Definition score_for_msg (d : Dispatcher) (msg : payload) : act (option Z) :=
  match score_code d with
  | ScoreCode code =>
      match code msg with
      | Ok s => mret s
      | Raise _ => _ ← tell (LogError "could not extract score value"); mret None
      end
  | _ => mret None
  end.

(** [s1 >= s2] on scores: an integer against [None] raises. *)
Definition score_ge (s1 s2 : option Z) : outcome bool :=
  match s1, s2 with
  | Some a, Some b => Ok (b <=? a)%Z
  | _, _ => Raise TypeError
  end.

(** [compare]: the given comparator, or the method. *)
Definition compare (d : Dispatcher) (msg1 msg2 : message) : act message :=
  match compare_lambda d with
  | Some cmp => lift (cmp msg1 msg2)
  | None =>
      s1 ← score_for_msg d (content msg1);
      s2 ← score_for_msg d (content msg2);
      b ← lift (score_ge s1 s2);
      mret (if b : bool then msg1 else msg2)
  end.

(** [functools.reduce] without an initial value *)
Definition reduce (f : message -> message -> act message)
    (l : list message) : act message :=
  match l with
  | [] => raise TypeError
  | x :: xs => foldl (fun acc y => a ← acc; f a y) (mret x) xs
  end.

(** [choose_msg] *)
Definition choose_msg (d : Dispatcher) (messages : list message) : act message :=
  let messages := if shuffle d then random_shuffle (rng d) messages
                  else messages in
  match score_code d with
  | ScoreCodeNone =>
      _ ← tell (LogWarning "choosing without a scoring mechanism");
      match messages with
      | m :: _ => mret m
      | [] => raise IndexError
      end
  | _ => reduce (compare d) messages
  end.

(** [_dismiss_active_key]. Reading [msg_buffer[key]] of the
    [defaultdict(list)] stores an empty list for a key it does not have. *)
Definition _dismiss_active_key (d : Dispatcher) (now : Z) (key : okey)
  : act Dispatcher :=
  match msg_buffer d with
  | None => mret d
  | Some buf =>
      match default [] (dict_get key buf) with
      | [] =>
          _ ← tell (LogError "no messages to compete for key");
          mret (set_msg_buffer
                  (Some (if dict_mem key buf then buf else buf ++ [(key, [])])) d)
      | competing_msgs =>
          let d := set_msg_buffer (Some (dict_del key buf)) d in
          let routing_key_lut :=
            dict_of_pairs
              ((fun e => (msg_id (e_msg e), (e_host e, e_routing_key e)))
                 <$> competing_msgs) in
          winner ← choose_msg d (e_msg <$> competing_msgs);
          let d := if shuffle d then next_rng d else d in
          match dict_get (msg_id winner) routing_key_lut with
          | None => raise KeyError
          | Some (host, routing_key) =>
              _ ← emit d now routing_key (content winner);
              mret d
          end
      end
  end.

(** The first loop of [_clean_expired], over the items of [active_keys]. *)
Fixpoint clean_loop (d : Dispatcher) (now : Z) (items : list (okey * Z))
    (delset : list okey) : act (Dispatcher * list okey) :=
  match items with
  | [] => mret (d, delset)
  | (key, when) :: items' =>
      match horizon d with
      | None => raise TypeError
      | Some h =>
          if (when + h <? now)%Z then
            d' ← _dismiss_active_key d now key;
            clean_loop d' now items' (delset ++ [key])
          else clean_loop d now items' delset
      end
  end.

(** [_clean_expired]; [now] is what [datetime.utcnow()] gives. *)
Definition _clean_expired (d : Dispatcher) (now : Z) : act Dispatcher :=
  match active_keys d with
  | None => raise AttributeError
  | Some ak =>
      r ← clean_loop d now ak [];
      let '(d', delset) := r in
      mret (set_active_keys (Some (foldl (fun ak key => dict_del key ak) ak delset)) d')
  end.

Definition minimum (l : list Z) : option Z :=
  match l with
  | [] => None
  | x :: xs => Some (foldl Z.min x xs)
  end.

(** [max_sleep_til_next_window], in microseconds *)
Definition max_sleep_til_next_window (d : Dispatcher) (now : Z)
  : outcome (option Z) :=
  match active_keys d with
  | None | Some [] => Ok None
  | Some ak =>
      match minimum ak.*2, horizon d with
      | Some first, Some h => Ok (Some (Z.max 0 (first + h - now)))
      | _, _ => Raise TypeError
      end
  end.

(** [_dispatch_race] *)
Definition _dispatch_race (d : Dispatcher) (now : Z) (e : entry) : act Dispatcher :=
  key ← key_for_msg d (content (e_msg e));
  match active_keys d with
  | None => raise TypeError
  | Some ak =>
      if dict_mem key ak then mret d
      else
        _ ← emit d now (e_routing_key e) (content (e_msg e));
        mret (set_active_keys (Some (dict_set key (e_when e) ak)) d)
  end.

(** [_dispatch_compete] *)
Definition _dispatch_compete (d : Dispatcher) (e : entry) : act Dispatcher :=
  key ← key_for_msg d (content (e_msg e));
  match active_keys d, msg_buffer d with
  | Some ak, Some buf =>
      let ak := if dict_mem key ak then ak else dict_set key (e_when e) ak in
      let buf := dict_set key (default [] (dict_get key buf) ++ [e]) buf in
      mret (set_msg_buffer (Some buf) (set_active_keys (Some ak) d))
  | _, _ => raise TypeError
  end.

Definition truthy (ak : option (list (okey * Z))) : bool :=
  match ak with
  | Some (_ :: _) => true
  | _ => false
  end.

(** [Dispatcher.__call__]: [arg] is [None] for a cleanup pass. The result
    is the dispatcher afterwards and the time the caller may wait. *)
Definition Dispatcher_call (d : Dispatcher) (now : Z) (arg : option entry)
  : act (Dispatcher * option Z) :=
  d ← (if truthy (active_keys d) then _clean_expired d now else mret d);
  match arg with
  | None =>
      w ← lift (max_sleep_til_next_window d now);
      mret (d, w)
  | Some e =>
      match key_code d, score_code d with
      | Some _, ScoreCodeNone =>
          d ← _dispatch_race d now e;
          w ← lift (max_sleep_til_next_window d now);
          mret (d, w)
      | Some _, _ =>
          d ← _dispatch_compete d e;
          w ← lift (max_sleep_til_next_window d now);
          mret (d, w)
      | None, _ =>
          _ ← emit d now (e_routing_key e) (content (e_msg e));
          mret (d, None)
      end
  end.

(** One turn of the supervisor's loop: the clock, and what the queue
    gave ([None] when the wait timed out). *)
Record call : Type := mkCall {
  c_now : Z;
  c_arg : option entry
}.

(** The calls of a run, each with what it did; the run stops at the
    first exception. *)
Fixpoint run (d : Dispatcher) (calls : list call)
  : list (list event) * outcome Dispatcher :=
  match calls with
  | [] => ([], Ok d)
  | c :: calls' =>
      let r := Dispatcher_call d (c_now c) (c_arg c) in
      match r.2 with
      | Ok (d', _) => let rest := run d' calls' in (r.1 :: rest.1, rest.2)
      | Raise e => ([r.1], Raise e)
      end
  end.

(** The calls of [emit] among some events. *)
Definition emits (evs : list event) : list (string * payload) :=
  omap (fun ev => match ev with
                  | Emitting topic msg => Some (topic, msg)
                  | _ => None
                  end) evs.

(** **** Properties of [emit] *)

Lemma act_bind_ok {A B : Type} (evs : list event) (a : A) (k : A -> act B) :
  ((evs, Ok a) ≫= k) = (evs ++ (k a).1, (k a).2).
Proof. reflexivity. Qed.

Lemma act_bind_raise {A B : Type} (evs : list event) (e : exn) (k : A -> act B) :
  ((evs, Raise e) ≫= k) = (evs, Raise e).
Proof. reflexivity. Qed.

Lemma emits_app (l1 l2 : list event) : emits (l1 ++ l2) = emits l1 ++ emits l2.
Proof. unfold emits. apply omap_app. Qed.

Lemma emits_json_emit topic content fmt : emits (json_emit topic content fmt).1 = [].
Proof.
  unfold json_emit.
  destruct fmt as [[| |t]|]; try reflexivity.
  destruct (format_map t content) as [s|[]]; reflexivity.
Qed.

(** What [emit] does before it transforms the message. *)
Definition emit_prelude (d : Dispatcher) (topic : string) (msg : payload)
  : list event :=
  Emitting topic msg ::
  match timeout d with
  | Some t => [Alarm t]
  | None => []
  end.

Lemma emit_unfold d now topic msg :
  emit d now topic msg =
  match match transforms d with
        | Some t => Transforms_call t (add_default_metadata d now topic msg)
        | None => Ok (add_default_metadata d now topic msg)
        end with
  | Ok msg' =>
      match callback d with
      | Some cb => (emit_prelude d topic msg ++ [Called topic msg'], cb topic msg')
      | None =>
          (emit_prelude d topic msg ++ (json_emit topic msg' (json_format_str d)).1,
           (json_emit topic msg' (json_format_str d)).2)
      end
  | Raise e => (emit_prelude d topic msg, Raise e)
  end.
Proof.
  unfold emit, emit_prelude.
  destruct (timeout d) as [t|]; destruct (transforms d) as [tr|];
    try destruct (Transforms_call tr _) as [msg'|e];
    try reflexivity;
    destruct (callback d) as [cb|];
    unfold tell, lift, mret, act_ret, mbind, act_bind; cbn [fst snd];
    try (destruct (cb topic _); reflexivity);
    try (destruct (json_emit _ _ _) as [evs [|]]; reflexivity).
Qed.

(** One call of [emit] is one [Emitting] mark. *)
Lemma emits_emit d now topic msg :
  emits (emit d now topic msg).1 = [(topic, msg)].
Proof.
  rewrite emit_unfold.
  assert (Hp : emits (emit_prelude d topic msg) = [(topic, msg)]).
  { unfold emit_prelude. destruct (timeout d); reflexivity. }
  destruct (match transforms d with Some _ => _ | None => _ end) as [msg'|e];
    [|exact Hp].
  destruct (callback d) as [cb|]; cbn [fst]; rewrite emits_app, Hp.
  - reflexivity.
  - rewrite emits_json_emit. reflexivity.
Qed.

Lemma transforms_loop_raise pre key code post e : forall old_msg new_msg,
  (forall kc, kc ∈ pre -> exists v, kc.2 old_msg = Ok v) ->
  code old_msg = Raise e ->
  transforms_loop (pre ++ (key, code) :: post) old_msg new_msg = Raise e.
Proof.
  induction pre as [|[k c] pre IH]; intros old_msg new_msg Hpre Hcode.
  - cbn. rewrite Hcode. reflexivity.
  - cbn. destruct (Hpre (k, c)) as [v Hv]; [left|]. cbn in Hv. rewrite Hv. cbn.
    apply IH; [|assumption]. intros kc Hin. apply Hpre. right. assumption.
Qed.

(** C3 (amended). When a transform expression raises, after the ones
    before it returned, [emit] raises the same exception, whatever
    expressions come after it: these are not evaluated, and [emit] has
    done nothing but re-arm the alarm, so nothing is logged, written or
    passed to the callback for the event. *)
Theorem emit_transform_exception_propagates
    (d : Dispatcher) (now : Z) (topic : string) (msg : payload)
    (pre : list (string * expr value)) (key : string) (code : expr value)
    (post : list (string * expr value)) (e : exn) :
  transforms d = Some (mkTransforms (pre ++ (key, code) :: post)) ->
  (forall kc, kc ∈ pre ->
     exists v, kc.2 (add_default_metadata d now topic msg) = Ok v) ->
  code (add_default_metadata d now topic msg) = Raise e ->
  emit d now topic msg = (emit_prelude d topic msg, Raise e).
Proof.
  intros Htr Hpre Hcode. rewrite emit_unfold, Htr.
  unfold Transforms_call. cbn [_trans].
  rewrite (transforms_loop_raise pre key code post e); [reflexivity| |]; assumption.
Qed.

(** C10. A dispatcher made with a score option and no key option has no
    table of active keys and an empty buffer. Called with an event it
    calls [emit] once, with that event, does nothing else and stays as
    it is; a cleanup call does nothing. So over any run no window is
    opened and nothing is buffered. *)
Theorem score_without_key_is_passthrough
    (t : Z) (sc : score_option) (j : option format_string) (w : option Z)
    (cb : option (string -> payload -> outcome unit))
    (tr : list (string * expr value)) (trans : option Transforms)
    (extra : payload) (now : Z) (e : entry) (calls : list call) :
  let d := Dispatcher_init trans (mkOptions t None (Some sc) j w cb tr) extra in
  active_keys d = None /\
  msg_buffer d = Some [] /\
  Dispatcher_call d now (Some e) =
    ((emit d now (e_routing_key e) (content (e_msg e))).1,
     match (emit d now (e_routing_key e) (content (e_msg e))).2 with
     | Ok _ => Ok (d, None)
     | Raise x => Raise x
     end) /\
  emits (Dispatcher_call d now (Some e)).1
    = [(e_routing_key e, content (e_msg e))] /\
  Dispatcher_call d now None = ([], Ok (d, None)) /\
  (forall d', (run d calls).2 = Ok d' -> d' = d).
Proof.
  intros d.
  assert (Hcall : Dispatcher_call d now (Some e) =
    ((emit d now (e_routing_key e) (content (e_msg e))).1,
     match (emit d now (e_routing_key e) (content (e_msg e))).2 with
     | Ok _ => Ok (d, None)
     | Raise x => Raise x
     end)).
  { unfold Dispatcher_call. cbn [d Dispatcher_init active_keys key_code truthy opt_key].
    unfold mret, act_ret, mbind, act_bind. cbn [fst snd app].
    destruct (emit _ _ _ _) as [evs [[]|x]]; cbn [fst snd]; rewrite ?app_nil_r; reflexivity. }
  split; [reflexivity|]. split; [reflexivity|]. split; [exact Hcall|].
  split; [rewrite Hcall; apply emits_emit|].
  split; [reflexivity|].
  clear now e Hcall.
  induction calls as [|c calls IH]; intros d' Hrun.
  - cbn in Hrun. congruence.
  - cbn [run] in Hrun.
    assert (Hc : exists evs r, Dispatcher_call d (c_now c) (c_arg c) = (evs, r) /\
                   forall d1 w1, r = Ok (d1, w1) -> d1 = d).
    { destruct (c_arg c) as [e|].
      - unfold Dispatcher_call.
        cbn [d Dispatcher_init active_keys key_code truthy opt_key].
        unfold mret, act_ret, mbind, act_bind. cbn [fst snd app].
        destruct (emit _ _ _ _) as [evs [[]|x]]; cbn [fst snd];
          eexists _, _; (split; [reflexivity|]); intros d1 w1 Heq;
          first [discriminate Heq | injection Heq as <- _; reflexivity].
      - exists [], (Ok (d, None)). split; [reflexivity|].
        intros d1 w1 Heq. injection Heq as <- _. reflexivity. }
    destruct Hc as (evs & r & Heq & Hd). rewrite Heq in Hrun. cbn [fst snd] in Hrun.
    destruct r as [[d1 w1]|x]; [|discriminate].
    rewrite (Hd d1 w1 eq_refl) in Hrun. cbn [snd] in Hrun. apply IH. exact Hrun.
Qed.

(** C4 (amended). In Race mode a key expression that raises is logged
    and the event gets the key [None], an ordinary key: the event is
    dropped when a window for [None] is open, and otherwise it is
    emitted and opens the window for [None]. *)
Theorem race_key_error_uses_none_key
    (d : Dispatcher) (now : Z) (e : entry) (code : expr okey) (x : exn)
    (ak : list (okey * Z)) :
  key_code d = Some code ->
  code (content (e_msg e)) = Raise x ->
  active_keys d = Some ak ->
  (key_for_msg d (content (e_msg e))).2 = Ok None /\
  (dict_mem None ak = true ->
     _dispatch_race d now e = ([LogError "could not evaluate key"], Ok d)) /\
  (dict_mem None ak = false ->
     _dispatch_race d now e =
       (LogError "could not evaluate key"
          :: (emit d now (e_routing_key e) (content (e_msg e))).1,
        match (emit d now (e_routing_key e) (content (e_msg e))).2 with
        | Ok _ => Ok (set_active_keys (Some (dict_set None (e_when e) ak)) d)
        | Raise y => Raise y
        end)).
Proof.
  intros Hkey Hcode Hak.
  assert (Hk : key_for_msg d (content (e_msg e))
               = ([LogError "could not evaluate key"], Ok None)).
  { unfold key_for_msg. rewrite Hkey, Hcode. reflexivity. }
  split; [rewrite Hk; reflexivity|].
  unfold _dispatch_race. rewrite Hk, Hak.
  split; intros Hmem; rewrite act_bind_ok; rewrite Hmem; [reflexivity|].
  unfold mret, act_ret, mbind, act_bind. cbn [fst snd app].
  destruct (emit _ _ _ _) as [evs [[]|y]]; cbn [fst snd]; rewrite ?app_nil_r; reflexivity.
Qed.

(** **** Facts about dicts *)

Lemma dict_get_set_eq {K V : Type} `{EqDecision K} (k : K) (v : V) d :
  dict_get k (dict_set k v d) = Some v.
Proof.
  induction d as [|[k' v'] d IH]; cbn.
  - destruct (decide (k = k)); congruence.
  - destruct (decide (k' = k)) as [->|Hne]; cbn.
    + destruct (decide (k = k)); congruence.
    + destruct (decide (k' = k)); [congruence|assumption].
Qed.

Lemma dict_get_set_ne {K V : Type} `{EqDecision K} (k k' : K) (v : V) d :
  k <> k' -> dict_get k' (dict_set k v d) = dict_get k' d.
Proof.
  intros Hne. induction d as [|[k2 v2] d IH]; cbn.
  - destruct (decide (k = k')); congruence.
  - destruct (decide (k2 = k)) as [->|Hne2]; cbn.
    + destruct (decide (k = k')); congruence.
    + destruct (decide (k2 = k')); [reflexivity|assumption].
Qed.

Lemma dict_get_del {K V : Type} `{EqDecision K} (k k' : K) (d : list (K * V)) :
  dict_get k' (dict_del k d) = if decide (k' = k) then None else dict_get k' d.
Proof.
  unfold dict_del. induction d as [|[k2 v2] d IH].
  - cbn. destruct (decide (k' = k)); reflexivity.
  - rewrite filter_cons. cbn [fst].
    destruct (decide (k2 <> k)) as [Hne|Heq]; cbn [dict_get].
    + destruct (decide (k2 = k')) as [->|Hne2].
      * destruct (decide (k' = k)); congruence.
      * exact IH.
    + assert (k2 = k) as -> by (destruct (decide (k2 = k)); tauto).
      rewrite IH. destruct (decide (k' = k)) as [->|Hne2].
      * reflexivity.
      * destruct (decide (k = k')); congruence.
Qed.

Lemma dict_get_foldl_del {K V : Type} `{EqDecision K} (ks : list K) :
  forall (k : K) (d : list (K * V)),
  dict_get k (foldl (fun d key => dict_del key d) d ks)
  = if decide (k ∈ ks) then None else dict_get k d.
Proof.
  induction ks as [|k0 ks IH]; intros k d; cbn [foldl].
  - destruct (decide (k ∈ [])) as [Hin|]; [inversion Hin|reflexivity].
  - rewrite IH, dict_get_del.
    destruct (decide (k ∈ ks)) as [Hin|Hnin].
    + rewrite decide_True by (right; assumption). reflexivity.
    + destruct (decide (k = k0)) as [->|Hne].
      * rewrite decide_True by left. reflexivity.
      * rewrite decide_False; [reflexivity|].
        intros Hin. apply elem_of_cons in Hin as [?|?]; tauto.
Qed.

Lemma dict_get_elem {K V : Type} `{EqDecision K} (k : K) (v : V) d :
  dict_get k d = Some v -> (k, v) ∈ d.
Proof.
  induction d as [|[k' v'] d IH]; cbn; [discriminate|].
  destruct (decide (k' = k)) as [->|Hne].
  - intros [= ->]. left.
  - intros Hg. right. auto.
Qed.

Lemma dict_elem_get {K V : Type} `{EqDecision K} (k : K) (v : V) d :
  NoDup d.*1 -> (k, v) ∈ d -> dict_get k d = Some v.
Proof.
  induction d as [|[k' v'] d IH]; intros Hnd Hin; [inversion Hin|].
  rewrite fmap_cons in Hnd. apply NoDup_cons in Hnd as [Hk Hnd]. cbn [fst] in Hk.
  cbn. apply elem_of_cons in Hin as [[= -> ->]|Hin].
  - destruct (decide (k' = k')); congruence.
  - destruct (decide (k' = k)) as [->|Hne]; [|auto].
    exfalso. apply Hk. apply list_elem_of_fmap. exists (k, v). auto.
Qed.

Lemma dict_mem_get {K V : Type} `{EqDecision K} (k : K) (d : list (K * V)) :
  dict_mem k d = false <-> dict_get k d = None.
Proof.
  unfold dict_mem. rewrite bool_decide_eq_false.
  destruct (dict_get k d); split; intros Hx; try reflexivity; try discriminate.
  - exfalso. apply Hx. eauto.
  - intros [? ?]. discriminate.
Qed.

Lemma dict_set_keys {K V : Type} `{EqDecision K} (k : K) (v : V) d :
  dict_get k d = None -> (dict_set k v d).*1 = d.*1 ++ [k].
Proof.
  induction d as [|[k' v'] d IH]; cbn; [reflexivity|].
  destruct (decide (k' = k)); [discriminate|].
  intros Hg. cbn. f_equal. auto.
Qed.

Lemma dict_get_None_keys {K V : Type} `{EqDecision K} (k : K) (d : list (K * V)) :
  dict_get k d = None <-> k ∉ d.*1.
Proof.
  induction d as [|[k' v'] d IH]; cbn.
  - split; [intros _; apply not_elem_of_nil|reflexivity].
  - destruct (decide (k' = k)) as [->|Hne].
    + split; [discriminate|]. intros Hn. exfalso. apply Hn. left.
    + rewrite IH, not_elem_of_cons. split; [auto|tauto].
Qed.

Lemma foldl_del_sublist {K V : Type} `{EqDecision K} (ks : list K) :
  forall d : list (K * V), sublist (foldl (fun d key => dict_del key d) d ks) d.
Proof.
  induction ks as [|k ks IH]; intros d; cbn [foldl]; [reflexivity|].
  etransitivity; [apply IH|]. apply sublist_filter.
Qed.

(** **** Race mode *)

(** The key [key_for_msg] gives a message. *)
Definition key_of (code : expr okey) (msg : payload) : okey :=
  match code msg with
  | Ok k => k
  | Raise _ => None
  end.

(** The window opened at [kw.2] is over at [now]. *)
Definition expired (h now : Z) (kw : okey * Z) : Prop := kw.2 + h < now.

#[global] Instance expired_dec h now kw : Decision (expired h now kw).
Proof. unfold expired. apply _. Defined.

Definition expired_keys (h now : Z) (items : list (okey * Z)) : list okey :=
  (filter (expired h now) items).*1.

(** [active_keys] after [_clean_expired] *)
Definition cleaned (h now : Z) (ak : list (okey * Z)) : list (okey * Z) :=
  foldl (fun ak key => dict_del key ak) ak (expired_keys h now ak).

(** A dispatcher in Race mode, with horizon [h] and open windows [ak]. *)
Record race_inv (d : Dispatcher) (code : expr okey) (h : Z)
    (ak : list (okey * Z)) : Prop := {
  ri_key : key_code d = Some code;
  ri_score : score_code d = ScoreCodeNone;
  ri_buffer : msg_buffer d = None;
  ri_horizon : horizon d = Some h;
  ri_active : active_keys d = Some ak;
  ri_nodup : NoDup ak.*1
}.

(** [active_keys] after a call in Race mode, and what the call emits. *)
Definition race_next (code : expr okey) (h : Z) (ak : list (okey * Z))
    (c : call) : list (okey * Z) :=
  let ak1 := cleaned h (c_now c) ak in
  match c_arg c with
  | None => ak1
  | Some e =>
      let key := key_of code (content (e_msg e)) in
      if dict_mem key ak1 then ak1 else dict_set key (e_when e) ak1
  end.

Definition race_emitted (code : expr okey) (h : Z) (ak : list (okey * Z))
    (c : call) : list (string * payload) :=
  match c_arg c with
  | None => []
  | Some e =>
      if dict_mem (key_of code (content (e_msg e))) (cleaned h (c_now c) ak)
      then []
      else [(e_routing_key e, content (e_msg e))]
  end.

Lemma key_for_msg_key_of d code msg :
  key_code d = Some code ->
  (key_for_msg d msg).2 = Ok (key_of code msg) /\
  emits (key_for_msg d msg).1 = [].
Proof.
  intros Hk. unfold key_for_msg, key_of. rewrite Hk.
  destruct (code msg); split; reflexivity.
Qed.

Lemma dismiss_no_buffer d now key :
  msg_buffer d = None -> _dismiss_active_key d now key = ([], Ok d).
Proof. intros Hb. unfold _dismiss_active_key. rewrite Hb. reflexivity. Qed.

Lemma clean_loop_no_buffer d now h :
  msg_buffer d = None -> horizon d = Some h ->
  forall items delset,
    clean_loop d now items delset
    = ([], Ok (d, delset ++ expired_keys h now items)).
Proof.
  intros Hb Hh. induction items as [|[key when] items IH]; intros delset.
  - cbn [clean_loop]. unfold expired_keys. rewrite filter_nil, fmap_nil, app_nil_r.
    reflexivity.
  - cbn [clean_loop]. rewrite Hh. unfold expired_keys. rewrite filter_cons.
    destruct (Z.ltb_spec (when + h) now) as [Hlt|Hge].
    + rewrite dismiss_no_buffer by assumption. rewrite act_bind_ok.
      rewrite IH. cbn [fst snd app]. rewrite decide_True by exact Hlt.
      rewrite fmap_cons. cbn [fst]. rewrite <- app_assoc. reflexivity.
    + rewrite IH. rewrite decide_False by (unfold expired; cbn [snd]; lia).
      reflexivity.
Qed.

Lemma clean_expired_race d code h ak now :
  race_inv d code h ak ->
  _clean_expired d now = ([], Ok (set_active_keys (Some (cleaned h now ak)) d)).
Proof.
  intros [Hk Hs Hb Hh Ha Hn]. unfold _clean_expired. rewrite Ha.
  rewrite (clean_loop_no_buffer d now h Hb Hh). reflexivity.
Qed.

Lemma expired_keys_elem h now (ak : list (okey * Z)) k :
  k ∈ expired_keys h now ak <-> exists w, (k, w) ∈ ak /\ w + h < now.
Proof.
  unfold expired_keys. rewrite list_elem_of_fmap. split.
  - intros [[k' w] [-> Hin]]. apply list_elem_of_filter in Hin as [Hex Hin].
    exists w. split; assumption.
  - intros [w [Hin Hex]]. exists (k, w). split; [reflexivity|].
    apply list_elem_of_filter. split; assumption.
Qed.

Lemma dict_get_cleaned h now (ak : list (okey * Z)) k :
  NoDup ak.*1 ->
  dict_get k (cleaned h now ak)
  = match dict_get k ak with
    | Some w => if decide (w + h < now) then None else Some w
    | None => None
    end.
Proof.
  intros Hnd. unfold cleaned. rewrite dict_get_foldl_del.
  destruct (dict_get k ak) as [w|] eqn:Hg.
  - destruct (decide (w + h < now)) as [Hlt|Hge].
    + rewrite decide_True; [reflexivity|].
      apply expired_keys_elem. exists w. split; [|assumption].
      apply dict_get_elem. assumption.
    + rewrite decide_False; [reflexivity|].
      intros Hin. apply expired_keys_elem in Hin as [w' [Hin Hex]].
      apply (dict_elem_get _ _ _ Hnd) in Hin. congruence.
  - destruct (decide (k ∈ expired_keys h now ak)); reflexivity.
Qed.

Lemma cleaned_nodup h now (ak : list (okey * Z)) :
  NoDup ak.*1 -> NoDup (cleaned h now ak).*1.
Proof.
  intros Hnd. eapply sublist_NoDup; [exact Hnd|].
  apply fmap_sublist. apply foldl_del_sublist.
Qed.

Lemma race_inv_set_active d code h ak ak' :
  race_inv d code h ak -> NoDup ak'.*1 ->
  race_inv (set_active_keys (Some ak') d) code h ak'.
Proof.
  intros [Hk Hs Hb Hh Ha Hn] Hn'.
  constructor; unfold set_active_keys; cbn; first [assumption | reflexivity].
Qed.

Lemma dict_set_nodup (k : okey) (w : Z) (ak : list (okey * Z)) :
  dict_get k ak = None -> NoDup ak.*1 -> NoDup (dict_set k w ak).*1.
Proof.
  intros Hg Hn. rewrite dict_set_keys by assumption.
  apply NoDup_app. split; [assumption|]. split.
  - intros x Hx Hx'. apply list_elem_of_singleton in Hx'. subst x.
    apply dict_get_None_keys in Hg. contradiction.
  - apply NoDup_singleton.
Qed.

Lemma max_sleep_race d code h ak now :
  race_inv d code h ak -> exists w, max_sleep_til_next_window d now = Ok w.
Proof.
  intros [Hk Hs Hb Hh Ha Hn]. unfold max_sleep_til_next_window. rewrite Ha, Hh.
  destruct ak as [|[k w] ak]; [eauto|]. cbn. eauto.
Qed.

(** Before it looks at the event, a call in Race mode has closed the
    windows that are over, and nothing else. *)
Lemma race_call_cleans d code h ak now :
  race_inv d code h ak ->
  exists d1,
    (if truthy (active_keys d) then _clean_expired d now else mret d) = ([], Ok d1) /\
    race_inv d1 code h (cleaned h now ak).
Proof.
  intros Hinv. destruct (truthy (active_keys d)) eqn:Ht.
  - rewrite (clean_expired_race d code h ak now Hinv). eexists. split; [reflexivity|].
    eapply race_inv_set_active; [exact Hinv|].
    apply cleaned_nodup. eapply ri_nodup. exact Hinv.
  - exists d. split; [reflexivity|].
    destruct Hinv as [Hk Hs Hb Hh Ha Hn]. rewrite Ha in Ht.
    destruct ak as [|x ak]; [|discriminate].
    constructor; assumption.
Qed.

Lemma race_call d code h ak (c : call) :
  race_inv d code h ak ->
  exists evs r,
    Dispatcher_call d (c_now c) (c_arg c) = (evs, r) /\
    emits evs = race_emitted code h ak c /\
    (forall d' w', r = Ok (d', w') -> race_inv d' code h (race_next code h ak c)) /\
    (race_emitted code h ak c = [] -> exists d' w', r = Ok (d', w')).
Proof.
  intros Hinv. unfold Dispatcher_call.
  destruct (race_call_cleans d code h ak (c_now c) Hinv) as (d1 & Hclean & Hinv1).
  rewrite Hclean, act_bind_ok. cbn [fst snd app].
  unfold race_emitted, race_next.
  destruct (c_arg c) as [e|].
  - assert (Hi := Hinv1). destruct Hi as [Hk Hs Hb Hh Ha Hn].
    rewrite Hk, Hs. unfold _dispatch_race.
    destruct (key_for_msg_key_of d1 code (content (e_msg e)) Hk) as [Hkey Hkev].
    destruct (key_for_msg d1 (content (e_msg e))) as [kevs kr].
    cbn [fst snd] in Hkey, Hkev. subst kr.
    rewrite !act_bind_ok. cbn [fst snd]. rewrite Ha.
    destruct (dict_mem (key_of code (content (e_msg e))) (cleaned h (c_now c) ak)) eqn:Hmem.
    + destruct (max_sleep_race d1 code h _ (c_now c) Hinv1) as [w Hw].
      cbn. rewrite Hw. cbn. eexists _, _. split; [reflexivity|].
      rewrite !app_nil_r. split; [assumption|]. split.
      * intros d' w' [= <- <-]. assumption.
      * intros _. eauto.
    + assert (Hinv2 : race_inv
                (set_active_keys
                   (Some (dict_set (key_of code (content (e_msg e))) (e_when e)
                            (cleaned h (c_now c) ak))) d1)
                code h
                (dict_set (key_of code (content (e_msg e))) (e_when e)
                   (cleaned h (c_now c) ak))).
      { eapply race_inv_set_active; [exact Hinv1|].
        apply dict_set_nodup; [|assumption]. apply dict_mem_get. assumption. }
      destruct (max_sleep_race _ code h _ (c_now c) Hinv2) as [w Hw].
      pose proof (emits_emit d1 (c_now c) (e_routing_key e) (content (e_msg e))) as Hem.
      destruct (emit d1 (c_now c) (e_routing_key e) (content (e_msg e))) as [eevs [[]|x]];
        cbn [fst snd] in Hem.
      * unfold mret, act_ret, mbind, act_bind, lift; cbn [fst snd].
        rewrite Hw.
        cbn. eexists _, _. split; [reflexivity|].
        rewrite !app_nil_r, emits_app, Hkev, Hem. split; [reflexivity|]. split.
        -- intros d' w' [= <- <-]. assumption.
        -- discriminate.
      * cbn. eexists _, _. split; [reflexivity|].
        rewrite emits_app, Hkev, Hem. split; [reflexivity|]. split.
        -- discriminate.
        -- discriminate.
  - destruct (max_sleep_race d1 code h _ (c_now c) Hinv1) as [w Hw].
    rewrite Hw. cbn. eexists _, _. split; [reflexivity|].
    split; [reflexivity|]. split.
    + intros d' w' [= <- <-]. assumption.
    + intros _. eauto.
Qed.

(** The key [k] has the window opened at [w], or the clock [t] is past
    the end of that window. *)
Definition window_or_past (h : Z) (k : okey) (w : Z) (ak : list (okey * Z))
    (t : Z) : Prop :=
  dict_get k ak = Some w \/ w + h < t.

Lemma window_or_past_next code h k w ak (c : call) t :
  NoDup ak.*1 -> window_or_past h k w ak t -> t <= c_now c ->
  window_or_past h k w (race_next code h ak c) (c_now c).
Proof.
  intros Hnd [Hg|Hp] Ht; [|right; lia].
  pose proof (dict_get_cleaned h (c_now c) ak k Hnd) as Hc. rewrite Hg in Hc.
  destruct (decide (w + h < c_now c)) as [Hlt|Hge]; [right; assumption|].
  left. unfold race_next. destruct (c_arg c) as [e|]; [|assumption].
  cbn zeta.
  destruct (dict_mem (key_of code (content (e_msg e))) (cleaned h (c_now c) ak)) eqn:Hm;
    [assumption|].
  rewrite dict_get_set_ne; [assumption|].
  intros Heq. apply dict_mem_get in Hm. congruence.
Qed.

Lemma race_emitted_opens code h ak (c : call) e :
  c_arg c = Some e -> race_emitted code h ak c <> [] ->
  dict_get (key_of code (content (e_msg e))) (race_next code h ak c)
  = Some (e_when e).
Proof.
  intros Harg Hem. unfold race_emitted, race_next in *. rewrite Harg in *.
  cbn zeta.
  destruct (dict_mem (key_of code (content (e_msg e))) (cleaned h (c_now c) ak));
    [congruence|].
  apply dict_get_set_eq.
Qed.

Lemma race_emitted_past code h k w ak (c : call) e t :
  NoDup ak.*1 -> window_or_past h k w ak t -> t <= c_now c ->
  c_arg c = Some e -> key_of code (content (e_msg e)) = k ->
  race_emitted code h ak c <> [] ->
  w + h < c_now c.
Proof.
  intros Hnd [Hg|Hp] Ht Harg Hk Hem; [|lia].
  unfold race_emitted in Hem. rewrite Harg, Hk in Hem.
  destruct (dict_mem k (cleaned h (c_now c) ak)) eqn:Hm; [congruence|].
  apply dict_mem_get in Hm.
  rewrite (dict_get_cleaned h (c_now c) ak k Hnd), Hg in Hm.
  destruct (decide (w + h < c_now c)); [assumption|discriminate].
Qed.

(** Once the key [k] has the window opened at [w], every later emit
    with the key [k] happens after the end of that window. *)
Lemma race_run_later code h (calls : list call) :
  forall d ak k w t,
    race_inv d code h ak ->
    window_or_past h k w ak t ->
    StronglySorted Z.le (t :: (c_now <$> calls)) ->
    forall j cj ej evs,
      calls !! j = Some cj -> c_arg cj = Some ej ->
      (run d calls).1 !! j = Some evs -> emits evs <> [] ->
      key_of code (content (e_msg ej)) = k ->
      w + h < c_now cj.
Proof.
  induction calls as [|c calls IH]; intros d ak k w t Hinv Hq Hs j cj ej evs Hj Harg Hev Hem Hk;
    [inversion Hj|].
  rewrite fmap_cons in Hs. apply StronglySorted_inv in Hs as [Hs Hall].
  apply Forall_cons in Hall as [Ht Hall].
  destruct (race_call d code h ak c Hinv) as (evs0 & r & Hcall & Hemits & Hnext & _).
  cbn [run] in Hev. rewrite Hcall in Hev. cbn [fst snd] in Hev.
  destruct j as [|j].
  - cbn in Hj. injection Hj as <-.
    assert (evs = evs0) as ->.
    { destruct r as [[d' w']|x]; cbn in Hev; congruence. }
    eapply race_emitted_past; try eassumption.
    + eapply ri_nodup. exact Hinv.
    + congruence.
  - cbn in Hj. destruct r as [[d' w']|x]; cbn in Hev;
      [|first [discriminate Hev | rewrite lookup_nil in Hev; discriminate Hev]].
    eapply (IH d' _ k w (c_now c)); try eassumption.
    + eapply Hnext. reflexivity.
    + eapply window_or_past_next; [eapply ri_nodup; exact Hinv|exact Hq|exact Ht].
Qed.

Lemma race_run_pair code h (calls : list call) :
  forall d ak,
    race_inv d code h ak ->
    StronglySorted Z.le (c_now <$> calls) ->
    forall i k ci ck ei ek evs_i evs_k,
      (i < k)%nat ->
      calls !! i = Some ci -> calls !! k = Some ck ->
      c_arg ci = Some ei -> c_arg ck = Some ek ->
      (run d calls).1 !! i = Some evs_i -> (run d calls).1 !! k = Some evs_k ->
      emits evs_i <> [] -> emits evs_k <> [] ->
      key_of code (content (e_msg ei)) = key_of code (content (e_msg ek)) ->
      e_when ei + h < c_now ck.
Proof.
  induction calls as [|c calls IH];
    intros d ak Hinv Hs i k ci ck ei ek evs_i evs_k Hik Hi Hk Hai Hak Hei Hek Hemi Hemk Hkey;
    [inversion Hi|].
  destruct k as [|k]; [lia|].
  destruct (race_call d code h ak c Hinv) as (evs0 & r & Hcall & Hemits & Hnext & _).
  cbn [run] in Hei, Hek. rewrite Hcall in Hei, Hek. cbn [fst snd] in Hei, Hek.
  destruct r as [[d' w']|x]; cbn in Hek;
    [|first [discriminate Hek | rewrite lookup_nil in Hek; discriminate Hek]].
  cbn in Hk. cbn in Hei.
  destruct i as [|i].
  - cbn in Hi. injection Hi as <-. injection Hei as <-.
    eapply (race_run_later code h calls d' _ (key_of code (content (e_msg ei)))
              (e_when ei) (c_now c)); try eassumption.
    + eapply Hnext. reflexivity.
    + left. apply race_emitted_opens; [assumption|]. congruence.
    + congruence.
  - cbn in Hi. rewrite fmap_cons in Hs. apply StronglySorted_inv in Hs as [Hs _].
    eapply (IH d' _ (Hnext d' w' eq_refl) Hs i k); try eassumption. lia.
Qed.

(** What a call does in Race mode: it emits the event when its key has
    no window that is still open, and then opens one at the event's
    reception time; otherwise it emits nothing and opens nothing. *)
Definition race_step_spec (code : expr okey) (h : Z) : Prop :=
  forall (d : Dispatcher) (ak : list (okey * Z)) (c : call),
    race_inv d code h ak ->
    exists evs r,
      Dispatcher_call d (c_now c) (c_arg c) = (evs, r) /\
      emits evs = race_emitted code h ak c /\
      (forall d' w', r = Ok (d', w') -> race_inv d' code h (race_next code h ak c)).

(** C2 (amended). A dispatcher made with a key option and no score
    option is in Race mode, with the given window or 5 s as horizon. Each
    call first closes the windows whose start plus the horizon is before
    the dispatcher's clock, then emits the event exactly when its key
    has no open window, and opens a window for the key at the event's
    reception time, which is the worker's and not the dispatcher's. Over
    a run with a clock that does not go back, when two calls emit events
    with the same key, the later call happens after the reception time
    of the earlier event plus the horizon; it need not be a horizon
    after the earlier emit. *)
Theorem race_window
    (t : Z) (code : expr okey) (j : option format_string) (w : option Z)
    (cb : option (string -> payload -> outcome unit))
    (tr : list (string * expr value)) (trans : option Transforms)
    (extra : payload) (calls : list call) (i k : nat) (ci ck : call)
    (ei ek : entry) (evs_i evs_k : list event) :
  let d0 := Dispatcher_init trans (mkOptions t (Some code) None j w cb tr) extra in
  let h := default DEFAULT_HORIZON_SEC w in
  StronglySorted Z.le (c_now <$> calls) ->
  (i < k)%nat ->
  calls !! i = Some ci -> calls !! k = Some ck ->
  c_arg ci = Some ei -> c_arg ck = Some ek ->
  (run d0 calls).1 !! i = Some evs_i -> (run d0 calls).1 !! k = Some evs_k ->
  emits evs_i <> [] -> emits evs_k <> [] ->
  key_of code (content (e_msg ei)) = key_of code (content (e_msg ek)) ->
  race_inv d0 code h [] /\
  race_step_spec code h /\
  e_when ei + h < c_now ck.
Proof.
  intros d0 h Hs Hik Hi Hk Hai Hak Hei Hek Hemi Hemk Hkey.
  assert (Hinv : race_inv d0 code h []).
  { constructor; try reflexivity.
    - unfold d0, h. cbn. destruct w; reflexivity.
    - constructor. }
  split; [exact Hinv|]. split.
  - intros d ak c Hd.
    destruct (race_call d code h ak c Hd) as (evs & r & H1 & H2 & H3 & _).
    exists evs, r. auto.
  - eapply (race_run_pair code h calls d0 [] Hinv Hs i k); eassumption.
Qed.

(** **** Compete mode: choosing a message *)

(** A comparator given by the user returns one of its two arguments. *)
Definition selective (d : Dispatcher) : Prop :=
  match compare_lambda d with
  | Some cmp => forall a b w, cmp a b = Ok w -> w = a \/ w = b
  | None => True
  end.

(** The score of [m] is not above the score of [w], when both are
    integers. *)
Definition score_le (score : expr (option Z)) (m w : message) : Prop :=
  forall zm zw,
    score (content m) = Ok (Some zm) -> score (content w) = Ok (Some zw) ->
    zm <= zw.

Definition scored (score : expr (option Z)) (m : message) : Prop :=
  exists z, score (content m) = Ok (Some z).

Lemma score_for_msg_events d msg : emits (score_for_msg d msg).1 = [].
Proof.
  unfold score_for_msg. destruct (score_code d) as [| |code]; try reflexivity.
  destruct (code msg); reflexivity.
Qed.

Lemma compare_scalar_unfold d score a b :
  score_code d = ScoreCode score -> compare_lambda d = None ->
  (compare d a b).2 =
    match score (content a), score (content b) with
    | Ok (Some za), Ok (Some zb) => Ok (if zb <=? za then a else b)
    | _, _ => Raise TypeError
    end.
Proof.
  intros Hs Hl. unfold compare, score_for_msg. rewrite Hl, Hs.
  destruct (score (content a)) as [[za|]|xa]; destruct (score (content b)) as [[zb|]|xb];
    reflexivity.
Qed.

Lemma compare_events d a b : emits (compare d a b).1 = [].
Proof.
  unfold compare. destruct (compare_lambda d) as [cmp|]; [reflexivity|].
  pose proof (score_for_msg_events d (content a)) as Ha.
  pose proof (score_for_msg_events d (content b)) as Hb.
  destruct (score_for_msg d (content a)) as [ea [sa|xa]]; [|exact Ha].
  destruct (score_for_msg d (content b)) as [eb [sb|xb]];
    unfold mret, act_ret, mbind, act_bind, lift; cbn [fst snd] in *.
  - destruct (score_ge sa sb); cbn [fst snd]; rewrite ?app_nil_r, emits_app, Ha, Hb; reflexivity.
  - rewrite emits_app, Ha, Hb. reflexivity.
Qed.

Lemma compare_selective d a b w :
  selective d -> (compare d a b).2 = Ok w -> w = a \/ w = b.
Proof.
  unfold selective, compare. destruct (compare_lambda d) as [cmp|].
  - intros Hsel Hc. cbn in Hc. eauto.
  - intros _.
    destruct (score_for_msg d (content a)) as [ea [sa|xa]]; [|discriminate].
    destruct (score_for_msg d (content b)) as [eb [sb|xb]];
      unfold mret, act_ret, mbind, act_bind, lift; cbn [fst snd]; [|discriminate].
    destruct (score_ge sa sb) as [[]|x]; cbn [fst snd]; intros [= <-]; auto.
Qed.

(** One step of [reduce]. *)
Definition reduce_step (d : Dispatcher) (acc : act message) (y : message)
  : act message :=
  a ← acc; compare d a y.

Lemma reduce_raise d (l : list message) evs x :
  foldl (reduce_step d) (evs, Raise x) l = (evs, Raise x).
Proof. induction l as [|y l IH]; [reflexivity|]. cbn. exact IH. Qed.

Lemma reduce_step_ok d evs a y :
  reduce_step d (evs, Ok a) y = (evs ++ (compare d a y).1, (compare d a y).2).
Proof. reflexivity. Qed.

Lemma reduce_in d : selective d ->
  forall (l : list message) evs0 a,
    emits evs0 = [] ->
    emits (foldl (reduce_step d) (evs0, Ok a) l).1 = [] /\
    (forall w, (foldl (reduce_step d) (evs0, Ok a) l).2 = Ok w -> w ∈ a :: l).
Proof.
  intros Hsel. induction l as [|y l IH]; intros evs0 a Hev.
  - cbn. split; [assumption|]. intros w [= <-]. left.
  - cbn [foldl]. rewrite reduce_step_ok.
    pose proof (compare_events d a y) as Hce.
    pose proof (compare_selective d a y) as Hcs.
    destruct (compare d a y) as [evs1 [a'|x]]; cbn [fst snd] in *.
    + destruct (IH (evs0 ++ evs1) a') as [H1 H2].
      { rewrite emits_app, Hev, Hce. reflexivity. }
      split; [assumption|]. intros w Hw. apply H2 in Hw.
      destruct (Hcs a' Hsel eq_refl) as [->| ->].
      * apply elem_of_cons in Hw as [->|Hw]; [left|right; right; assumption].
      * apply elem_of_cons in Hw as [->|Hw]; [right; left|right; right; assumption].
    + rewrite reduce_raise. cbn. split; [|discriminate].
      rewrite emits_app, Hev, Hce. reflexivity.
Qed.

Lemma reduce_max d score :
  score_code d = ScoreCode score -> compare_lambda d = None ->
  forall (l : list message) evs0 a w,
    (foldl (reduce_step d) (evs0, Ok a) l).2 = Ok w ->
    (l <> [] -> scored score w) /\
    (forall m, m ∈ a :: l -> score_le score m w).
Proof.
  intros Hs Hl. induction l as [|y l IH]; intros evs0 a w Hw.
  - cbn in Hw. injection Hw as <-. split; [congruence|].
    intros m Hm. apply list_elem_of_singleton in Hm as ->.
    intros zm zw H1 H2. rewrite H1 in H2. injection H2 as ->. lia.
  - cbn [foldl] in Hw. rewrite reduce_step_ok in Hw.
    pose proof (compare_scalar_unfold d score a y Hs Hl) as Hc.
    destruct (compare d a y) as [evs1 r]. cbn [fst snd] in *. subst r.
    destruct (score (content a)) as [[za|]|xa] eqn:Ha;
      try (rewrite reduce_raise in Hw; discriminate).
    destruct (score (content y)) as [[zy|]|xy] eqn:Hy;
      try (rewrite reduce_raise in Hw; discriminate).
    destruct (IH _ _ _ Hw) as [Hsc Hmax].
    assert (Hcur : exists zc, score (content (if zy <=? za then a else y)) = Ok (Some zc)
                              /\ za <= zc /\ zy <= zc).
    { destruct (Z.leb_spec zy za); eexists; (split; [eassumption|lia]). }
    destruct Hcur as (zc & Hzc & Hac & Hyc).
    assert (Hw' : scored score w).
    { destruct l as [|y' l']; [|apply Hsc; congruence].
      cbn in Hw. injection Hw as <-. eexists. eassumption. }
    split; [intros _; assumption|].
    intros m Hm zm zw Hzm Hzw.
    assert (Hcw : zc <= zw) by (eapply (Hmax _ (list_elem_of_here _ _)); eassumption).
    apply elem_of_cons in Hm as [->|Hm].
    + rewrite Ha in Hzm. injection Hzm as <-. lia.
    + apply elem_of_cons in Hm as [->|Hm].
      * rewrite Hy in Hzm. injection Hzm as <-. lia.
      * eapply (Hmax m); [right; assumption|eassumption|eassumption].
Qed.

Lemma reduce_total d score :
  score_code d = ScoreCode score -> compare_lambda d = None ->
  forall (l : list message) evs0 a,
    (forall m, m ∈ a :: l -> scored score m) ->
    exists w, (foldl (reduce_step d) (evs0, Ok a) l).2 = Ok w.
Proof.
  intros Hs Hl. induction l as [|y l IH]; intros evs0 a Hall.
  - cbn. eauto.
  - cbn [foldl]. rewrite reduce_step_ok.
    pose proof (compare_scalar_unfold d score a y Hs Hl) as Hc.
    destruct (compare d a y) as [evs1 r]. cbn [fst snd] in *. subst r.
    destruct (Hall a) as [za Ha]; [left|].
    destruct (Hall y) as [zy Hy]; [right; left|].
    rewrite Ha, Hy. apply IH.
    intros m Hm. apply Hall.
    apply elem_of_cons in Hm as [->|Hm].
    + destruct (zy <=? za); [left|right; left].
    + right; right; assumption.
Qed.

Lemma reduce_unfold d x (l : list message) :
  reduce (compare d) (x :: l) = foldl (reduce_step d) ([], Ok x) l.
Proof. reflexivity. Qed.

(** [random.shuffle] reorders its list and does nothing else. *)
Hypothesis random_shuffle_perm :
  forall (seed : nat) (l : list message), random_shuffle seed l ≡ₚ l.

Lemma choose_msg_spec d (l : list message) :
  score_code d <> ScoreCodeNone -> selective d ->
  emits (choose_msg d l).1 = [] /\
  (forall w, (choose_msg d l).2 = Ok w ->
     w ∈ l /\
     forall score, score_code d = ScoreCode score -> compare_lambda d = None ->
       forall m, m ∈ l -> score_le score m w) /\
  (forall score, score_code d = ScoreCode score -> compare_lambda d = None ->
     l <> [] -> (forall m, m ∈ l -> scored score m) ->
     exists w, (choose_msg d l).2 = Ok w).
Proof.
  intros Hsc Hsel. unfold choose_msg.
  set (l' := if shuffle d then random_shuffle (rng d) l else l).
  assert (Hperm : l' ≡ₚ l).
  { unfold l'. destruct (shuffle d); [apply random_shuffle_perm|reflexivity]. }
  assert (Hred : emits (reduce (compare d) l').1 = [] /\
    (forall w, (reduce (compare d) l').2 = Ok w ->
       w ∈ l /\
       forall score, score_code d = ScoreCode score -> compare_lambda d = None ->
         forall m, m ∈ l -> score_le score m w) /\
    (forall score, score_code d = ScoreCode score -> compare_lambda d = None ->
       l <> [] -> (forall m, m ∈ l -> scored score m) ->
       exists w, (reduce (compare d) l').2 = Ok w)).
  { destruct l' as [|x l''] eqn:El'.
    - cbn. split; [reflexivity|]. split; [discriminate|].
      intros score _ _ Hne _. exfalso. apply Hne.
      apply Permutation_nil_l in Hperm. congruence.
    - rewrite reduce_unfold.
      destruct (reduce_in d Hsel l'' [] x eq_refl) as [Hev Hin].
      split; [exact Hev|]. split.
      + intros w Hw. split.
        * rewrite <- Hperm. apply Hin. exact Hw.
        * intros score Hs Hl m Hm. rewrite <- Hperm in Hm.
          destruct (reduce_max d score Hs Hl l'' [] x w Hw) as [_ Hmax]. auto.
      + intros score Hs Hl _ Hall.
        apply (reduce_total d score Hs Hl l'' [] x).
        intros m Hm. apply Hall. rewrite <- Hperm. exact Hm. }
  destruct (score_code d); [congruence|exact Hred|exact Hred].
Qed.

Lemma dict_of_pairs_acc {K V : Type} `{EqDecision K} (pairs : list (K * V)) :
  forall (acc : list (K * V)) (k : K),
    (forall v, dict_get k (foldl (fun d kv => dict_set kv.1 kv.2 d) acc pairs) = Some v ->
       (k, v) ∈ pairs \/ dict_get k acc = Some v) /\
    (k ∈ pairs.*1 \/ is_Some (dict_get k acc) ->
       is_Some (dict_get k (foldl (fun d kv => dict_set kv.1 kv.2 d) acc pairs))).
Proof.
  induction pairs as [|[k1 v1] pairs IH]; intros acc k; cbn [foldl fst snd].
  - split; [auto|]. intros [Hin|Hs]; [inversion Hin|assumption].
  - destruct (IH (dict_set k1 v1 acc) k) as [H1 H2]. split.
    + intros v Hv. apply H1 in Hv as [Hin|Hg]; [left; right; assumption|].
      destruct (decide (k1 = k)) as [->|Hne].
      * rewrite dict_get_set_eq in Hg. injection Hg as ->. left. left.
      * rewrite dict_get_set_ne in Hg by assumption. right. assumption.
    + intros Hor. apply H2.
      destruct (decide (k1 = k)) as [->|Hne].
      * right. rewrite dict_get_set_eq. eauto.
      * rewrite dict_get_set_ne by assumption.
        destruct Hor as [Hin|Hs]; [|right; assumption].
        rewrite fmap_cons in Hin. apply elem_of_cons in Hin as [Heq|Hin]; [|left; assumption].
        cbn in Heq. congruence.
Qed.

(** The dispatcher after the window of [key] was closed. *)
Definition dismissed (d : Dispatcher) (key : okey)
    (buf : list (okey * list entry)) : Dispatcher :=
  let d1 := set_msg_buffer (Some (dict_del key buf)) d in
  if shuffle d1 then next_rng d1 else d1.

(** [em] is an emit of one of the candidates [cands]: its payload is the
    message of a candidate, its topic the routing key of a candidate
    with the same identity, and under a scalar score no candidate
    scores higher. *)
Definition candidate_emitted (sc : score_code_t)
    (lam : option (message -> message -> outcome message))
    (cands : list entry) (em : string * payload) : Prop :=
  exists win,
    win ∈ cands /\ em.2 = content (e_msg win) /\
    (exists e', e' ∈ cands /\ msg_id (e_msg e') = msg_id (e_msg win) /\
                em.1 = e_routing_key e') /\
    (forall score, sc = ScoreCode score -> lam = None ->
       forall e, e ∈ cands -> score_le score (e_msg e) (e_msg win)).

Lemma dismiss_compete d now key buf cands :
  msg_buffer d = Some buf -> dict_get key buf = Some cands -> cands <> [] ->
  score_code d <> ScoreCodeNone -> selective d ->
  exists evs r,
    _dismiss_active_key d now key = (evs, r) /\
    ((emits evs = [] /\ exists x, r = Raise x) \/
     (exists em, emits evs = [em] /\
        candidate_emitted (score_code d) (compare_lambda d) cands em /\
        forall d', r = Ok d' -> d' = dismissed d key buf)).
Proof.
  intros Hbuf Hget Hne Hsc Hsel. unfold _dismiss_active_key.
  rewrite Hbuf, Hget.
  destruct cands as [|c cs]; [congruence|].
  cbn [default from_option id]. cbv iota beta.
  set (cands := c :: cs) in *.
  set (d1 := set_msg_buffer (Some (dict_del key buf)) d).
  destruct (choose_msg_spec d1 (e_msg <$> cands) Hsc Hsel) as (Hev & Hok & _).
  destruct (choose_msg d1 (e_msg <$> cands)) as [cevs [winner|x]]; cbn [fst snd] in *.
  - destruct (Hok winner eq_refl) as [Hin Hmax].
    apply list_elem_of_fmap in Hin as (win & Hwin & Hinw).
    set (pairs := (fun e => (msg_id (e_msg e), (e_host e, e_routing_key e))) <$> cands).
    destruct (dict_of_pairs_acc pairs [] (msg_id winner)) as [Hlut1 Hlut2].
    destruct Hlut2 as [[host rk] Hlut].
    { left. unfold pairs. rewrite <- list_fmap_compose.
      apply list_elem_of_fmap. exists win. split; [|assumption].
      cbn. congruence. }
    rewrite act_bind_ok. cbn beta. unfold dict_of_pairs. fold pairs. rewrite Hlut.
    pose proof (emits_emit (if shuffle d1 then next_rng d1 else d1) now rk (content winner)) as Hem.
    destruct (emit (if shuffle d1 then next_rng d1 else d1) now rk (content winner))
      as [eevs er] eqn:Eemit.
    eexists _, _. split.
    { unfold mret, act_ret, mbind, act_bind. cbn [fst snd]. reflexivity. }
    right. exists (rk, content winner). cbn [fst] in Hem. split; [|split].
    + destruct er as [[]|y]; cbn [fst]; rewrite ?app_nil_r, emits_app, Hev, Hem; reflexivity.
    + exists win. split; [assumption|]. split; [cbn; congruence|]. split.
      * apply Hlut1 in Hlut as [Hin|Hnil]; [|discriminate].
        unfold pairs in Hin. apply list_elem_of_fmap in Hin as (e' & Heq & Hin').
        injection Heq as Hid _ Hrk. exists e'. split; [assumption|].
        split; [congruence|assumption].
      * intros score Hs Hl e He. rewrite <- Hwin.
        apply (Hmax score Hs Hl). apply list_elem_of_fmap. exists e. auto.
    + intros d' Hd'. destruct er as [[]|y]; cbn [snd] in Hd'; [|discriminate].
      injection Hd' as <-. reflexivity.
  - eexists _, _. split; [reflexivity|]. left. split; [assumption|eauto].
Qed.

(** **** Compete mode: closing windows *)

(** A dispatcher in Compete mode, with horizon [h], open windows [ak]
    and buffered candidates [buf]: every open window has candidates. *)
Record compete_inv (d : Dispatcher) (code : expr okey) (h : Z)
    (ak : list (okey * Z)) (buf : list (okey * list entry)) : Prop := {
  ci_key : key_code d = Some code;
  ci_score : score_code d <> ScoreCodeNone;
  ci_select : selective d;
  ci_horizon : horizon d = Some h;
  ci_active : active_keys d = Some ak;
  ci_buffer : msg_buffer d = Some buf;
  ci_nodup : NoDup ak.*1;
  ci_cands : forall k, k ∈ ak.*1 ->
             exists cands, dict_get k buf = Some cands /\ cands <> []
}.

(** [d] differs from [d0] in its buffer and generator only. *)
Definition frame (d0 d : Dispatcher) : Prop :=
  key_code d = key_code d0 /\ score_code d = score_code d0 /\
  compare_lambda d = compare_lambda d0 /\ horizon d = horizon d0 /\
  active_keys d = active_keys d0.

(** [em] is the emit made for the window of [k]: one of the candidates
    that [buf0] holds for [k]. *)
Definition window_emit (d0 : Dispatcher) (buf0 : list (okey * list entry))
    (k : okey) (em : string * payload) : Prop :=
  exists cands,
    dict_get k buf0 = Some cands /\
    candidate_emitted (score_code d0) (compare_lambda d0) cands em.

Lemma frame_dismissed d0 d key buf :
  frame d0 d ->
  frame d0 (dismissed d key buf) /\
  msg_buffer (dismissed d key buf) = Some (dict_del key buf).
Proof.
  intros (H1 & H2 & H3 & H4 & H5). unfold dismissed, frame.
  cbn zeta. destruct (shuffle _); cbn; auto 10.
Qed.


Lemma clean_loop_compete d0 h buf0 now :
  score_code d0 <> ScoreCodeNone -> selective d0 -> horizon d0 = Some h ->
  forall items d delset buf,
    frame d0 d -> msg_buffer d = Some buf -> NoDup items.*1 ->
    (forall k, k ∈ items.*1 ->
       exists cands, dict_get k buf = Some cands /\ cands <> [] /\
                     dict_get k buf0 = Some cands) ->
    exists evs r n,
      clean_loop d now items delset = (evs, r) /\
      Forall2 (window_emit d0 buf0) (take n (expired_keys h now items)) (emits evs) /\
      forall d' delset', r = Ok (d', delset') ->
        n = length (expired_keys h now items) /\
        delset' = delset ++ expired_keys h now items /\
        frame d0 d' /\
        msg_buffer d' =
          Some (foldl (fun b k => dict_del k b) buf (expired_keys h now items)).
Proof.
  intros Hsc Hsel Hh.
  induction items as [|[key when] items IH]; intros d delset buf Hfr Hbuf Hnd Hc.
  - exists [], (Ok (d, delset)), 0%nat. split; [reflexivity|].
    split; [constructor|]. intros d' delset' [= <- <-].
    unfold expired_keys. rewrite filter_nil, fmap_nil, app_nil_r. auto.
  - rewrite fmap_cons in Hnd. apply NoDup_cons in Hnd as [Hkey Hnd]. cbn [fst] in Hkey.
    assert (Hfr' := Hfr). destruct Hfr' as (F1 & F2 & F3 & F4 & F5).
    cbn [clean_loop]. rewrite F4, Hh.
    unfold expired_keys. rewrite filter_cons.
    destruct (Z.ltb_spec (when + h) now) as [Hlt|Hge].
    + rewrite decide_True by exact Hlt. rewrite fmap_cons. cbn [fst].
      fold (expired_keys h now items).
      destruct (Hc key) as (cands & Hget & Hne & Hget0); [left|].
      destruct (dismiss_compete d now key buf cands Hbuf Hget Hne) as (evs1 & r1 & Hd & Hcase).
      { congruence. }
      { unfold selective in *. rewrite F3. exact Hsel. }
      rewrite Hd.
      destruct Hcase as [[Hem [x ->]]|(em & Hem & Hcand & Hok)].
      * exists evs1, (Raise x), 0%nat. split; [reflexivity|].
        rewrite Hem. split; [constructor|discriminate].
      * assert (Hw : window_emit d0 buf0 key em).
        { exists cands. split; [assumption|]. rewrite <- F2, <- F3. assumption. }
        destruct r1 as [d1|x].
        -- rewrite (Hok d1 eq_refl).
           destruct (frame_dismissed d0 d key buf Hfr) as [Hfr1 Hbuf1].
           destruct (IH (dismissed d key buf) (delset ++ [key]) (dict_del key buf)
                       Hfr1 Hbuf1 Hnd) as (evs2 & r2 & n2 & Hl & Hf & Hr).
           { intros k Hk. destruct (Hc k) as (ck & G1 & G2 & G3); [right; assumption|].
             exists ck. rewrite dict_get_del.
             destruct (decide (k = key)) as [->|_]; [contradiction|]. auto. }
           exists (evs1 ++ evs2), r2, (S n2). split.
           { rewrite act_bind_ok. rewrite Hl. reflexivity. }
           split.
           { rewrite emits_app, Hem. cbn [take app]. constructor; assumption. }
           intros d' delset' ->. destruct (Hr d' delset' eq_refl) as (R1 & R2 & R3 & R4).
           split; [cbn; congruence|]. split; [rewrite R2, <- app_assoc; reflexivity|].
           split; [assumption|]. rewrite R4. reflexivity.
        -- exists evs1, (Raise x), 1%nat. split; [reflexivity|].
           rewrite Hem. split; [|discriminate].
           cbn [take]. rewrite take_0. repeat constructor. assumption.
    + rewrite decide_False by (unfold expired; cbn [snd]; lia).
      fold (expired_keys h now items).
      apply IH; try assumption.
      intros k Hk. apply Hc. right. assumption.
Qed.

Lemma foldl_del_keys {K V : Type} `{EqDecision K} (ks : list K)
    (d : list (K * V)) (k : K) :
  k ∈ (foldl (fun d key => dict_del key d) d ks).*1 -> k ∈ d.*1 /\ k ∉ ks.
Proof.
  intros Hin.
  destruct (dict_get k (foldl (fun d key => dict_del key d) d ks)) as [v|] eqn:Hg.
  - rewrite dict_get_foldl_del in Hg.
    destruct (decide (k ∈ ks)); [discriminate|]. split; [|assumption].
    destruct (decide (k ∈ d.*1)) as [|Hn]; [assumption|].
    apply dict_get_None_keys in Hn. congruence.
  - apply dict_get_None_keys in Hg. contradiction.
Qed.

Lemma clean_expired_compete d code h ak buf now :
  compete_inv d code h ak buf ->
  exists evs r n,
    _clean_expired d now = (evs, r) /\
    Forall2 (window_emit d buf) (take n (expired_keys h now ak)) (emits evs) /\
    forall d', r = Ok d' ->
      n = length (expired_keys h now ak) /\
      compete_inv d' code h (cleaned h now ak)
        (foldl (fun b k => dict_del k b) buf (expired_keys h now ak)).
Proof.
  intros [Hk Hs Hsel Hh Ha Hb Hn Hc]. unfold _clean_expired. rewrite Ha.
  destruct (clean_loop_compete d h buf now Hs Hsel Hh ak d [] buf)
    as (evs & r & n & Hl & Hf & Hr); try assumption.
  { unfold frame. auto. }
  { intros k Hin. destruct (Hc k Hin) as (cands & H1 & H2). eauto. }
  rewrite Hl. destruct r as [[d1 delset]|x].
  - destruct (Hr d1 delset eq_refl) as (R1 & R2 & (F1 & F2 & F3 & F4 & F5) & R4).
    cbn [app] in R2. subst delset.
    eexists _, _, n. split; [reflexivity|]. cbn [fst]. rewrite app_nil_r.
    split; [assumption|]. intros d' [= <-]. split; [assumption|].
    constructor; unfold set_active_keys; cbn.
    + congruence.
    + congruence.
    + unfold selective in *. cbn. rewrite F3. assumption.
    + congruence.
    + reflexivity.
    + assumption.
    + apply cleaned_nodup. assumption.
    + intros k Hin. apply foldl_del_keys in Hin as [Hin Hnex].
      destruct (Hc k Hin) as (cands & H1 & H2). exists cands.
      rewrite dict_get_foldl_del. rewrite decide_False by assumption. auto.
  - eexists _, _, n. split; [reflexivity|]. split; [assumption|discriminate].
Qed.

Lemma dispatch_compete_inv d code h ak buf e :
  compete_inv d code h ak buf ->
  exists evs d',
    _dispatch_compete d e = (evs, Ok d') /\ emits evs = [] /\
    exists ak' buf', compete_inv d' code h ak' buf'.
Proof.
  intros [Hk Hs Hsel Hh Ha Hb Hn Hc]. unfold _dispatch_compete.
  destruct (key_for_msg_key_of d code (content (e_msg e)) Hk) as [Hkey Hkev].
  destruct (key_for_msg d (content (e_msg e))) as [kevs kr].
  cbn [fst snd] in Hkey, Hkev. subst kr.
  rewrite act_bind_ok, Ha, Hb. cbn [fst snd mret act_ret].
  set (key := key_of code (content (e_msg e))).
  set (ak' := if dict_mem key ak then ak else dict_set key (e_when e) ak).
  set (buf' := dict_set key (default [] (dict_get key buf) ++ [e]) buf).
  eexists _, _. split; [reflexivity|]. rewrite app_nil_r. split; [assumption|].
  exists ak', buf'.
  assert (Hkeys : forall k, k ∈ ak'.*1 -> k = key \/ k ∈ ak.*1).
  { intros k Hin. unfold ak' in Hin. destruct (dict_mem key ak) eqn:Hm; [auto|].
    apply dict_mem_get in Hm. rewrite dict_set_keys in Hin by assumption.
    apply elem_of_app in Hin as [Hin|Hin]; [auto|].
    apply list_elem_of_singleton in Hin. auto. }
  constructor; unfold set_msg_buffer, set_active_keys; cbn; try assumption; try reflexivity.
  - unfold ak'. destruct (dict_mem key ak) eqn:Hm; [assumption|].
    apply dict_set_nodup; [|assumption]. apply dict_mem_get. assumption.
  - intros k Hin. unfold buf'.
    destruct (decide (key = k)) as [<-|Hne].
    + rewrite dict_get_set_eq. eexists. split; [reflexivity|].
      destruct (default [] (dict_get key buf)); discriminate.
    + rewrite dict_get_set_ne by assumption.
      apply Hc. destruct (Hkeys k Hin) as [->|]; [congruence|assumption].
Qed.


End Dispatcher.

(** *** The two main loops: [multi_main] and [single_main] *)

Section Main.
Context {Key : Type} `{EqDecision Key}.
Variable isoformat : Z -> string.
Variable random_shuffle : nat -> list message -> list message.

Definition SECOND : Z := 1000000.

(** What comes to the main loop, with the time it comes at: a message
    ([queue.get] returns it, or the broker delivers it), a body that is
    not JSON (single broker), the end of a bounded wait on the queue
    (several brokers), or an interrupt from the keyboard. *)
Inductive arrival : Type :=
| Message (now : Z) (e : entry)
| BadBody (now : Z)
| QueueEmpty (now : Z)
| CtrlC (now : Z).

Definition arrival_time (a : arrival) : Z :=
  match a with
  | Message now _ | BadBody now | QueueEmpty now | CtrlC now => now
  end.

(** How the process ends: [sys.exit(rc)], an exception that nothing
    catches, or not at all. *)
Inductive ending : Type :=
| Exit (rc : Z)
| Crash (x : exn)
| Running.

(** The pending alarm, as the time it is due at, after the calls of
    [alarm] among [evs], made at [now]. *)
Definition rearm (now : Z) (pending : option Z) (evs : list event) : option Z :=
  foldl (fun p ev => match ev with
                     | Alarm n => if bool_decide (n = 0) then None
                                  else Some (now + n * SECOND)
                     | _ => p
                     end) pending evs.

Definition due (pending : option Z) (now : Z) : bool :=
  match pending with
  | Some t => bool_decide (t <= now)
  | None => false
  end.

(** [handle_timeout] *)
Definition handle_timeout : list event * option exn :=
  ([LogError "timeout"], Some TimeoutException).

(** The [while] loop of [multi_main]: the events, and the exception that
    ends the loop, if one does. The alarm goes off while the loop waits. *)
Fixpoint multi_loop (dispatch : Dispatcher (Key := Key)) (pending : option Z)
    (arrivals : list arrival) : list event * option exn :=
  match arrivals with
  | [] => match pending with
          | Some _ => handle_timeout
          | None => ([], None)
          end
  | a :: rest =>
      if due pending (arrival_time a) then handle_timeout
      else
        match a with
        | CtrlC _ => ([], Some KeyboardInterrupt)
        | BadBody _ => multi_loop dispatch pending rest
        | Message now _ | QueueEmpty now =>
            let arg := match a with Message _ e => Some e | _ => None end in
            let r := Dispatcher_call isoformat random_shuffle dispatch now arg in
            match r.2 with
            | Ok (dispatch', _) =>
                let k := multi_loop dispatch' (rearm now pending r.1) rest in
                (r.1 ++ k.1, k.2)
            | Raise x => (r.1, Some x)
            end
        end
  end.

Definition first_alarm (opts : options (Key := Key)) (start : Z) : option Z :=
  if bool_decide (opt_timeout opts = 0) then None
  else Some (start + opt_timeout opts * SECOND).

(** [multi_main], started at [start] *)
Definition multi_main (opts : options) (start : Z) (arrivals : list arrival)
  : list event * ending :=
  let transforms := mkTransforms (opt_transforms opts) in
  let dispatch := Dispatcher_init (Some transforms) opts ∅ in
  let r := multi_loop dispatch (first_alarm opts start) arrivals in
  match r.2 with
  | Some KeyboardInterrupt =>
      (r.1 ++ [LogWarning "keyboard interrupt, exiting"], Exit 0)
  | Some TimeoutException =>
      (r.1 ++ [LogWarning "timeout due to no messages emitted, exiting"], Exit 2)
  | Some x => (r.1, Crash x)
  | None => (r.1, Running)
  end.

(** [session.consume] with the callback of [single_main]: for each
    delivery, [acknowledge_after_callback_wrapper] calls [dispatch.emit]
    and then re-arms the alarm. *)
Fixpoint consume (dispatch : Dispatcher (Key := Key)) (timeout : Z)
    (pending : option Z) (arrivals : list arrival) : list event * option exn :=
  match arrivals with
  | [] => match pending with
          | Some _ => handle_timeout
          | None => ([], None)
          end
  | a :: rest =>
      if due pending (arrival_time a) then handle_timeout
      else
        let after now p :=
          if bool_decide (timeout = 0) then p else Some (now + timeout * SECOND) in
        match a with
        | CtrlC _ => ([LogWarning "keyboard interrupt"], Some KeyboardInterrupt)
        | QueueEmpty _ => consume dispatch timeout pending rest
        | BadBody now =>
            let k := consume dispatch timeout (after now pending) rest in
            (LogError "ignoring message: unable to deserialize JSON dictionary" :: k.1,
             k.2)
        | Message now e =>
            let r := emit isoformat dispatch now (e_routing_key e) (content (e_msg e)) in
            match r.2 with
            | Ok _ =>
                let k := consume dispatch timeout
                           (after now (rearm now pending r.1)) rest in
                (r.1 ++ k.1, k.2)
            | Raise x => (r.1, Some x)
            end
        end
  end.

(** [single_main] *)
Definition single_main (host : string) (opts : options) (start : Z)
    (arrivals : list arrival) : list event * ending :=
  let transforms := mkTransforms (opt_transforms opts) in
  let extra_defaults : payload := {[ "__reception_host__" := VStr host ]} in
  let dispatch := Dispatcher_init (Some transforms) opts extra_defaults in
  let r := consume dispatch (opt_timeout opts) (first_alarm opts start) arrivals in
  match r.2 with
  | Some KeyboardInterrupt =>
      (r.1 ++ [LogWarning "keyboard interrupt, exiting"], Exit 0)
  | Some TimeoutException =>
      (r.1 ++ [LogWarning "timeout due to no messages emitted, exiting"], Exit 1)
  | Some x => (r.1, Crash x)
  | None => (r.1, Exit 0)
  end.

(** The end of [main], for the hosts given with [-H]: one host is the
    classical configuration, which refuses the key, window and score
    options. *)
Definition main (hosts : list string) (opts : options) (start : Z)
    (arrivals : list arrival) : list event * ending :=
  match hosts with
  | [host] =>
      if bool_decide (is_Some (opt_key opts)) || bool_decide (is_Some (opt_score opts))
         || match opt_window opts with
            | Some w => negb (bool_decide (w = 0))
            | None => false
            end
      then ([LogError "Key, Window, and Score options require multiple servers to operate"],
            Exit 1)
      else single_main host opts start arrivals
  | _ => multi_main opts start arrivals
  end.

(** **** Properties of the main loops *)

(** When nothing comes before the first alarm is due, [multi_main]
    returns 2 and [single_main] returns 1. *)
Lemma idle_timeout_exit (host : string) (opts : options) (start : Z)
    (arrivals : list arrival) :
  opt_timeout opts <> 0 ->
  Forall (fun a => start + opt_timeout opts * SECOND <= arrival_time a) arrivals ->
  (multi_main opts start arrivals).2 = Exit 2 /\
  (single_main host opts start arrivals).2 = Exit 1.
Proof.
  intros Ht Hall. unfold multi_main, single_main, first_alarm.
  rewrite bool_decide_eq_false_2 by assumption.
  destruct arrivals as [|a rest]; [split; reflexivity|].
  apply Forall_cons in Hall as [Ha _].
  cbn [multi_loop consume due]. rewrite bool_decide_eq_true_2 by assumption.
  split; reflexivity.
Qed.

End Main.

(** An expression that raises on every message. *)
Definition failing {A : Type} (tag : string) : expr A := fun _ => Raise (UserError tag).

Definition no_options : options (Key := unit) :=
  mkOptions 0 None None None None None [].

Definition iso_stub (t : Z) : string := "2025-01-02T03:04:05".

(** C3, as stated, fails. With the transforms [a = <raises>] and
    [b = 1], [emit] raises what the first expression raised: nothing is
    logged, the second expression changes nothing, nothing is written. *)
Lemma emit_failing_transform_counterexample :
  emit iso_stub
    (Dispatcher_init
       (Some (mkTransforms [("a", failing "boom"); ("b", fun _ => Ok (VInt 1))]))
       no_options ∅)
    0 "topic" ∅
  = ([Emitting "topic" ∅], Raise (UserError "boom")).
Proof. vm_compute. reflexivity. Qed.

Lemma emit_transform_exception_propagates_witness :
  emit iso_stub
    (Dispatcher_init
       (Some (mkTransforms ([] ++ ("a", failing "boom") :: [("b", fun _ => Ok (VInt 1))])))
       no_options ∅)
    0 "topic" ∅
  = (emit_prelude
       (Dispatcher_init
          (Some (mkTransforms ([] ++ ("a", failing "boom") :: [("b", fun _ => Ok (VInt 1))])))
          no_options ∅)
       "topic" ∅,
     Raise (UserError "boom")).
Proof.
  apply (emit_transform_exception_propagates iso_stub _ 0 "topic" ∅
           [] "a" (failing "boom") [("b", fun _ => Ok (VInt 1))] (UserError "boom")).
  - reflexivity.
  - intros kc Hin. inversion Hin.
  - reflexivity.
Defined.

(** A Race configuration whose key expression raises on every message:
    window 5 s. *)
Definition failing_key_options : options (Key := unit) :=
  mkOptions 0 (Some (failing "AttributeError")) None None (Some 5000000) None [].

Definition failing_key_dispatcher : Dispatcher (Key := unit) :=
  Dispatcher_init (Some (mkTransforms [])) failing_key_options ∅.

Definition no_shuffle (seed : nat) (l : list message) : list message := l.

Definition event_1 : entry :=
  mkEntry 0 "broker-a" "rk" (mkMessage 1 {[ "n" := VInt 1 ]}).
Definition event_2 : entry :=
  mkEntry 1000000 "broker-b" "rk" (mkMessage 2 {[ "n" := VInt 2 ]}).

(** C4, as stated, fails. Two events whose key evaluation raises, one
    second apart, window 5 s: the first is emitted, the second is not. *)
Lemma race_key_error_dropped_counterexample :
  emits <$> (run iso_stub no_shuffle failing_key_dispatcher
               [mkCall 0 (Some event_1); mkCall 1000000 (Some event_2)]).1
  = [[("rk", {[ "n" := VInt 1 ]})]; []].
Proof. vm_compute. reflexivity. Qed.

Lemma race_key_error_uses_none_key_witness :
  (key_for_msg failing_key_dispatcher (content (e_msg event_1))).2 = Ok None /\
  (dict_mem (None : option unit) ([] : list (option unit * Z)) = true ->
     _dispatch_race iso_stub failing_key_dispatcher 0 event_1
       = ([LogError "could not evaluate key"], Ok failing_key_dispatcher)) /\
  (dict_mem (None : option unit) ([] : list (option unit * Z)) = false ->
     _dispatch_race iso_stub failing_key_dispatcher 0 event_1 =
       (LogError "could not evaluate key"
          :: (emit iso_stub failing_key_dispatcher 0 (e_routing_key event_1)
                (content (e_msg event_1))).1,
        match (emit iso_stub failing_key_dispatcher 0 (e_routing_key event_1)
                 (content (e_msg event_1))).2 with
        | Ok _ => Ok (set_active_keys (Some (dict_set None (e_when event_1) []))
                        failing_key_dispatcher)
        | Raise y => Raise y
        end)).
Proof.
  apply (race_key_error_uses_none_key iso_stub failing_key_dispatcher 0 event_1
           (failing "AttributeError") (UserError "AttributeError") []);
    reflexivity.
Defined.

(** Scenario S1: key [sat], window 1 s, three events with the key [G16]
    at 0 s, 0.4 s and 1.2 s. *)
Definition sat_key : expr (option string) := fun msg =>
  match msg !! "sat" with
  | Some (VStr s) => Ok (Some s)
  | Some _ => Raise TypeError
  | None => Ok None
  end.

Definition S1_dispatcher : Dispatcher (Key := string) :=
  Dispatcher_init (Some (mkTransforms []))
    (mkOptions 0 (Some sat_key) None None (Some 1000000) None []) ∅.

Definition S1_event (n : nat) (when : Z) (host : string) : entry :=
  mkEntry when host "geo.g16"
    (mkMessage n {[ "sat" := VStr "G16"; "t" := VInt (Z.of_nat n) ]}).

Definition S1_calls : list call :=
  [ mkCall 0 (Some (S1_event 1 0 "broker-a"));
    mkCall 400000 (Some (S1_event 2 400000 "broker-b"));
    mkCall 1200000 (Some (S1_event 3 1200000 "broker-a")) ].

Example race_S1 :
  (fun evs => (fun tm : string * payload => tm.2 !! "t") <$> emits evs)
    <$> (run iso_stub no_shuffle S1_dispatcher S1_calls).1
  = [[Some (VInt 1)]; []; [Some (VInt 3)]].
Proof. vm_compute. reflexivity. Qed.

Lemma race_window_witness :
  race_inv S1_dispatcher sat_key 1000000 [] /\
  race_step_spec iso_stub no_shuffle sat_key 1000000 /\
  e_when (S1_event 1 0 "broker-a") + 1000000
    < c_now (mkCall 1200000 (Some (S1_event 3 1200000 "broker-a"))).
Proof.
  apply (race_window iso_stub no_shuffle 0 sat_key None (Some 1000000) None []
           (Some (mkTransforms [])) ∅ S1_calls 0 2
           (mkCall 0 (Some (S1_event 1 0 "broker-a")))
           (mkCall 1200000 (Some (S1_event 3 1200000 "broker-a")))
           (S1_event 1 0 "broker-a") (S1_event 3 1200000 "broker-a")
           (default [] ((run iso_stub no_shuffle S1_dispatcher S1_calls).1 !! 0%nat))
           (default [] ((run iso_stub no_shuffle S1_dispatcher S1_calls).1 !! 2%nat))).
  - cbn. repeat constructor; lia.
  - lia.
  - reflexivity.
  - reflexivity.
  - reflexivity.
  - reflexivity.
  - vm_compute. reflexivity.
  - vm_compute. reflexivity.
  - vm_compute. discriminate.
  - vm_compute. discriminate.
  - reflexivity.
Defined.

(** C2, as stated, fails. Two events with the key [G16], received by the
    workers at 0 s and 0.1 s, wait in the queue and reach the dispatcher
    at 5 s and 5.1 s. The window is 1 s. The first event is emitted and
    opens a window at its reception time, 0 s; at 5.1 s that window is
    over, so the second event is emitted too: two emits with the same
    key, 0.1 s apart on the dispatcher's clock and by their reception
    times. *)
Definition backlog_calls : list call :=
  [ mkCall 5000000 (Some (S1_event 1 0 "broker-a"));
    mkCall 5100000 (Some (S1_event 2 100000 "broker-b")) ].

Lemma race_backlog_counterexample :
  (fun evs => (fun tm : string * payload => tm.2 !! "t") <$> emits evs)
    <$> (run iso_stub no_shuffle S1_dispatcher backlog_calls).1
  = [[Some (VInt 1)]; [Some (VInt 2)]] /\
  sat_key (content (e_msg (S1_event 1 0 "broker-a")))
  = sat_key (content (e_msg (S1_event 2 100000 "broker-b"))) /\
  horizon S1_dispatcher = Some 1000000 /\
  5100000 - 5000000 < 1000000 /\
  e_when (S1_event 2 100000 "broker-b") - e_when (S1_event 1 0 "broker-a") < 1000000.
Proof. vm_compute. repeat split; reflexivity. Qed.

(** Scenarios S2 and S3: key [sat], window 1 s, candidates with 5, 7 and
    6 defects, then a cleanup call after the window. *)
Definition defects : expr (option Z) := fun msg =>
  match msg !! "defects" with
  | Some (VInt z) => Ok (Some z)
  | Some VNone => Ok None
  | _ => Raise (UserError "NameError")
  end.

Definition fewer_defects (a b : message) : outcome message :=
  match content a !! "defects", content b !! "defects" with
  | Some (VInt x), Some (VInt y) => Ok (if x <? y then a else b)
  | _, _ => Raise KeyError
  end.

Definition S2_dispatcher (sc : score_option) : Dispatcher (Key := string) :=
  Dispatcher_init (Some (mkTransforms []))
    (mkOptions 0 (Some sat_key) (Some sc) None (Some 1000000) None []) ∅.

Definition S2_event (n : nat) (when : Z) (d : Z) : entry :=
  mkEntry when "broker" "geo.g16"
    (mkMessage n {[ "sat" := VStr "G16"; "defects" := VInt d ]}).

Definition S2_calls : list call :=
  [ mkCall 0 (Some (S2_event 1 0 5));
    mkCall 300000 (Some (S2_event 2 300000 7));
    mkCall 600000 (Some (S2_event 3 600000 6));
    mkCall 1100000 None ].

Definition reversing (seed : nat) (l : list message) : list message := reverse l.

Example compete_S2 :
  (fun evs => (fun tm : string * payload => tm.2 !! "defects") <$> emits evs)
    <$> (run iso_stub reversing (S2_dispatcher (ScoreExpr defects)) S2_calls).1
  = [[]; []; []; [Some (VInt 7)]].
Proof. vm_compute. reflexivity. Qed.

Example compete_S3 :
  (fun evs => (fun tm : string * payload => tm.2 !! "defects") <$> emits evs)
    <$> (run iso_stub no_shuffle (S2_dispatcher (ScoreLambda fewer_defects)) S2_calls).1
  = [[]; []; []; [Some (VInt 5)]].
Proof. vm_compute. reflexivity. Qed.

(** The option [-t 10] alone. *)
Definition timeout_10_options : options (Key := unit) :=
  mkOptions 10 None None None None None [].

(** C6, on the code. With [-t 10] and nothing arriving, the alarm set at
    the start goes off after 10 s: with two hosts [main] returns 2, with
    one host it returns 1. The same holds when the first message comes
    after 11 s. *)
Theorem idle_timeout_exit_status :
  (main iso_stub no_shuffle ["mq1"; "mq2"] timeout_10_options 0 []).2 = Exit 2 /\
  (main iso_stub no_shuffle ["mq1"] timeout_10_options 0 []).2 = Exit 1 /\
  (main iso_stub no_shuffle ["mq1"; "mq2"] timeout_10_options 0
     [Message (11 * SECOND) event_1]).2 = Exit 2 /\
  (main iso_stub no_shuffle ["mq1"] timeout_10_options 0
     [Message (11 * SECOND) event_1]).2 = Exit 1.
Proof. vm_compute. repeat split; reflexivity. Qed.

End Amqpfind.

(** ** More on the ingest parser: [sat_latency/pipeline/extract.py] *)

Module IngestFacts.
Import Ingest.

(** A byte that ends a field: the separator or a newline. *)
Definition terminator (b : byte) : bool :=
  Byte.eqb b INGEST_SEPARATOR || Byte.eqb b NEWLINE.

(** What [fields_from_line] yields for the bytes of a field. *)
Definition field_value (f : list byte) : option (list byte) :=
  if bool_decide (f = []) || bytes_eqb f AMQPFIND_MISSING then None else Some f.

(** A line written field by field, every field followed by its
    terminator. *)
Definition encode_fields (fs : list (list byte * byte)) : list byte :=
  concat ((fun ft => ft.1 ++ [ft.2]) <$> fs).

Lemma read_at_middle (pre f rest : list byte) :
  read_at (pre ++ f ++ rest) (length f) (length pre) = f.
Proof.
  unfold read_at. rewrite drop_app_length. apply take_app_length.
Qed.

(** Reading one field: [f0] is the part of it already counted in
    [p_size]. *)
Lemma fields_loop_field (f : list byte) : forall (pre f0 : list byte) t rest,
  Forall (fun b => terminator b = false) f -> terminator t = true ->
  fields_loop (pre ++ (f0 ++ f) ++ t :: rest) (f ++ t :: rest)
    (length pre) (length f0)
  = field_value (f0 ++ f)
    :: fields_loop (pre ++ (f0 ++ f) ++ t :: rest) rest
         (length pre + length (f0 ++ f) + 1)%nat 0%nat.
Proof.
  induction f as [|b f IH]; intros pre f0 t rest Hf Ht.
  - rewrite app_nil_r. cbn [app fields_loop].
    unfold terminator in Ht. rewrite Ht.
    rewrite read_at_middle. reflexivity.
  - apply Forall_cons in Hf as [Hb Hf].
    cbn [app fields_loop]. unfold terminator in Hb. rewrite Hb.
    specialize (IH pre (f0 ++ [b]) t rest Hf Ht).
    rewrite length_app in IH. cbn [length] in IH.
    rewrite Nat.add_1_r in IH.
    rewrite <- (app_assoc f0 [b] f) in IH. cbn [app] in IH.
    exact IH.
Qed.

Lemma fields_loop_tail (line tail : list byte) : forall p_index p_size,
  Forall (fun b => terminator b = false) tail ->
  fields_loop line tail p_index p_size = [].
Proof.
  induction tail as [|b tail IH]; intros p_index p_size Ht; [reflexivity|].
  apply Forall_cons in Ht as [Hb Ht]. cbn [fields_loop].
  unfold terminator in Hb. rewrite Hb. apply IH. exact Ht.
Qed.

Lemma fields_loop_encoded (fs : list (list byte * byte)) :
  forall (pre tail : list byte),
  Forall (fun ft => Forall (fun b => terminator b = false) ft.1 /\
                    terminator ft.2 = true) fs ->
  Forall (fun b => terminator b = false) tail ->
  fields_loop (pre ++ encode_fields fs ++ tail) (encode_fields fs ++ tail)
    (length pre) 0%nat
  = field_value <$> fs.*1.
Proof.
  induction fs as [|[f t] fs IH]; intros pre tail Hfs Htail.
  - cbn. apply fields_loop_tail. exact Htail.
  - apply Forall_cons in Hfs as [[Hf Ht] Hfs]. cbn [fst snd] in Hf, Ht.
    unfold encode_fields. rewrite !fmap_cons. cbn [concat fst snd].
    fold (encode_fields fs).
    rewrite <- !app_assoc. cbn [app].
    pose proof (fields_loop_field f pre [] t (encode_fields fs ++ tail) Hf Ht) as H1.
    cbn [app length] in H1. rewrite H1. f_equal.
    specialize (IH (pre ++ f ++ [t]) tail Hfs Htail).
    rewrite !length_app in IH. cbn [length] in IH.
    rewrite <- !app_assoc in IH. cbn [app] in IH.
    rewrite Nat.add_assoc in IH. exact IH.
Qed.

(** X1. Decoding what was encoded: a line made of fields that hold no
    separator and no newline, each followed by a separator or a newline,
    is read back field by field; an empty field and the field
    [?UNKNOWN?] are read as null. Bytes after the last terminator (the
    end of a last line that has no newline) belong to no field. *)
Theorem fields_from_line_decodes (fs : list (list byte * byte)) (tail : list byte) :
  Forall (fun ft => Forall (fun b => terminator b = false) ft.1 /\
                    terminator ft.2 = true) fs ->
  Forall (fun b => terminator b = false) tail ->
  fields_from_line (encode_fields fs ++ tail) = field_value <$> fs.*1.
Proof.
  intros Hfs Htail. unfold fields_from_line.
  apply (fields_loop_encoded fs [] tail Hfs Htail).
Qed.

Lemma fields_from_line_decodes_witness :
  fields_from_line
    (encode_fields [ (bytes "geo.g16", INGEST_SEPARATOR); (bytes "", INGEST_SEPARATOR);
                     (bytes "?UNKNOWN?", INGEST_SEPARATOR); (bytes "G16", NEWLINE) ]
     ++ bytes "rest")
  = field_value <$> [ bytes "geo.g16"; bytes ""; bytes "?UNKNOWN?"; bytes "G16" ].
Proof.
  apply (fields_from_line_decodes
           [ (bytes "geo.g16", INGEST_SEPARATOR); (bytes "", INGEST_SEPARATOR);
             (bytes "?UNKNOWN?", INGEST_SEPARATOR); (bytes "G16", NEWLINE) ]
           (bytes "rest")).
  - repeat (constructor || split).
  - repeat constructor.
Defined.

(** *** Lines of the input *)

Lemma readlines_from_concat (source : list byte) : forall cur,
  concat (readlines_from cur source) = rev cur ++ source.
Proof.
  induction source as [|b source IH]; intros cur; cbn [readlines_from].
  - destruct cur as [|c cur]; [reflexivity|].
    cbn [concat]. rewrite !app_nil_r. reflexivity.
  - destruct (Byte.eqb b NEWLINE).
    + cbn [concat]. rewrite (IH []). cbn [rev app].
      rewrite <- app_assoc. reflexivity.
    + rewrite IH. cbn [rev]. rewrite <- app_assoc. reflexivity.
Qed.

(** A line as [readline] returns it: not empty, with no newline but
    possibly at its end. *)
Definition is_line (line : list byte) : Prop :=
  exists body, (NEWLINE ∉ body) /\
    (line = body ++ [NEWLINE] \/ (line = body /\ body <> [])).

Lemma byte_eqb_eq (a b : byte) : Byte.eqb a b = true <-> a = b.
Proof. split; [apply Byte.byte_dec_bl | apply Byte.byte_dec_lb]. Qed.

Lemma byte_eqb_neq (a b : byte) : Byte.eqb a b = false <-> a <> b.
Proof.
  rewrite <- byte_eqb_eq. destruct (Byte.eqb a b); split; congruence.
Qed.

Lemma not_elem_of_rev (x : byte) (l : list byte) : x ∉ l -> x ∉ rev l.
Proof.
  intros Hn Hin. apply Hn. apply list_elem_of_In. apply List.in_rev.
  apply list_elem_of_In. exact Hin.
Qed.

Lemma readlines_from_lines (source : list byte) : forall cur,
  NEWLINE ∉ cur ->
  Forall is_line (readlines_from cur source) /\
  (forall i line, readlines_from cur source !! i = Some line ->
     (S i < length (readlines_from cur source))%nat ->
     last line = Some NEWLINE).
Proof.
  induction source as [|b source IH]; intros cur Hcur; cbn [readlines_from].
  - destruct cur as [|c cur].
    + split; [constructor|]. intros i line Hi. inversion Hi.
    + split.
      * constructor; [|constructor]. exists (rev (c :: cur)).
        split; [apply not_elem_of_rev; exact Hcur|]. right. split; [reflexivity|].
        cbn [rev]. intros Hnil. apply app_eq_nil in Hnil as [_ Hnil]. discriminate.
      * intros i line Hi Hlt. cbn [length] in Hlt. lia.
  - destruct (Byte.eqb b NEWLINE) eqn:Hb.
    + apply byte_eqb_eq in Hb. subst b.
      destruct (IH [] (not_elem_of_nil _)) as [Hall Hlast]. split.
      * constructor; [|exact Hall]. exists (rev cur).
        split; [apply not_elem_of_rev; exact Hcur|]. left. reflexivity.
      * intros [|i] line Hi Hlt.
        -- cbn in Hi. injection Hi as <-. cbn [rev]. apply last_snoc.
        -- cbn in Hi. cbn [length] in Hlt. apply (Hlast i line Hi). lia.
    + apply byte_eqb_neq in Hb. apply IH.
      apply not_elem_of_cons. split; [congruence|exact Hcur].
Qed.

(** X3. The lines [read_input] goes through are the input cut after each
    newline: put together they give the input back, none is empty, a
    newline only ends a line, and only the last line may lack one. *)
Theorem readlines_partition (source : list byte) :
  concat (readlines source) = source /\
  Forall is_line (readlines source) /\
  (forall i line, readlines source !! i = Some line ->
     (S i < length (readlines source))%nat -> last line = Some NEWLINE) /\
  length (read_input source) = length (readlines source).
Proof.
  unfold readlines.
  destruct (readlines_from_lines source [] (not_elem_of_nil _)) as [H1 H2].
  split; [apply (readlines_from_concat source [])|].
  split; [exact H1|]. split; [exact H2|].
  unfold read_input, readlines. apply length_map.
Qed.

(** *** Whole records *)

(** [b"!".join(row)] *)
Fixpoint join (row : list (list byte)) : list byte :=
  match row with
  | [] => []
  | [f] => f
  | f :: row' => f ++ INGEST_SEPARATOR :: join row'
  end.

(** The line of a record: its fields joined by the separator, then a
    newline. *)
Definition encode_row (row : list (list byte)) : list byte :=
  join row ++ [NEWLINE].

Fixpoint terminated (row : list (list byte)) : list (list byte * byte) :=
  match row with
  | [] => []
  | [f] => [(f, NEWLINE)]
  | f :: row' => (f, INGEST_SEPARATOR) :: terminated row'
  end.

Definition clean (f : list byte) : Prop := Forall (fun b => terminator b = false) f.

Lemma terminated_spec (row : list (list byte)) :
  row <> [] ->
  encode_fields (terminated row) = encode_row row /\ (terminated row).*1 = row.
Proof.
  induction row as [|f row IH]; intros Hne; [congruence|].
  destruct row as [|g row].
  - cbn. rewrite app_nil_r. split; reflexivity.
  - destruct IH as [IH1 IH2]; [discriminate|].
    change (terminated (f :: g :: row))
      with ((f, INGEST_SEPARATOR) :: terminated (g :: row)).
    change (encode_row (f :: g :: row))
      with ((f ++ INGEST_SEPARATOR :: join (g :: row)) ++ [NEWLINE]).
    unfold encode_fields, encode_row in *.
    rewrite !fmap_cons. cbn [concat fst snd].
    rewrite IH1, IH2. rewrite <- !app_assoc. cbn [app]. split; reflexivity.
Qed.

Lemma terminated_ok (row : list (list byte)) :
  Forall clean row ->
  Forall (fun ft => Forall (fun b => terminator b = false) ft.1 /\
                    terminator ft.2 = true) (terminated row).
Proof.
  induction row as [|f row IH]; intros Hall; [constructor|].
  apply Forall_cons in Hall as [Hf Hall].
  destruct row as [|g row].
  - constructor; [|constructor]. split; [exact Hf|reflexivity].
  - change (terminated (f :: g :: row))
      with ((f, INGEST_SEPARATOR) :: terminated (g :: row)).
    constructor; [split; [exact Hf|reflexivity]|].
    apply IH. exact Hall.
Qed.

Lemma clean_no_newline (f : list byte) : clean f -> NEWLINE ∉ f.
Proof.
  intros Hf Hin. unfold clean in Hf. rewrite Forall_forall in Hf.
  specialize (Hf _ Hin). discriminate Hf.
Qed.

Lemma join_no_newline (row : list (list byte)) :
  Forall clean row -> NEWLINE ∉ join row.
Proof.
  induction row as [|f row IH]; intros Hall; [apply not_elem_of_nil|].
  apply Forall_cons in Hall as [Hf Hall].
  destruct row as [|g row]; [apply clean_no_newline; exact Hf|].
  change (join (f :: g :: row)) with (f ++ INGEST_SEPARATOR :: join (g :: row)).
  rewrite elem_of_app, elem_of_cons.
  intros [Hin|[Heq|Hin]].
  - apply (clean_no_newline f Hf Hin).
  - discriminate Heq.
  - apply (IH Hall Hin).
Qed.

Lemma readlines_from_body (body : list byte) : forall cur rest,
  NEWLINE ∉ body ->
  readlines_from cur (body ++ NEWLINE :: rest)
  = (rev cur ++ body ++ [NEWLINE]) :: readlines_from [] rest.
Proof.
  induction body as [|b body IH]; intros cur rest Hn.
  - cbn. reflexivity.
  - apply not_elem_of_cons in Hn as [Hb Hn].
    cbn [app readlines_from].
    assert (Hbn : Byte.eqb b NEWLINE = false) by (apply byte_eqb_neq; congruence).
    rewrite Hbn. rewrite IH by exact Hn. cbn [rev]. rewrite <- app_assoc. reflexivity.
Qed.

Lemma readlines_rows (rows : list (list (list byte))) :
  Forall (Forall clean) rows ->
  readlines (concat (encode_row <$> rows)) = encode_row <$> rows.
Proof.
  unfold readlines. induction rows as [|row rows IH]; intros Hall; [reflexivity|].
  apply Forall_cons in Hall as [Hrow Hall].
  rewrite fmap_cons. cbn [concat]. unfold encode_row at 1.
  rewrite <- app_assoc. cbn [app].
  rewrite readlines_from_body by (apply join_no_newline; exact Hrow).
  cbn [rev app]. rewrite IH by exact Hall. reflexivity.
Qed.

(** X2. Writing records and reading them back. An input made of one line per
    record, the line being the record's fields joined by [!] and ended
    by a newline, is read as one mapping per record, in order: the
    schema names paired with the record's fields, where an empty field
    and [?UNKNOWN?] are null. The fields hold no [!] and no newline, and
    a record has at least one field. *)
Theorem read_input_round_trip (rows : list (list (list byte))) :
  Forall (fun row => row <> [] /\ Forall clean row) rows ->
  read_input (concat (encode_row <$> rows))
  = (fun row => zip INGEST_FIELDS (field_value <$> row)) <$> rows.
Proof.
  intros Hall. unfold read_input.
  rewrite readlines_rows by (eapply Forall_impl; [exact Hall|]; intros row [_ H]; exact H).
  change (map mapping_of_line (encode_row <$> rows))
    with (mapping_of_line <$> (encode_row <$> rows)).
  rewrite <- list_fmap_compose.
  apply Forall_fmap_ext_1. eapply Forall_impl; [exact Hall|].
  intros row [Hne Hrow]. cbn [compose]. unfold mapping_of_line.
  destruct (terminated_spec row Hne) as [He Hf].
  rewrite <- He, <- (app_nil_r (encode_fields _)).
  rewrite fields_from_line_decodes;
    [rewrite Hf; reflexivity | apply terminated_ok; exact Hrow | constructor].
Qed.

Lemma read_input_round_trip_witness :
  read_input (concat (encode_row <$>
     [ [bytes "t1"; bytes ""; bytes "FD"];
       [bytes "t2"; bytes "?UNKNOWN?"] ]))
  = (fun row => zip INGEST_FIELDS (field_value <$> row)) <$>
     [ [bytes "t1"; bytes ""; bytes "FD"];
       [bytes "t2"; bytes "?UNKNOWN?"] ].
Proof.
  apply (read_input_round_trip
           [ [bytes "t1"; bytes ""; bytes "FD"];
             [bytes "t2"; bytes "?UNKNOWN?"] ]).
  repeat (constructor || split || discriminate).
Defined.

End IngestFacts.

(** ** More on the partitioned writer: [BatchWriter] of
       [sat_latency/pipeline/load.py] *)

Module WriterFacts.
Import Writer.

Section BatchWriterFacts.
Context {Date : Type} `{EqDecision Date}.

Abbreviation BW := (BatchWriter (Date := Date)).

(** [BatchWriter.close], which [__exit__] calls: [_close_date] for every
    date of the pool, in the pool's order. The pool keeps its entries. *)
Definition close (w : BW) : BW :=
  foldl (fun w date => _close_date date w) w (pool_dates w).

(** The dates of the files opened so far, in the order of opening. *)
Definition opened_dates (w : BW) : list Date :=
  omap (fun ev => match ev with Opened d _ => Some d | _ => None end) (io_log w).

Definition closed_handles (w : BW) : list handle :=
  omap (fun ev => match ev with FileClosed h => Some h | _ => None end) (io_log w).

Definition written_handles (w : BW) : list handle :=
  omap (fun ev => match ev with Wrote h => Some h | _ => None end) (io_log w).

(** *** The three ways of [write_batch] *)

Local Ltac PRJ :=
  cbn [fst snd tail _writer_pool _max_size next_handle open_handles io_log uses].
Local Ltac RED :=
  cbv beta iota delta [log_event set_pool move_to_end record_use open_file];
  PRJ.

Lemma write_batch_hit date (w : BW) h :
  pool_get date (_writer_pool w) = Some h ->
  write_batch date w =
    (Ok tt,
     {| _writer_pool := pool_remove date (_writer_pool w) ++ [(date, h)];
        _max_size := _max_size w; next_handle := next_handle w;
        open_handles := open_handles w;
        io_log := io_log w ++ [Wrote h];
        uses := date :: uses w |}).
Proof.
  intros Hget. unfold write_batch, _get_writer. RED. rewrite Hget. reflexivity.
Qed.

Lemma write_batch_room date (w : BW) :
  pool_get date (_writer_pool w) = None ->
  Z.of_nat (length (_writer_pool w)) < _max_size w ->
  write_batch date w =
    (Ok tt,
     {| _writer_pool := _writer_pool w ++ [(date, next_handle w)];
        _max_size := _max_size w; next_handle := S (next_handle w);
        open_handles := open_handles w ++ [next_handle w];
        io_log := io_log w ++ [ Opened date (next_handle w);
                                Pooled date (next_handle w);
                                Wrote (next_handle w) ];
        uses := date :: uses w |}).
Proof.
  intros Hget Hlt. unfold write_batch, _get_writer. RED. rewrite Hget.
  destruct (Z.geb_spec (Z.of_nat (length (_writer_pool w))) (_max_size w)) as [Hge|_];
    [lia|].
  RED. rewrite <- !app_assoc. reflexivity.
Qed.

Lemma write_batch_evict date (w : BW) old h_old rest :
  pool_get date (_writer_pool w) = None ->
  _writer_pool w = (old, h_old) :: rest ->
  _max_size w <= Z.of_nat (length (_writer_pool w)) ->
  write_batch date w =
    (Ok tt,
     {| _writer_pool := rest ++ [(date, next_handle w)];
        _max_size := _max_size w; next_handle := S (next_handle w);
        open_handles := filter (fun h' => h' <> h_old)
                          (open_handles w ++ [next_handle w]);
        io_log := io_log w ++ [ Opened date (next_handle w);
                                WriterClosed h_old; Flushed h_old; FileClosed h_old;
                                Pooled date (next_handle w);
                                Wrote (next_handle w) ];
        uses := date :: uses w |}).
Proof.
  intros Hget Hpool Hge. unfold write_batch, _get_writer. RED. rewrite Hget.
  destruct (Z.geb_spec (Z.of_nat (length (_writer_pool w))) (_max_size w)) as [_|Hlt];
    [|lia].
  rewrite Hpool. unfold _close_date. RED. cbn [pool_get].
  destruct (decide (old = old)) as [_|]; [|congruence].
  RED. rewrite <- !app_assoc. reflexivity.
Qed.

Lemma write_batch_empty_full date (w : BW) :
  _writer_pool w = [] -> _max_size w <= 0 ->
  write_batch date w =
    (Raise StopIteration,
     {| _writer_pool := [];
        _max_size := _max_size w; next_handle := S (next_handle w);
        open_handles := open_handles w ++ [next_handle w];
        io_log := io_log w ++ [Opened date (next_handle w)];
        uses := date :: uses w |}).
Proof.
  intros Hpool Hmax. unfold write_batch, _get_writer. RED. rewrite Hpool.
  cbn [pool_get length].
  destruct (Z.geb_spec (Z.of_nat 0) (_max_size w)) as [_|Hlt]; [|lia].
  reflexivity.
Qed.

(** *** Files are opened and closed in step with the pool *)

(** The open files are those of the pool, each pooled pair was opened
    for its date, and a file is never both closed and open. *)
Record tidy (w : BW) : Prop := {
  tidy_inv : pool_inv w;
  tidy_size : 1 <= _max_size w;
  tidy_open : forall h, h ∈ open_handles w -> h ∈ (_writer_pool w).*2;
  tidy_opened : forall d h, (d, h) ∈ _writer_pool w -> Opened d h ∈ io_log w;
  tidy_once : NoDup (closed_handles w ++ open_handles w);
  tidy_all : forall h, (h < next_handle w)%nat ->
                       h ∈ closed_handles w \/ h ∈ open_handles w;
  tidy_closed : forall h, h ∈ closed_handles w -> (h < next_handle w)%nat
}.

Lemma tidy_init pool_size : 1 <= pool_size -> tidy (init pool_size).
Proof.
  intros Hp. constructor; cbn.
  - apply pool_inv_init. lia.
  - exact Hp.
  - intros h Hin. inversion Hin.
  - intros d h Hin. inversion Hin.
  - constructor.
  - intros h Hlt. lia.
  - intros h Hin. inversion Hin.
Qed.

Lemma fst_unique (pool : list (Date * handle)) d h1 h2 :
  NoDup pool.*1 -> (d, h1) ∈ pool -> (d, h2) ∈ pool -> h1 = h2.
Proof.
  induction pool as [|[d' h'] pool IH]; intros Hnd H1 H2; [inversion H1|].
  rewrite fmap_cons in Hnd. apply NoDup_cons in Hnd as [Hd Hnd]. cbn [fst] in Hd.
  apply elem_of_cons in H1 as [H1|H1]; apply elem_of_cons in H2 as [H2|H2].
  - congruence.
  - injection H1 as -> ->. exfalso. apply Hd.
    apply list_elem_of_fmap. exists (d', h2). auto.
  - injection H2 as -> ->. exfalso. apply Hd.
    apply list_elem_of_fmap. exists (d', h1). auto.
  - auto.
Qed.

Lemma move_to_end_elem (pool : list (Date * handle)) date h x :
  NoDup pool.*1 -> pool_get date pool = Some h ->
  x ∈ pool_remove date pool ++ [(date, h)] <-> x ∈ pool.
Proof.
  intros Hnd Hget. apply pool_get_Some in Hget.
  rewrite elem_of_app, list_elem_of_singleton. unfold pool_remove.
  rewrite list_elem_of_filter. split.
  - intros [[_ Hin]| ->]; assumption.
  - intros Hin. destruct x as [d' h']. cbn [fst].
    destruct (decide (d' = date)) as [->|Hne]; [|left; auto].
    right. f_equal. eapply fst_unique; eassumption.
Qed.

Lemma omap_snoc {A B : Type} (f : A -> option B) (l : list A) (x : A) :
  omap f (l ++ [x]) = omap f l ++ match f x with Some y => [y] | None => [] end.
Proof. rewrite omap_app. cbn. destruct (f x); reflexivity. Qed.

Lemma tidy_write_batch date (w : BW) :
  tidy w ->
  tidy (write_batch date w).2 /\
  (write_batch date w).1 = Ok tt /\
  exists h, last (io_log (write_batch date w).2) = Some (Wrote h) /\
            last (_writer_pool (write_batch date w).2) = Some (date, h).
Proof.
  intros [Hinv Hsize Hopen Hopened Honce Hall Hclosed].
  pose proof (pool_inv_write_batch date w Hinv) as Hinv'.
  pose proof (write_batch_max_size date w) as Hmax.
  assert (Hi := Hinv). destruct Hi as [Hlen Hd Hh Hpo Hfresh Hage].
  destruct (pool_get date (_writer_pool w)) as [h|] eqn:Hget.
  - (* the date is pooled *)
    rewrite (write_batch_hit date w h Hget) in *. cbn [fst snd] in *.
    split; [|split; [reflexivity|]].
    + constructor; try assumption; PRJ.
      * intros h' Hin. apply Hopen in Hin.
        apply list_elem_of_fmap in Hin as ([d1 h1] & -> & Hin).
        apply list_elem_of_fmap. exists (d1, h1). split; [reflexivity|].
        apply move_to_end_elem; assumption.
      * intros d1 h1 Hin. apply move_to_end_elem in Hin; [|assumption..].
        apply elem_of_app. left. auto.
      * unfold closed_handles in *. PRJ. rewrite omap_snoc. cbn.
        rewrite app_nil_r. exact Honce.
      * intros h' Hlt. unfold closed_handles in *. PRJ. rewrite omap_snoc. cbn.
        rewrite app_nil_r. auto.
      * intros h'. unfold closed_handles in *. PRJ. rewrite omap_snoc. cbn.
        rewrite app_nil_r. auto.
    + exists h. PRJ. rewrite !last_snoc. split; reflexivity.
  - assert (Hnew : next_handle w ∉ open_handles w).
    { intros Hin. apply Hfresh in Hin. lia. }
    assert (Hnewc : next_handle w ∉ closed_handles w).
    { intros Hin. apply Hclosed in Hin. lia. }
    destruct (Z.ltb_spec (Z.of_nat (length (_writer_pool w))) (_max_size w)) as [Hlt|Hge].
    + (* room in the pool *)
      rewrite (write_batch_room date w Hget Hlt) in *. cbn [fst snd] in *.
      split; [|split; [reflexivity|]].
      * constructor; try assumption; PRJ.
        -- intros h' Hin. rewrite fmap_app. apply elem_of_app.
           apply elem_of_app in Hin as [Hin|Hin]; [left; auto|right; exact Hin].
        -- intros d1 h1 Hin. apply elem_of_app in Hin as [Hin|Hin].
           ++ apply elem_of_app. left. auto.
           ++ apply list_elem_of_singleton in Hin. injection Hin as -> ->.
              apply elem_of_app. right. left.
        -- unfold closed_handles in *. PRJ. rewrite omap_app. cbn. rewrite app_nil_r.
           rewrite app_assoc. apply NoDup_app. split; [exact Honce|]. split.
           ++ intros x Hx Hx'. apply list_elem_of_singleton in Hx'. subst x.
              apply elem_of_app in Hx as [Hx|Hx]; tauto.
           ++ apply NoDup_singleton.
        -- intros h' Hlt'. unfold closed_handles in *. PRJ. rewrite omap_app. cbn.
           rewrite app_nil_r. rewrite elem_of_app, list_elem_of_singleton.
           destruct (decide (h' = next_handle w)) as [->|Hne]; [auto|].
           destruct (Hall h'); [lia|auto|auto].
        -- intros h'. unfold closed_handles in *. PRJ. rewrite omap_app. cbn.
           rewrite app_nil_r. intros Hin. apply Hclosed in Hin. lia.
      * exists (next_handle w). PRJ. rewrite last_snoc.
        rewrite (last_app_cons (io_log w ++ [_; _]) [] (Wrote _)) || idtac.
        split; [|reflexivity].
        change [Opened date (next_handle w); Pooled date (next_handle w);
                Wrote (next_handle w)]
          with ([Opened date (next_handle w); Pooled date (next_handle w)]
                ++ [Wrote (next_handle w)]).
        rewrite app_assoc. apply last_snoc.
    + (* the oldest entry is evicted *)
      destruct (_writer_pool w) as [|[old h_old] rest] eqn:Hpool;
        [cbn [length] in Hge; lia|].
      assert (Hgetw : pool_get date (_writer_pool w) = None) by (rewrite Hpool; exact Hget).
      assert (Hgew : _max_size w <= Z.of_nat (length (_writer_pool w)))
        by (rewrite Hpool; exact Hge).
      rewrite (write_batch_evict date w old h_old rest Hgetw Hpool Hgew) in *.
      cbn [fst snd] in *.
      assert (Hold : h_old ∈ open_handles w) by (apply (Hpo old); left).
      assert (Holdc : h_old ∉ closed_handles w).
      { intros Hin. apply NoDup_app in Honce as (_ & Hdis & _). apply (Hdis h_old Hin Hold). }
      rewrite !fmap_cons in Hh. cbn [snd] in Hh. apply NoDup_cons in Hh as [Hh1 Hh2].
      split; [|split; [reflexivity|]].
      * constructor; try assumption; PRJ.
        -- intros h' Hin. apply list_elem_of_filter in Hin as [Hne Hin].
           rewrite fmap_app. apply elem_of_app.
           apply elem_of_app in Hin as [Hin|Hin]; [left|right; exact Hin].
           apply Hopen in Hin. rewrite fmap_cons in Hin. cbn [snd] in Hin.
           apply elem_of_cons in Hin as [?|?]; [congruence|assumption].
        -- intros d1 h1 Hin. apply elem_of_app in Hin as [Hin|Hin].
           ++ apply elem_of_app. left. apply Hopened. right. exact Hin.
           ++ apply list_elem_of_singleton in Hin. injection Hin as -> ->.
              apply elem_of_app. right. left.
        -- unfold closed_handles in *. PRJ. rewrite omap_app. cbn.
           apply NoDup_app in Honce as (Hc & Hdis & Ho).
           rewrite <- app_assoc. apply NoDup_app. split; [exact Hc|]. split.
           ++ intros x Hx Hx'. cbn in Hx'. apply elem_of_cons in Hx' as [->|Hx'].
              ** contradiction.
              ** apply list_elem_of_filter in Hx' as [_ Hx'].
                 apply elem_of_app in Hx' as [Hx'|Hx'].
                 --- apply (Hdis x Hx Hx').
                 --- apply list_elem_of_singleton in Hx'. subst x. contradiction.
           ++ cbn. apply NoDup_cons. split.
              ** intros Hin. apply list_elem_of_filter in Hin as [Hne _]. congruence.
              ** apply NoDup_filter. apply NoDup_app. split; [exact Ho|]. split.
                 --- intros x Hx Hx'. apply list_elem_of_singleton in Hx'. subst x.
                     contradiction.
                 --- apply NoDup_singleton.
        -- intros h' Hlt'. unfold closed_handles in *. PRJ. rewrite omap_app. cbn.
           rewrite elem_of_app, list_elem_of_singleton, list_elem_of_filter,
             elem_of_app, list_elem_of_singleton.
           destruct (decide (h' = h_old)) as [->|Hne]; [auto|].
           destruct (decide (h' = next_handle w)) as [->|Hne2]; [auto|].
           destruct (Hall h'); [lia|auto|auto].
        -- intros h'. unfold closed_handles in *. PRJ. rewrite omap_app. cbn.
           rewrite elem_of_app, list_elem_of_singleton.
           intros [Hin| ->]; [apply Hclosed in Hin; lia|].
           apply Hfresh in Hold. lia.
      * exists (next_handle w). PRJ. rewrite last_snoc. split; [|reflexivity].
        change [Opened date (next_handle w); WriterClosed h_old; Flushed h_old;
                FileClosed h_old; Pooled date (next_handle w); Wrote (next_handle w)]
          with ([Opened date (next_handle w); WriterClosed h_old; Flushed h_old;
                 FileClosed h_old; Pooled date (next_handle w)]
                ++ [Wrote (next_handle w)]).
        rewrite app_assoc. apply last_snoc.
Qed.

Lemma tidy_write_batches (dates : list Date) : forall w : BW,
  tidy w -> tidy (write_batches dates w).
Proof.
  induction dates as [|d dates IH]; intros w Hw; [exact Hw|].
  cbn [write_batches]. apply IH. apply (tidy_write_batch d w Hw).
Qed.

(** X4. Every batch reaches an open file of its date. On a writer made
    with [pool_size >= 1], after any sequence of [write_batch] calls, one
    more call returns, and after it the open files are exactly those of
    the pool; the batch was written last, to the writer that is now the
    newest entry of the pool, under the batch's date; that file was
    opened for this date and has not been closed. *)
Theorem write_batch_uses_open_file (pool_size : Z) (dates : list Date) (date : Date) :
  1 <= pool_size ->
  let w := write_batches dates (init pool_size) in
  let w' := (write_batch date w).2 in
  (write_batch date w).1 = Ok tt /\
  (forall h, h ∈ open_handles w' <-> h ∈ (_writer_pool w').*2) /\
  exists h, last (io_log w') = Some (Wrote h) /\
            last (_writer_pool w') = Some (date, h) /\
            Opened date h ∈ io_log w' /\
            h ∈ open_handles w' /\ h ∉ closed_handles w'.
Proof.
  intros Hp w w'.
  assert (Hw : tidy w) by (apply tidy_write_batches, tidy_init, Hp).
  destruct (tidy_write_batch date w Hw) as (Hw' & Hok & h & Hlog & Hlast).
  fold w' in Hw', Hlog, Hlast.
  destruct Hw' as [Hinv Hsize Hopen Hopened Honce Hall Hclosed].
  split; [exact Hok|]. split.
  - intros h'. split; [apply Hopen|].
    intros Hin. apply list_elem_of_fmap in Hin as ([d1 h1] & -> & Hin).
    apply (inv_open w' Hinv d1 h1 Hin).
  - exists h. split; [exact Hlog|]. split; [exact Hlast|].
    assert (Hin : (date, h) ∈ _writer_pool w').
    { apply last_Some in Hlast as [l' ->]. apply elem_of_app. right. left. }
    assert (Ho : h ∈ open_handles w') by (apply (inv_open w' Hinv date h Hin)).
    split; [apply Hopened; exact Hin|]. split; [exact Ho|].
    intros Hc. apply NoDup_app in Honce as (_ & Hdis & _). apply (Hdis h Hc Ho).
Qed.

(** *** Closing the writer *)

Definition closing (dh : Date * handle) : list (io_event (Date := Date)) :=
  [WriterClosed dh.2; Flushed dh.2; FileClosed dh.2].

Lemma close_date_pooled date h (w : BW) :
  pool_get date (_writer_pool w) = Some h ->
  _close_date date w =
    {| _writer_pool := _writer_pool w; _max_size := _max_size w;
       next_handle := next_handle w;
       open_handles := filter (fun h' => h' <> h) (open_handles w);
       io_log := io_log w ++ closing (date, h);
       uses := uses w |}.
Proof. intros Hget. unfold _close_date. rewrite Hget. reflexivity. Qed.

Lemma close_loop (items : list (Date * handle)) : forall w0 : BW,
  (forall d h, (d, h) ∈ items -> pool_get d (_writer_pool w0) = Some h) ->
  let w1 := foldl (fun w date => _close_date date w) w0 items.*1 in
  _writer_pool w1 = _writer_pool w0 /\
  next_handle w1 = next_handle w0 /\
  io_log w1 = io_log w0 ++ concat (closing <$> items) /\
  (forall h, h ∈ open_handles w1 <-> h ∈ open_handles w0 /\ h ∉ items.*2).
Proof.
  induction items as [|[d h] items IH]; intros w0 Hget.
  - cbn. rewrite app_nil_r. split; [reflexivity|]. split; [reflexivity|].
    split; [reflexivity|]. intros h. split; [|tauto].
    intros Hin. split; [exact Hin|apply not_elem_of_nil].
  - rewrite fmap_cons. cbn [foldl fst].
    rewrite (close_date_pooled d h w0) by (apply Hget; left).
    match goal with |- context [foldl _ ?w _] => set (w0' := w) end.
    destruct (IH w0') as (I1 & I2 & I3 & I4).
    { intros d1 h1 Hin. unfold w0'. PRJ. apply Hget. right. exact Hin. }
    cbn zeta. split; [rewrite I1; reflexivity|]. split; [rewrite I2; reflexivity|].
    split.
    + rewrite I3. unfold w0'. PRJ.
      rewrite fmap_cons. cbn [concat]. rewrite <- app_assoc. reflexivity.
    + intros h'. rewrite I4. unfold w0'. PRJ.
      rewrite list_elem_of_filter, fmap_cons, not_elem_of_cons. cbn [snd]. tauto.
Qed.

Definition opened_handles (w : BW) : list handle :=
  omap (fun ev => match ev with Opened _ h => Some h | _ => None end) (io_log w).

Lemma omap_closing {B : Type} (f : io_event (Date := Date) -> option B) (items : list (Date * handle)) :
  omap f (concat (closing <$> items))
  = concat ((fun dh => omap f (closing dh)) <$> items).
Proof.
  induction items as [|dh items IH]; [reflexivity|].
  rewrite !fmap_cons. cbn [concat]. rewrite omap_app, IH. reflexivity.
Qed.

Lemma opened_handles_write_batch date (w : BW) :
  tidy w ->
  opened_handles w = seq 0 (next_handle w) ->
  opened_handles (write_batch date w).2 = seq 0 (next_handle (write_batch date w).2).
Proof.
  intros Hw Hseq. destruct Hw as [Hinv Hsize _ _ _ _ _].
  destruct (pool_get date (_writer_pool w)) as [h|] eqn:Hget.
  - rewrite (write_batch_hit date w h Hget). unfold opened_handles in *. PRJ.
    rewrite omap_snoc. cbn. rewrite app_nil_r. exact Hseq.
  - destruct (Z.ltb_spec (Z.of_nat (length (_writer_pool w))) (_max_size w)) as [Hlt|Hge].
    + rewrite (write_batch_room date w Hget Hlt). unfold opened_handles in *. PRJ.
      rewrite omap_app, Hseq, seq_S. reflexivity.
    + destruct (_writer_pool w) as [|[old h_old] rest] eqn:Hpool;
        [cbn [length] in Hge; lia|].
      assert (Hgetw : pool_get date (_writer_pool w) = None) by (rewrite Hpool; exact Hget).
      assert (Hgew : _max_size w <= Z.of_nat (length (_writer_pool w)))
        by (rewrite Hpool; exact Hge).
      rewrite (write_batch_evict date w old h_old rest Hgetw Hpool Hgew).
      unfold opened_handles in *. PRJ.
      rewrite omap_app, Hseq, seq_S. reflexivity.
Qed.

Lemma opened_handles_write_batches (dates : list Date) : forall w : BW,
  tidy w -> opened_handles w = seq 0 (next_handle w) ->
  opened_handles (write_batches dates w) = seq 0 (next_handle (write_batches dates w)).
Proof.
  induction dates as [|d dates IH]; intros w Hw Hseq; [exact Hseq|].
  cbn [write_batches]. apply IH.
  - apply (tidy_write_batch d w Hw).
  - apply opened_handles_write_batch; assumption.
Qed.

(** X5. Leaving the [with] block closes everything. On a writer made with
    [pool_size >= 1], after any sequence of [write_batch] calls, [close]
    closes the writer of, flushes and closes the file of each pool
    entry, in the pool's order, and leaves no file open; the pool keeps
    its entries. Over the writer's life every file that was opened has
    then been closed exactly once. *)
Theorem close_closes_every_file (pool_size : Z) (dates : list Date) :
  1 <= pool_size ->
  let w := write_batches dates (init pool_size) in
  io_log (close w) = io_log w ++ concat (closing <$> _writer_pool w) /\
  open_handles (close w) = [] /\
  _writer_pool (close w) = _writer_pool w /\
  NoDup (closed_handles (close w)) /\
  closed_handles (close w) ≡ₚ opened_handles (close w).
Proof.
  intros Hp w.
  assert (Hw : tidy w) by (apply tidy_write_batches, tidy_init, Hp).
  assert (Hseq : opened_handles w = seq 0 (next_handle w)).
  { apply opened_handles_write_batches; [apply tidy_init, Hp|reflexivity]. }
  destruct Hw as [Hinv Hsize Hopen Hopened Honce Hall Hclosed].
  assert (Hi := Hinv). destruct Hi as [Hlen Hd Hh Hpo Hfresh Hage].
  destruct (close_loop (_writer_pool w) w) as (C1 & C2 & C3 & C4).
  { intros d h Hin.
    destruct (pool_get d (_writer_pool w)) as [h'|] eqn:Hget.
    - f_equal. apply pool_get_Some in Hget. eapply fst_unique; eassumption.
    - apply pool_get_None in Hget. exfalso. apply Hget.
      apply list_elem_of_fmap. exists (d, h). auto. }
  cbn zeta in C1, C2, C3, C4. fold (pool_dates w) in C1, C2, C3, C4.
  fold (close w) in C1, C2, C3, C4.
  assert (Hnone : open_handles (close w) = []).
  { apply elem_of_nil_inv. intros h Hin.
    apply C4 in Hin as [Hin Hnin]. apply Hopen in Hin. contradiction. }
  assert (Hcl : closed_handles (close w) = closed_handles w ++ (_writer_pool w).*2).
  { unfold closed_handles. rewrite C3, omap_app, omap_closing. f_equal.
    clear. induction (_writer_pool w) as [|[d h] l IH]; [reflexivity|].
    rewrite !fmap_cons. cbn [concat]. rewrite IH. reflexivity. }
  assert (Hop : opened_handles (close w) = opened_handles w).
  { unfold opened_handles. rewrite C3, omap_app, omap_closing.
    rewrite <- (app_nil_r (omap _ (io_log w))) at 2. f_equal.
    clear. induction (_writer_pool w) as [|[d h] l IH]; [reflexivity|].
    rewrite !fmap_cons. cbn [concat]. rewrite IH. reflexivity. }
  assert (Hnd : NoDup (closed_handles w ++ (_writer_pool w).*2)).
  { apply NoDup_app in Honce as (Hc & Hdis & Ho).
    apply NoDup_app. split; [exact Hc|]. split; [|exact Hh].
    intros h Hc1 Hin. apply list_elem_of_fmap in Hin as ([d1 h1] & -> & Hin).
    apply (Hdis h1 Hc1). apply (Hpo d1 h1 Hin). }
  split; [exact C3|]. split; [exact Hnone|]. split; [exact C1|].
  rewrite Hcl, Hop, Hseq. split; [exact Hnd|].
  apply NoDup_Permutation; [exact Hnd|apply NoDup_seq|].
  intros h. rewrite elem_of_app, elem_of_seq. split.
  - intros [Hin|Hin].
    + apply Hclosed in Hin. lia.
    + apply list_elem_of_fmap in Hin as ([d1 h1] & -> & Hin).
      apply Hpo in Hin. apply Hfresh in Hin. cbn [snd]. lia.
  - intros Hlt. destruct (Hall h) as [Hin|Hin]; [lia|auto|auto].
Qed.

(** *** A pool that holds nothing *)

Lemma empty_pool_run (dates : list Date) : forall w0 : BW,
  _writer_pool w0 = [] -> _max_size w0 <= 0 ->
  let w := write_batches dates w0 in
  _writer_pool w = [] /\ _max_size w = _max_size w0 /\
  written_handles w = written_handles w0 /\
  closed_handles w = closed_handles w0 /\
  open_handles w = open_handles w0 ++ seq (next_handle w0) (length dates).
Proof.
  induction dates as [|d dates IH]; intros w0 Hpool Hmax.
  - cbn. rewrite app_nil_r. auto.
  - cbn [write_batches]. rewrite (write_batch_empty_full d w0 Hpool Hmax).
    cbn [snd].
    match goal with |- context [write_batches _ ?w] => set (w1 := w) end.
    destruct (IH w1) as (I1 & I2 & I3 & I4 & I5); [reflexivity|exact Hmax|].
    cbn zeta in *. rewrite I1, I2, I3, I4, I5. unfold w1, written_handles, closed_handles.
    PRJ. rewrite !omap_snoc. cbn. rewrite !app_nil_r, <- app_assoc. auto.
Qed.

(** X6. With [pool_size <= 0] the writer writes nothing. Every [write_batch]
    opens the file of its date and then raises [StopIteration], on
    looking for an entry to evict in a pool that is empty: nothing is
    pooled, written or closed, and the files stay open, also after
    [close]. *)
Theorem empty_pool_never_writes (pool_size : Z) (dates : list Date) (date : Date) :
  pool_size <= 0 ->
  let w := write_batches dates (init pool_size) in
  (write_batch date w).1 = Raise StopIteration /\
  _writer_pool w = [] /\
  written_handles w = [] /\
  closed_handles w = [] /\
  open_handles w = seq 0 (length dates) /\
  open_handles (close w) = open_handles w.
Proof.
  intros Hp w.
  destruct (empty_pool_run dates (init pool_size) eq_refl Hp) as (I1 & I2 & I3 & I4 & I5).
  fold w in I1, I2, I3, I4, I5. cbn in I2, I3, I4, I5.
  split.
  { rewrite (write_batch_empty_full date w I1); [reflexivity|]. rewrite I2. exact Hp. }
  split; [exact I1|]. split; [exact I3|]. split; [exact I4|]. split; [exact I5|].
  unfold close, pool_dates. rewrite I1. reflexivity.
Qed.

(** *** A working set that fits *)

Lemma fits_run (dates : list Date) : forall (seen : list Date) (w : BW),
  tidy w ->
  (forall d, d ∈ pool_dates w <-> d ∈ seen) ->
  closed_handles w = [] ->
  NoDup (opened_dates w) ->
  (forall d, d ∈ opened_dates w <-> d ∈ seen) ->
  (forall l, NoDup l -> (forall d, d ∈ l -> d ∈ seen \/ d ∈ dates) ->
             Z.of_nat (length l) <= _max_size w) ->
  let w' := write_batches dates w in
  closed_handles w' = [] /\
  NoDup (opened_dates w') /\
  (forall d, d ∈ opened_dates w' <-> d ∈ seen \/ d ∈ dates) /\
  NoDup (pool_dates w') /\
  (forall d, d ∈ pool_dates w' <-> d ∈ seen \/ d ∈ dates).
Proof.
  induction dates as [|d dates IH]; intros seen w Hw Hpool Hcl Hnd Hop Hfit.
  - cbn. split; [exact Hcl|]. split; [exact Hnd|].
    split; [intros d; rewrite Hop; rewrite elem_of_nil; tauto|].
    split; [apply (inv_dates w (tidy_inv w Hw))|].
    intros d. rewrite Hpool, elem_of_nil. tauto.
  - cbn [write_batches].
    destruct (tidy_write_batch d w Hw) as (Hw1 & _ & _).
    pose proof (write_batch_max_size d w) as Hmax.
    assert (Hgoal : forall w1 : BW,
      tidy w1 -> _max_size w1 = _max_size w ->
      (forall x, x ∈ pool_dates w1 <-> x ∈ d :: seen) ->
      closed_handles w1 = [] -> NoDup (opened_dates w1) ->
      (forall x, x ∈ opened_dates w1 <-> x ∈ d :: seen) ->
      let w' := write_batches dates w1 in
      closed_handles w' = [] /\ NoDup (opened_dates w') /\
      (forall x, x ∈ opened_dates w' <-> x ∈ seen \/ x ∈ d :: dates) /\
      NoDup (pool_dates w') /\
      (forall x, x ∈ pool_dates w' <-> x ∈ seen \/ x ∈ d :: dates)).
    { intros w1 T1 M1 P1 C1 N1 O1.
      destruct (IH (d :: seen) w1 T1 P1 C1 N1 O1) as (R1 & R2 & R3 & R4 & R5).
      { intros l Hl Hsub. rewrite M1. apply Hfit; [exact Hl|].
        intros x Hx. specialize (Hsub x Hx). rewrite !elem_of_cons in *. tauto. }
      cbn zeta. split; [exact R1|]. split; [exact R2|].
      split; [intros x; rewrite R3, !elem_of_cons; tauto|].
      split; [exact R4|]. intros x. rewrite R5, !elem_of_cons. tauto. }
    destruct (pool_get d (_writer_pool w)) as [h|] eqn:Hget.
    + (* the date was seen: its file is in the pool *)
      assert (Hin : d ∈ seen).
      { apply Hpool. apply pool_get_Some in Hget.
        apply list_elem_of_fmap. exists (d, h). auto. }
      rewrite (write_batch_hit d w h Hget) in *. cbn [snd] in *.
      apply Hgoal; try assumption.
      * intros x. unfold pool_dates. PRJ.
        rewrite elem_of_cons, <- Hpool. unfold pool_dates.
        rewrite !list_elem_of_fmap. split.
        -- intros (y & -> & Hy). right. exists y. split; [reflexivity|].
           apply (move_to_end_elem _ d h); [apply (inv_dates w (tidy_inv w Hw))|exact Hget|exact Hy].
        -- intros [->|(y & -> & Hy)].
           ++ exists (d, h). split; [reflexivity|]. apply elem_of_app. right. left.
           ++ exists y. split; [reflexivity|].
              apply (move_to_end_elem _ d h); [apply (inv_dates w (tidy_inv w Hw))|exact Hget|exact Hy].
      * unfold closed_handles in *. PRJ. rewrite omap_snoc. cbn. rewrite app_nil_r. exact Hcl.
      * unfold opened_dates in *. PRJ. rewrite omap_snoc. cbn. rewrite app_nil_r. exact Hnd.
      * intros x. unfold opened_dates in *. PRJ. rewrite omap_snoc. cbn. rewrite app_nil_r.
        rewrite Hop, elem_of_cons. split; [auto|]. intros [->|]; assumption.
    + (* a new date: there is room for it *)
      assert (Hnin : d ∉ seen).
      { intros Hin. apply Hpool in Hin. apply pool_get_None in Hget. contradiction. }
      assert (Hlt : Z.of_nat (length (_writer_pool w)) < _max_size w).
      { assert (Hl : Z.of_nat (length (d :: pool_dates w)) <= _max_size w).
        { apply Hfit.
          - apply NoDup_cons. split.
            + apply pool_get_None in Hget. exact Hget.
            + apply (inv_dates w (tidy_inv w Hw)).
          - intros x Hx. apply elem_of_cons in Hx as [->|Hx].
            + right. left.
            + left. apply Hpool. exact Hx. }
        cbn [length] in Hl. unfold pool_dates in Hl. rewrite length_fmap in Hl. lia. }
      rewrite (write_batch_room d w Hget Hlt) in *. cbn [snd] in *.
      apply Hgoal; try assumption.
      * intros x. unfold pool_dates. PRJ. rewrite fmap_app, elem_of_app. cbn.
        rewrite list_elem_of_singleton, elem_of_cons, <- Hpool. unfold pool_dates. tauto.
      * unfold closed_handles in *. PRJ. rewrite omap_app. cbn. rewrite app_nil_r. exact Hcl.
      * unfold opened_dates in *. PRJ. rewrite omap_app. cbn.
        apply NoDup_app. split; [exact Hnd|]. split; [|apply NoDup_singleton].
        intros x Hx Hx'. apply list_elem_of_singleton in Hx'. subst x.
        apply Hop in Hx. contradiction.
      * intros x. unfold opened_dates in *. PRJ. rewrite omap_app. cbn.
        rewrite elem_of_app, list_elem_of_singleton, elem_of_cons, Hop. tauto.
Qed.

(** X7. When the dates written to are no more than the pool can hold, no
    file is ever closed and reopened: over the whole sequence of
    [write_batch] calls nothing is closed, one file is opened for each
    date, and the pool ends up holding each date once. *)
Theorem working_set_fits (pool_size : Z) (dates : list Date) :
  Z.of_nat (length (remove_dups dates)) <= pool_size ->
  let w := write_batches dates (init pool_size) in
  closed_handles w = [] /\
  opened_dates w ≡ₚ remove_dups dates /\
  pool_dates w ≡ₚ remove_dups dates.
Proof.
  intros Hfit w.
  destruct (decide (dates = [])) as [Hnil|Hne].
  { unfold w. rewrite Hnil. cbn. repeat split; reflexivity. }
  assert (Hp : 1 <= pool_size).
  { assert (Hl : (1 <= length (remove_dups dates))%nat).
    { destruct dates as [|d0 dates0]; [congruence|].
      assert (Hin : d0 ∈ remove_dups (d0 :: dates0))
        by (apply elem_of_remove_dups; left).
      destruct (remove_dups (d0 :: dates0)); [inversion Hin|cbn; lia]. }
    lia. }
  destruct (fits_run dates [] (init pool_size)) as (R1 & R2 & R3 & R4 & R5).
  - apply tidy_init, Hp.
  - intros d. reflexivity.
  - reflexivity.
  - constructor.
  - intros d. reflexivity.
  - intros l Hl Hsub. cbn [_max_size init]. etransitivity; [|exact Hfit].
    apply inj_le. apply submseteq_length. apply NoDup_submseteq; [exact Hl|].
    intros x Hx. apply elem_of_remove_dups. destruct (Hsub x Hx) as [Hx'|Hx']; [inversion Hx'|exact Hx'].
  - fold w in R1, R2, R3, R4, R5. split; [exact R1|]. split.
    + apply NoDup_Permutation; [exact R2|apply NoDup_remove_dups|].
      intros x. rewrite R3, elem_of_remove_dups, elem_of_nil. tauto.
    + apply NoDup_Permutation; [exact R4|apply NoDup_remove_dups|].
      intros x. rewrite R5, elem_of_remove_dups, elem_of_nil. tauto.
Qed.

End BatchWriterFacts.

(** Instances, with days numbered. *)
Lemma write_batch_uses_open_file_witness :
  let w := write_batches [1; 2; 3]%nat (init 2) in
  let w' := (write_batch 1%nat w).2 in
  (write_batch 1%nat w).1 = Ok tt /\
  (forall h, h ∈ open_handles w' <-> h ∈ (_writer_pool w').*2) /\
  exists h, last (io_log w') = Some (Wrote h) /\
            last (_writer_pool w') = Some (1%nat, h) /\
            Opened 1%nat h ∈ io_log w' /\
            h ∈ open_handles w' /\ h ∉ closed_handles w'.
Proof. apply (write_batch_uses_open_file 2 [1; 2; 3]%nat 1%nat). lia. Defined.

Lemma close_closes_every_file_witness :
  let w := write_batches [1; 2; 3]%nat (init 2) in
  io_log (close w) = io_log w ++ concat (closing <$> _writer_pool w) /\
  open_handles (close w) = [] /\
  _writer_pool (close w) = _writer_pool w /\
  NoDup (closed_handles (close w)) /\
  closed_handles (close w) ≡ₚ opened_handles (close w).
Proof. apply (close_closes_every_file 2 [1; 2; 3]%nat). lia. Defined.

Lemma empty_pool_never_writes_witness :
  let w := write_batches [1; 2]%nat (init 0) in
  (write_batch 3%nat w).1 = Raise StopIteration /\
  _writer_pool w = [] /\
  written_handles w = [] /\
  closed_handles w = [] /\
  open_handles w = seq 0 (length [1; 2]%nat) /\
  open_handles (close w) = open_handles w.
Proof. apply (empty_pool_never_writes 0 [1; 2]%nat 3%nat). lia. Defined.

Lemma working_set_fits_witness :
  let w := write_batches [1; 2; 1; 2]%nat (init 2) in
  closed_handles w = [] /\
  opened_dates w ≡ₚ remove_dups [1; 2; 1; 2]%nat /\
  pool_dates w ≡ₚ remove_dups [1; 2; 1; 2]%nat.
Proof. apply (working_set_fits 2 [1; 2; 1; 2]%nat). vm_compute. discriminate. Defined.

End WriterFacts.

(** ** More on the partitioned reader: [daterange] of
       [sat_latency/_utils.py], [_files_from_date_range] of
       [sat_latency/pipeline/load.py] *)

Module ReaderFacts.
Import Reader.
Local Open Scope Z_scope.

Lemma DAY_pos : 0 < DAY.
Proof. reflexivity. Qed.

(** [len(range(0, stop, step))], for a step that is not zero *)
Definition range_length (stop step : Z) : Z :=
  if (0 <? step) && (0 <? stop) then 1 + (stop - 1) `div` step
  else if (step <? 0) && (stop <? 0) then 1 + (- 1 - stop) `div` (- step)
  else 0.

(** [range(0, stop, step)] *)
Definition py_range (stop step : Z) : list Z :=
  (fun i => i * step) <$> seqZ 0 (range_length stop step).

(** [day_step or 1] *)
Definition step_of (day_step : option Z) : Z :=
  match day_step with
  | Some s => if bool_decide (s = 0) then 1 else s
  | None => 1
  end.

(** [daterange] with its three arguments. *)
Definition daterange_step (now start_date : Z) (end_date day_step : option Z)
  : list Z :=
  let _max_date := default (now + DAY) end_date in
  (fun n => start_date + n * DAY)
    <$> py_range ((_max_date - start_date) `div` DAY + 1) (step_of day_step).

Lemma div_ge_iff (a b k : Z) : 0 < b -> (k <= a `div` b <-> k * b <= a).
Proof.
  intros Hb. split.
  - intros Hk. pose proof (Z.mul_div_le a b Hb). nia.
  - intros Hk. apply Z.div_le_lower_bound; lia.
Qed.

Lemma range_length_pos (stop step : Z) :
  1 <= step -> range_length stop step = if 0 <? stop then 1 + (stop - 1) `div` step else 0.
Proof.
  intros Hs. unfold range_length.
  destruct (Z.ltb_spec 0 step) as [_|]; [|lia].
  destruct (Z.ltb_spec step 0) as [|_]; [lia|].
  cbn. destruct (0 <? stop); reflexivity.
Qed.

Lemma py_range_one (stop : Z) : py_range stop 1 = seqZ 0 stop.
Proof.
  unfold py_range. rewrite range_length_pos by lia.
  destruct (Z.ltb_spec 0 stop) as [Hpos|Hneg].
  - rewrite Z.div_1_r. replace (1 + (stop - 1)) with stop by lia.
    rewrite <- (list_fmap_id (seqZ 0 stop)) at 2.
    apply list_fmap_ext. intros i x _. cbn. lia.
  - rewrite !seqZ_nil by lia. reflexivity.
Qed.

(** X8. The dates [daterange] yields, for a step that is not negative: they
    start at [start_date] and go up by the step (one day for a step of
    [None], 0 or 1); every such date that is not after the end date is
    yielded, and no other, so the range takes in both ends; it is empty
    exactly when the end date is before the start date. The end date is
    one day after [now] when none is given. *)
Theorem daterange_spec (now start_date : Z) (end_date day_step : option Z) :
  0 <= step_of day_step ->
  let step := step_of day_step in
  let _max_date := default (now + DAY) end_date in
  let l := daterange_step now start_date end_date day_step in
  (forall (i : nat) d, l !! i = Some d ->
     d = start_date + Z.of_nat i * step * DAY /\ start_date <= d <= _max_date) /\
  (forall k, 0 <= k -> start_date + k * step * DAY <= _max_date ->
     l !! Z.to_nat k = Some (start_date + k * step * DAY)) /\
  (l = [] <-> _max_date < start_date) /\
  (step = 1 -> l = daterange now start_date end_date).
Proof.
  intros Hstep step mx l.
  assert (Hs : 1 <= step).
  { unfold step, step_of in *. destruct day_step as [s|]; [|lia].
    destruct (bool_decide_reflect (s = 0)); lia. }
  pose proof DAY_pos as HD.
  set (n := (mx - start_date) `div` DAY).
  assert (Hn : forall k, k <= n <-> k * DAY <= mx - start_date)
    by (intros k; apply div_ge_iff; exact HD).
  assert (Hlen : range_length (n + 1) step = if 0 <=? n then 1 + n `div` step else 0).
  { rewrite range_length_pos by exact Hs.
    replace (n + 1 - 1) with n by lia.
    destruct (Z.ltb_spec 0 (n + 1)), (Z.leb_spec 0 n); lia. }
  assert (Hl : l = (fun i => start_date + i * step * DAY)
                     <$> seqZ 0 (range_length (n + 1) step)).
  { unfold l, daterange_step, py_range. fold mx. fold n. fold step.
    rewrite <- list_fmap_compose. reflexivity. }
  split; [|split; [|split]].
  - intros i d Hi. rewrite Hl, list_lookup_fmap in Hi.
    destruct (seqZ 0 (range_length (n + 1) step) !! i) as [j|] eqn:Hj; [|discriminate].
    apply lookup_seqZ in Hj as [-> Hlt]. cbn in Hi. injection Hi as <-.
    split; [f_equal; lia|].
    rewrite Hlen in Hlt. destruct (Z.leb_spec 0 n) as [Hn0|]; [|lia].
    assert (Hi1 : Z.of_nat i <= n `div` step) by lia.
    apply div_ge_iff in Hi1; [|lia].
    assert (Hi2 : Z.of_nat i * step * DAY <= mx - start_date) by (apply Hn; exact Hi1).
    nia.
  - intros k Hk Hle. rewrite Hl, list_lookup_fmap.
    assert (Hkn : k * step <= n) by (apply Hn; lia).
    assert (Hn0 : 0 <= n) by nia.
    assert (Hk1 : k <= n `div` step) by (apply div_ge_iff; lia).
    rewrite lookup_seqZ_lt.
    + cbn. f_equal. rewrite Z2Nat.id by exact Hk. lia.
    + rewrite Hlen. destruct (Z.leb_spec 0 n); lia.
  - rewrite Hl. split.
    + intros Hnil. apply (f_equal length) in Hnil.
      rewrite length_fmap, length_seqZ, Hlen in Hnil. cbn in Hnil.
      destruct (Z.leb_spec 0 n) as [Hn0|Hn0].
      * assert (0 <= n `div` step) by (apply Z.div_pos; lia). lia.
      * destruct (Z.lt_ge_cases mx start_date) as [|Hge]; [assumption|].
        assert (0 <= n) by (apply Hn; lia). lia.
    + intros Hlt. rewrite seqZ_nil; [reflexivity|].
      rewrite Hlen. destruct (Z.leb_spec 0 n) as [Hn0|Hn0]; [|lia].
      apply Hn in Hn0. lia.
  - intros H1. unfold l, daterange_step, daterange. fold mx. fold step.
    rewrite H1, py_range_one. reflexivity.
Qed.

Lemma daterange_spec_witness :
  let step := step_of (Some 2) in
  let _max_date := default (0 + DAY) (Some (5 * DAY + 7)) in
  let l := daterange_step 0 (DAY + 3) (Some (5 * DAY + 7)) (Some 2) in
  (forall (i : nat) d, l !! i = Some d ->
     d = (DAY + 3) + Z.of_nat i * step * DAY /\ DAY + 3 <= d <= _max_date) /\
  (forall k, 0 <= k -> (DAY + 3) + k * step * DAY <= _max_date ->
     l !! Z.to_nat k = Some ((DAY + 3) + k * step * DAY)) /\
  (l = [] <-> _max_date < DAY + 3) /\
  (step = 1 -> l = daterange 0 (DAY + 3) (Some (5 * DAY + 7))).
Proof.
  apply (daterange_spec 0 (DAY + 3) (Some (5 * DAY + 7)) (Some 2)).
  vm_compute. discriminate.
Defined.

(** The calendar days whose partition file the reader looks for. *)
Definition days_read (now date_start : Z) (date_end : option Z) : list Z :=
  (fun date => date `div` DAY) <$> daterange now date_start date_end.

Lemma days_read_seqZ (now date_start : Z) (date_end : option Z) :
  days_read now date_start date_end
  = seqZ (date_start `div` DAY)
      ((default (now + DAY) date_end - date_start) `div` DAY + 1).
Proof.
  unfold days_read, daterange. cbn zeta.
  rewrite <- list_fmap_compose.
  rewrite <- (Z.add_0_r (date_start `div` DAY)) at 1.
  rewrite <- fmap_add_seqZ.
  apply list_fmap_ext. intros i n _. cbn.
  rewrite Z.div_add by (pose proof DAY_pos; lia). reflexivity.
Qed.

(** X9. The files read for a date range are the partition files, where they
    exist, of consecutive calendar days, each day once, from the day of
    the start date on; a day that has no file is passed over. The day of
    the end date is among them only when the end date is not before the
    start date and its time of day is not before that of the start
    date: otherwise the last day read is the day before it. *)
Theorem partitions_read (files_on : Z -> option arrows_file)
    (now date_start : Z) (date_end : option Z) :
  let _max_date := default (now + DAY) date_end in
  let days := days_read now date_start date_end in
  _files_from_date_range files_on now date_start date_end = omap files_on days /\
  days = seqZ (date_start `div` DAY) ((_max_date - date_start) `div` DAY + 1) /\
  (_max_date `div` DAY ∈ days <->
     date_start <= _max_date /\ date_start `mod` DAY <= _max_date `mod` DAY) /\
  (date_start <= _max_date -> _max_date `mod` DAY < date_start `mod` DAY ->
     last days = Some (_max_date `div` DAY - 1)).
Proof.
  intros mx days. pose proof DAY_pos as HD.
  assert (Hdays := days_read_seqZ now date_start date_end). fold mx days in Hdays.
  assert (Hdiv : (mx - date_start) `div` DAY
                 = mx `div` DAY - date_start `div` DAY
                   - (if mx `mod` DAY <? date_start `mod` DAY then 1 else 0)).
  { pose proof (Z.div_mod mx DAY) as E1. pose proof (Z.div_mod date_start DAY) as E2.
    pose proof (Z.mod_pos_bound mx DAY HD) as B1.
    pose proof (Z.mod_pos_bound date_start DAY HD) as B2.
    destruct (Z.ltb_spec (mx `mod` DAY) (date_start `mod` DAY)) as [Hlt|Hge].
    - symmetry. apply (Z.div_unique _ _ _ (mx `mod` DAY - date_start `mod` DAY + DAY)); lia.
    - symmetry. apply (Z.div_unique _ _ _ (mx `mod` DAY - date_start `mod` DAY)); lia. }
  assert (Hle : date_start <= mx <-> 0 <= (mx - date_start) `div` DAY).
  { rewrite (div_ge_iff (mx - date_start) DAY 0 HD). lia. }
  split; [|split; [exact Hdays|split]].
  - unfold _files_from_date_range, days, days_read.
    generalize (daterange now date_start date_end) as l.
    induction l as [|d l IH]; [reflexivity|].
    cbn. rewrite IH. reflexivity.
  - rewrite Hdays, elem_of_seqZ.
    pose proof (Z.div_le_mono date_start mx DAY HD) as Hmono.
    destruct (Z.ltb_spec (mx `mod` DAY) (date_start `mod` DAY)) as [Hlt|Hge].
    + split; [lia|lia].
    + split; [intros [H1 H2]; split; [apply Hle; lia|exact Hge]|].
      intros [H1 _]. specialize (Hmono H1). lia.
  - intros H1 H2. rewrite Hdays.
    apply Hle in H1.
    destruct (Z.ltb_spec (mx `mod` DAY) (date_start `mod` DAY)) as [_|]; [|lia].
    set (n := (mx - date_start) `div` DAY) in *.
    replace (n + 1) with (Z.of_nat (S (Z.to_nat n))) by lia.
    rewrite seqZ_S, last_snoc. f_equal. lia.
Qed.

End ReaderFacts.

(** ** More on the fan-in tool: [amqpfind/amqpfind.py] *)

Module AmqpfindFacts.
Import Amqpfind.
Local Open Scope Z_scope.

(** *** The emitter and lookups that fail *)

Lemma foldl_apply_accessor_raise (e : exn) (accs : list accessor) :
  foldl apply_accessor (Raise e) accs = Raise e.
Proof. induction accs as [|a accs IH]; [reflexivity|exact IH]. Qed.

Lemma defaultdict_getitem_keeps (d : payload) (name n : string) (v : value) :
  d !! n = Some v -> (defaultdict_getitem d name).2 !! n = Some v.
Proof.
  intros Hn. unfold defaultdict_getitem.
  destruct (d !! name) eqn:E; [exact Hn|]. cbn [snd].
  rewrite lookup_insert_ne; [exact Hn|]. intros ->. congruence.
Qed.

Lemma format_map_missing_nested_key (pre : list segment) :
  forall (d : payload) name items k ks post,
  plain pre -> positional name = false ->
  d !! name = Some (VDict items) -> assoc k items = None ->
  format_map (pre ++ Field (mkRepl name (Key k :: ks)) :: post) d = Raise KeyError.
Proof.
  induction pre as [|seg pre IH]; intros d name items k ks post Hplain Hpos Hd Hk.
  - cbn [app format_map]. cbn [arg_name]. rewrite Hpos.
    unfold get_field, defaultdict_getitem. cbn [arg_name path].
    rewrite Hd. cbn [foldl]. unfold apply_accessor at 2. cbn.
    rewrite Hk. rewrite foldl_apply_accessor_raise. reflexivity.
  - apply Forall_cons in Hplain as [Hseg Hplain].
    destruct seg as [s|f]; cbn [app format_map].
    + rewrite (IH d name items k ks post Hplain Hpos Hd Hk). reflexivity.
    + destruct Hseg as [Hf Hseg]. rewrite Hf. unfold get_field.
      pose proof (defaultdict_getitem_keeps d (arg_name f) name _ Hd) as Hd'.
      destruct (defaultdict_getitem d (arg_name f)) as [obj d']. cbn [snd] in Hd'.
      rewrite Hseg. cbn [foldl mbind outcome_bind].
      rewrite (IH d' name items k ks post Hplain Hpos Hd' Hk). reflexivity.
Qed.

(** X10. A lookup [{name[k]...}] into a dict of the payload that has no key
    [k] does not stop the program: nothing is written for the message,
    the failure is logged, standard output is flushed and [json_emit]
    returns, whatever comes later in the template. Here [name] is a
    key name, not a positional field, and the fields before it are plain
    ones. No [KeyError] ever leaves [json_emit]; any other exception of
    the formatting, as the [ValueError] of a positional field, leaves
    it before anything is written or flushed. *)
Theorem json_emit_skips_on_key_error (topic : string) (content : payload)
    (pre post : list segment) (name k : string) (ks : list accessor)
    (items : list (string * value)) :
  plain pre -> positional name = false ->
  content !! name = Some (VDict items) -> assoc k items = None ->
  json_emit topic content
    (Some (FmtTemplate (pre ++ Field (mkRepl name (Key k :: ks)) :: post)))
    = ([LogError "skipping message, missing key"; StdoutFlush], Ok tt) /\
  (forall fmt, (json_emit topic content fmt).2 <> Raise KeyError) /\
  (forall fmt e, (json_emit topic content fmt).2 = Raise e ->
     (json_emit topic content fmt).1 = []).
Proof.
  intros Hplain Hpos Hname Hk. split; [|split].
  - unfold json_emit.
    rewrite (format_map_missing_nested_key pre content name items k ks post
               Hplain Hpos Hname Hk).
    reflexivity.
  - intros fmt. unfold json_emit.
    destruct fmt as [[| |t]|]; try discriminate.
    destruct (format_map t content) as [s|[]]; discriminate.
  - intros fmt e. unfold json_emit.
    destruct fmt as [[| |t]|]; try discriminate.
    destruct (format_map t content) as [s|[]]; try discriminate; reflexivity.
Qed.

Lemma json_emit_skips_on_key_error_witness :
  json_emit "t" {[ "sat" := VStr "G16"; "meta" := VDict [("band", VInt 2)] ]}
    (Some (FmtTemplate ([Field (mkRepl "sat" []); Literal " "]
                        ++ Field (mkRepl "meta" (Key "name" :: [Index 0]))
                        :: [Literal "!"])))
    = ([LogError "skipping message, missing key"; StdoutFlush], Ok tt) /\
  (forall fmt,
     (json_emit "t" {[ "sat" := VStr "G16"; "meta" := VDict [("band", VInt 2)] ]} fmt).2
     <> Raise KeyError) /\
  (forall fmt e,
     (json_emit "t" {[ "sat" := VStr "G16"; "meta" := VDict [("band", VInt 2)] ]} fmt).2
       = Raise e ->
     (json_emit "t" {[ "sat" := VStr "G16"; "meta" := VDict [("band", VInt 2)] ]} fmt).1
       = []).
Proof.
  apply (json_emit_skips_on_key_error "t"
           {[ "sat" := VStr "G16"; "meta" := VDict [("band", VInt 2)] ]}
           [Field (mkRepl "sat" []); Literal " "] [Literal "!"]
           "meta" "name" [Index 0] [("band", VInt 2)]).
  - repeat constructor.
  - reflexivity.
  - reflexivity.
  - reflexivity.
Defined.

(** *** The debug dump lists the keys in order *)

Lemma ascii_compare_trans (a b c : ascii) (o : comparison) :
  Ascii.compare a b = o -> Ascii.compare b c = o -> Ascii.compare a c = o.
Proof.
  unfold Ascii.compare. intros H1 H2. destruct o.
  - apply N.compare_eq_iff in H1, H2. apply N.compare_eq_iff. congruence.
  - rewrite N.compare_lt_iff in *. lia.
  - rewrite N.compare_gt_iff in *. lia.
Qed.

Lemma ascii_compare_eq (a b : ascii) : Ascii.compare a b = Eq -> a = b.
Proof.
  unfold Ascii.compare. intros H. apply N.compare_eq_iff in H.
  rewrite <- (ascii_N_embedding a), <- (ascii_N_embedding b). congruence.
Qed.

Lemma string_compare_lt_trans (s1 : string) : forall s2 s3,
  String.compare s1 s2 = Lt -> String.compare s2 s3 = Lt ->
  String.compare s1 s3 = Lt.
Proof.
  induction s1 as [|c1 s1 IH]; intros [|c2 s2] [|c3 s3]; cbn; try congruence.
  destruct (Ascii.compare c1 c2) eqn:E12; destruct (Ascii.compare c2 c3) eqn:E23;
    try congruence; intros H1 H2.
  - apply ascii_compare_eq in E12, E23. subst.
    assert (E : Ascii.compare c3 c3 = Eq) by (unfold Ascii.compare; apply N.compare_refl).
    rewrite E. apply (IH s2 s3 H1 H2).
  - apply ascii_compare_eq in E12. subst. rewrite E23. reflexivity.
  - apply ascii_compare_eq in E23. subst. rewrite E12. reflexivity.
  - rewrite (ascii_compare_trans c1 c2 c3 Lt E12 E23). reflexivity.
Qed.

Lemma string_leb_trans (s1 s2 s3 : string) :
  String.leb s1 s2 = true -> String.leb s2 s3 = true -> String.leb s1 s3 = true.
Proof.
  unfold String.leb.
  destruct (String.compare s1 s2) eqn:E12; [|intros _|discriminate].
  - apply String.compare_eq_iff in E12. subst. intros _ H. exact H.
  - destruct (String.compare s2 s3) eqn:E23; [|intros _|discriminate].
    + apply String.compare_eq_iff in E23. subst. rewrite E12. reflexivity.
    + rewrite (string_compare_lt_trans s1 s2 s3 E12 E23). reflexivity.
Qed.

#[local] Instance key_le_trans : Transitive key_le.
Proof. intros a b c. unfold key_le. apply string_leb_trans. Qed.

#[local] Instance key_le_total : Total key_le.
Proof. intros a b. unfold key_le. apply String.leb_total. Qed.

(** X11. With [-j '?'] a message is dumped key by key: every key of the
    payload is listed exactly once with its value, and the keys come in
    ascending order. *)
Theorem pretty_dump_lists_keys_in_order (topic : string) (content : payload) :
  exists items,
    json_emit topic content (Some FmtPretty)
      = ([Stdout (PrettyDump items); StdoutFlush], Ok tt) /\
    (forall k v, (k, v) ∈ items <-> content !! k = Some v) /\
    NoDup items.*1 /\
    StronglySorted (fun a b => String.leb a b = true) items.*1.
Proof.
  exists (sorted_items content). split; [reflexivity|].
  assert (Hperm : sorted_items content ≡ₚ map_to_list content)
    by apply merge_sort_Permutation.
  split; [|split].
  - intros k v. rewrite Hperm. apply elem_of_map_to_list.
  - rewrite Hperm. apply NoDup_fst_map_to_list.
  - assert (Hs : StronglySorted key_le (sorted_items content))
      by (apply StronglySorted_merge_sort; apply _).
    clear Hperm. induction Hs as [|a l Hs IH Hall]; [constructor|].
    rewrite fmap_cons. constructor; [exact IH|].
    apply Forall_fmap. eapply Forall_impl; [exact Hall|].
    intros b Hab. exact Hab.
Qed.

(** *** Making the transforms: [Transforms.__init__] and [Transforms.add] *)

(** [s.split(sep)] for a separator of one character: the pieces between
    the separators, at least one. *)
Fixpoint split_on (sep : ascii) (s : string) : list string :=
  match s with
  | EmptyString => [""]
  | String c s' =>
      if Ascii.eqb c sep then "" :: split_on sep s'
      else match split_on sep s' with
           | piece :: pieces => String c piece :: pieces
           | [] => [String c ""]
           end
  end.

(** [c.isspace()], for the characters below 256 *)
Definition isspace (c : ascii) : bool :=
  let n := nat_of_ascii c in
  ((9 <=? n)%nat && (n <=? 13)%nat) || ((28 <=? n)%nat && (n <=? 32)%nat)
  || (n =? 133)%nat || (n =? 160)%nat.

Fixpoint lstrip (s : string) : string :=
  match s with
  | EmptyString => ""
  | String c s' => if isspace c then lstrip s' else s
  end.

(** [s.rstrip()]: a character goes when it is white space and all that
    follows it has gone. *)
Fixpoint rstrip (s : string) : string :=
  match s with
  | EmptyString => ""
  | String c s' =>
      match rstrip s' with
      | EmptyString => if isspace c then "" else String c ""
      | rest => String c rest
      end
  end.

(** [s.strip()] *)
Definition strip (s : string) : string := rstrip (lstrip s).

Section MakeTransforms.

(** [compile(transform, '<string>', 'eval')]: the code object of an
    expression, or the exception for a text that is not one. *)
Variable compile : string -> outcome (expr value).

(** [Transforms.add] *)
Definition Transforms_add (t : Transforms) (key : string)
    (transform : option string) : outcome Transforms :=
  kt ← match transform with
       | Some transform => Ok (key, transform)
       | None =>
           match split_on "=" key with
           | [key; transform] => Ok (strip key, strip transform)
           | _ => Raise ValueError
           end
       end;
  code ← compile kt.2;
  Ok (mkTransforms (_trans t ++ [(kt.1, code)])).

(** [Transforms.__init__], for the list given with [-T] *)
Definition Transforms_init (transforms : option (list string)) : outcome Transforms :=
  foldl (fun acc t => tr ← acc; Transforms_add tr t None)
    (Ok (mkTransforms [])) (default [] transforms).

Definition count_char (c : ascii) (s : string) : nat :=
  length (List.filter (Ascii.eqb c) (list_ascii_of_string s)).

Lemma split_on_not_nil sep s : split_on sep s <> [].
Proof.
  destruct s as [|c s]; cbn; [discriminate|].
  destruct (Ascii.eqb c sep); [discriminate|].
  destruct (split_on sep s); discriminate.
Qed.

Lemma split_on_length sep s :
  length (split_on sep s) = S (count_char sep s).
Proof.
  unfold count_char. induction s as [|c s IH]; [reflexivity|].
  cbn [split_on list_ascii_of_string List.filter].
  rewrite (Ascii.eqb_sym sep c).
  destruct (Ascii.eqb c sep); cbn [length].
  - rewrite IH. reflexivity.
  - pose proof (split_on_not_nil sep s) as Hne.
    destruct (split_on sep s) as [|p ps]; [congruence|]. exact IH.
Qed.

Lemma split_on_none sep s :
  count_char sep s = 0%nat -> split_on sep s = [s].
Proof.
  unfold count_char. induction s as [|c s IH]; [reflexivity|].
  cbn [split_on list_ascii_of_string List.filter].
  rewrite (Ascii.eqb_sym sep c).
  destruct (Ascii.eqb c sep); cbn [length]; [discriminate|].
  intros H0. rewrite (IH H0). reflexivity.
Qed.

Lemma split_on_app sep a b :
  count_char sep a = 0%nat ->
  split_on sep (a +:+ String sep b) = a :: split_on sep b.
Proof.
  unfold count_char. induction a as [|c a IH].
  - intros _. change ("" +:+ String sep b) with (String sep b).
    cbn [split_on]. rewrite Ascii.eqb_refl. reflexivity.
  - change (String c a +:+ String sep b) with (String c (a +:+ String sep b)).
    cbn [split_on list_ascii_of_string List.filter].
    rewrite (Ascii.eqb_sym sep c).
    destruct (Ascii.eqb c sep); cbn [length]; [discriminate|].
    intros H0. rewrite (IH H0). reflexivity.
Qed.

(** X12. A transform is given as [key=expression]. The text is cut at every
    [=]: with exactly one [=] the key is what comes before it and the
    expression what comes after it, both without the white space around
    them, and the expression is compiled; with no [=], or with more
    than one (as in an expression that compares with [==] or passes a
    keyword argument), [add] raises [ValueError], whatever the
    expression. [__init__] stops at the first transform that fails. *)
Theorem transforms_add_needs_one_equals (t : Transforms) :
  (forall k e, count_char "=" k = 0%nat -> count_char "=" e = 0%nat ->
     Transforms_add t (k +:+ String "=" e) None
     = match compile (strip e) with
       | Ok code => Ok (mkTransforms (_trans t ++ [(strip k, code)]))
       | Raise x => Raise x
       end) /\
  (forall s, count_char "=" s <> 1%nat ->
     Transforms_add t s None = Raise ValueError) /\
  (forall s rest, count_char "=" s <> 1%nat ->
     Transforms_init (Some (s :: rest)) = Raise ValueError).
Proof.
  split; [|split].
  - intros k e Hk He. unfold Transforms_add.
    rewrite (split_on_app "=" k e Hk), (split_on_none "=" e He).
    cbn. destruct (compile (strip e)); reflexivity.
  - intros s Hs. unfold Transforms_add.
    pose proof (split_on_length "=" s) as Hlen.
    destruct (split_on "=" s) as [|a [|b [|c l]]]; cbn [length] in Hlen;
      try reflexivity.
    exfalso. apply Hs. lia.
  - intros s rest Hs. unfold Transforms_init.
    change (foldl (fun acc t0 => tr ← acc; Transforms_add tr t0 None)
              (Transforms_add (mkTransforms []) s None) rest = Raise ValueError).
    assert (Hadd : Transforms_add (mkTransforms []) s None = Raise ValueError).
    { unfold Transforms_add.
      pose proof (split_on_length "=" s) as Hlen.
      destruct (split_on "=" s) as [|a [|b [|c l]]]; cbn [length] in Hlen;
        try reflexivity.
      exfalso. apply Hs. lia. }
    rewrite Hadd.
    induction rest as [|r rest IH]; [reflexivity|exact IH].
Qed.

End MakeTransforms.

Example transforms_add_examples :
  let compile := fun text : string => Ok (fun _ : payload => Ok (VStr text)) in
  Transforms_init compile (Some [" path = path.upper() "])
    = Ok (mkTransforms [("path", fun _ => Ok (VStr "path.upper()"))]) /\
  Transforms_init compile (Some ["ok = a == b"]) = Raise ValueError /\
  Transforms_init compile (Some ["path"]) = Raise ValueError /\
  strip (String "009" " a b " +:+ String "010" "") = "a b".
Proof. vm_compute. repeat split; reflexivity. Qed.

(** *** Applying the transforms *)

Lemma transforms_loop_ok (trans : list (string * expr value)) :
  forall (old_msg new_msg out : payload),
  transforms_loop trans old_msg new_msg = Ok out ->
  (forall k, k ∉ trans.*1 -> out !! k = new_msg !! k) /\
  (forall pre k code post, trans = pre ++ (k, code) :: post -> k ∉ post.*1 ->
     exists v, code old_msg = Ok v /\ out !! k = Some v).
Proof.
  induction trans as [|[key c] trans IH]; intros old_msg new_msg out Hout.
  - cbn in Hout. injection Hout as <-. split; [reflexivity|].
    intros [|? pre] k code post Heq; discriminate Heq.
  - cbn [transforms_loop] in Hout.
    destruct (c old_msg) as [v|x] eqn:Hc; [|discriminate].
    cbn [mbind outcome_bind] in Hout.
    destruct (IH old_msg _ out Hout) as [H1 H2]. split.
    + intros k Hk. rewrite fmap_cons in Hk. apply not_elem_of_cons in Hk as [Hne Hk].
      rewrite (H1 k Hk). apply lookup_insert_ne. cbn in Hne. congruence.
    + intros [|[k0 c0] pre] k code post Heq Hk.
      * cbn in Heq. injection Heq as -> -> ->.
        exists v. split; [exact Hc|].
        rewrite (H1 k Hk). apply lookup_insert_eq.
      * cbn in Heq. injection Heq as -> -> ->.
        apply (H2 pre k code post eq_refl Hk).
Qed.

(** X13. Every transform reads the message as it was before any of them was
    applied. When [Transforms.__call__] returns, a key that no transform
    names has the value it had, and a key that transforms name has the
    value that the last of them gives on the message as it came in. *)
Theorem transforms_read_the_incoming_message (t : Transforms) (msg out : payload) :
  Transforms_call t msg = Ok out ->
  (forall k, k ∉ (_trans t).*1 -> out !! k = msg !! k) /\
  (forall pre k code post,
     _trans t = pre ++ (k, code) :: post -> k ∉ post.*1 ->
     exists v, code msg = Ok v /\ out !! k = Some v).
Proof. intros Hout. apply (transforms_loop_ok (_trans t) msg msg out Hout). Qed.

Definition swap_a_b : Transforms :=
  mkTransforms [ ("a", fun m => Ok (default VNone (m !! "b")));
                 ("b", fun m => Ok (default VNone (m !! "a"))) ].

Lemma transforms_read_the_incoming_message_witness :
  (forall k, k ∉ (_trans swap_a_b).*1 ->
     ({[ "a" := VInt 2; "b" := VInt 1 ]} : payload) !! k
     = ({[ "a" := VInt 1; "b" := VInt 2 ]} : payload) !! k) /\
  (forall pre k code post,
     _trans swap_a_b = pre ++ (k, code) :: post -> k ∉ post.*1 ->
     exists v, code {[ "a" := VInt 1; "b" := VInt 2 ]} = Ok v /\
               ({[ "a" := VInt 2; "b" := VInt 1 ]} : payload) !! k = Some v).
Proof.
  apply (transforms_read_the_incoming_message swap_a_b
           {[ "a" := VInt 1; "b" := VInt 2 ]} {[ "a" := VInt 2; "b" := VInt 1 ]}).
  vm_compute. reflexivity.
Defined.

(** *** Metadata of an emitted message *)

Section Metadata.
Context {Key : Type} `{EqDecision Key}.
Variable isoformat : Z -> string.

(** [queue_callback] of [worker_main]: what a worker puts on the queue
    for a message with the body [json_dict], received at [now] from
    [host]; [id] is the identity of the dict that is made. The keys of
    the body replace the two defaults. *)
Definition queue_callback (now : Z) (host : string) (id : nat)
    (routing_key : string) (json_dict : payload) : entry :=
  let content : payload :=
    json_dict ∪ {[ "__reception_time__" := VStr (isoformat now);
                   "__reception_host__" := VStr host ]} in
  mkEntry now host routing_key (mkMessage id content).

Lemma add_default_metadata_lookup (d : Dispatcher (Key := Key)) (now : Z)
    (topic : string) (msg : payload) (k : string) :
  add_default_metadata isoformat d now topic msg !! k =
    match msg !! k with
    | Some v => Some v
    | None =>
        if decide (k = "__topic__") then Some (VStr topic)
        else if decide (k = "__reception_time__") then Some (VStr (isoformat now))
        else extra_default_payload d !! k
    end.
Proof.
  unfold add_default_metadata.
  set (m1 := match msg !! "__topic__" with
             | Some _ => msg
             | None => <["__topic__" := VStr topic]> msg
             end).
  set (m2 := match m1 !! "__reception_time__" with
             | Some _ => m1
             | None => <["__reception_time__" := VStr (isoformat now)]> m1
             end).
  assert (H1 : m1 !! k = match msg !! k with
                         | Some v => Some v
                         | None => if decide (k = "__topic__") then Some (VStr topic)
                                   else None
                         end).
  { unfold m1. destruct (decide (k = "__topic__")) as [->|Hne].
    - destruct (msg !! "__topic__") eqn:E; [rewrite E; reflexivity|].
      rewrite lookup_insert_eq. reflexivity.
    - destruct (msg !! "__topic__") eqn:E.
      + destruct (msg !! k); reflexivity.
      + rewrite lookup_insert_ne by congruence. destruct (msg !! k); reflexivity. }
  assert (H2 : m2 !! k = match m1 !! k with
                         | Some v => Some v
                         | None => if decide (k = "__reception_time__")
                                   then Some (VStr (isoformat now)) else None
                         end).
  { unfold m2. destruct (decide (k = "__reception_time__")) as [->|Hne].
    - destruct (m1 !! "__reception_time__") eqn:E; [rewrite E; reflexivity|].
      rewrite lookup_insert_eq. reflexivity.
    - destruct (m1 !! "__reception_time__") eqn:E.
      + destruct (m1 !! k); reflexivity.
      + rewrite lookup_insert_ne by congruence. destruct (m1 !! k); reflexivity. }
  rewrite lookup_union, H2, H1.
  destruct (msg !! k) as [v|]; [destruct (extra_default_payload d !! k); reflexivity|].
  destruct (decide (k = "__topic__")) as [->|Hne].
  - destruct (extra_default_payload d !! "__topic__"); reflexivity.
  - destruct (decide (k = "__reception_time__")) as [->|Hne2].
    + destruct (extra_default_payload d !! "__reception_time__"); reflexivity.
    + destruct (extra_default_payload d !! k); reflexivity.
Qed.

(** The keys that the transforms of [d] assign. *)
Definition transformed_keys (d : Dispatcher (Key := Key)) : list string :=
  match transforms d with
  | Some t => (_trans t).*1
  | None => []
  end.

(** What the transforms of [d] make of [msg], when there are some. *)
Definition transformed (d : Dispatcher (Key := Key)) (msg : payload)
  : outcome payload :=
  match transforms d with
  | Some t => Transforms_call t msg
  | None => Ok msg
  end.

Lemma transformed_lookup (d : Dispatcher (Key := Key)) (msg msg' : payload) (k : string) :
  transformed d msg = Ok msg' -> k ∉ transformed_keys d -> msg' !! k = msg !! k.
Proof.
  unfold transformed, transformed_keys. destruct (transforms d) as [t|].
  - intros Hout Hk.
    apply (proj1 (transforms_loop_ok (_trans t) msg msg msg' Hout) k Hk).
  - intros [= <-] _. reflexivity.
Qed.

(** X14. What the dispatcher adds to a message never replaces what is there.
    [add_default_metadata] keeps every key of the message with its
    value, and gives the topic and the time of the call only to a
    message that has no [__topic__], no [__reception_time__]. So for a
    message that came through a worker, the message with its defaults
    has the reception time and the host that the worker noted, however
    long the dispatcher held it, unless the body had these keys itself,
    and the keys of the body are as they came. [emit] gives this message
    to the transforms, if there are any, and what they return to the
    callback or else to [json_emit]: there every key that no transform
    assigns is as in the message with its defaults, so the worker's
    reception time and host are passed on unless a transform assigns
    them. When a transform raises, nothing is passed on. *)
Theorem emitted_metadata_is_the_workers (d : Dispatcher (Key := Key))
    (when now : Z) (host : string) (id : nat) (routing_key : string)
    (body msg : payload) (topic : string) :
  let e := queue_callback when host id routing_key body in
  let out := add_default_metadata isoformat d now (e_routing_key e) (content (e_msg e)) in
  let prelude := emit_prelude d (e_routing_key e) (content (e_msg e)) in
  msg ⊆ add_default_metadata isoformat d now topic msg /\
  body ⊆ out /\
  out !! "__reception_time__"
    = Some (default (VStr (isoformat when)) (body !! "__reception_time__")) /\
  out !! "__reception_host__"
    = Some (default (VStr host) (body !! "__reception_host__")) /\
  out !! "__topic__" = Some (default (VStr routing_key) (body !! "__topic__")) /\
  (forall passed, transformed d out = Ok passed ->
     emit isoformat d now (e_routing_key e) (content (e_msg e))
     = match callback d with
       | Some cb => (prelude ++ [Called routing_key passed], cb routing_key passed)
       | None =>
           (prelude ++ (json_emit routing_key passed (json_format_str d)).1,
            (json_emit routing_key passed (json_format_str d)).2)
       end /\
     (forall k, k ∉ transformed_keys d -> passed !! k = out !! k) /\
     (forall k v, body !! k = Some v -> k ∉ transformed_keys d ->
        passed !! k = Some v) /\
     ("__reception_time__" ∉ transformed_keys d ->
        passed !! "__reception_time__"
        = Some (default (VStr (isoformat when)) (body !! "__reception_time__"))) /\
     ("__reception_host__" ∉ transformed_keys d ->
        passed !! "__reception_host__"
        = Some (default (VStr host) (body !! "__reception_host__")))) /\
  (forall x, transformed d out = Raise x ->
     emit isoformat d now (e_routing_key e) (content (e_msg e)) = (prelude, Raise x)).
Proof.
  intros e out prelude.
  assert (Hsub : forall t (m : payload), m ⊆ add_default_metadata isoformat d now t m).
  { intros t m. apply map_subseteq_spec. intros k v Hk.
    rewrite add_default_metadata_lookup, Hk. reflexivity. }
  assert (Hc : forall k, content (e_msg e) !! k =
             match body !! k with
             | Some v => Some v
             | None => ({[ "__reception_time__" := VStr (isoformat when);
                           "__reception_host__" := VStr host ]} : payload) !! k
             end).
  { intros k. unfold e, queue_callback. cbn [e_msg content].
    rewrite lookup_union. destruct (body !! k); destruct (_ !! k); reflexivity. }
  assert (Hbody : body ⊆ out).
  { etransitivity; [|apply Hsub]. unfold e, queue_callback. cbn [e_msg content].
    apply map_union_subseteq_l. }
  assert (Htime : out !! "__reception_time__"
            = Some (default (VStr (isoformat when)) (body !! "__reception_time__"))).
  { unfold out. rewrite add_default_metadata_lookup, Hc.
    destruct (body !! "__reception_time__"); reflexivity. }
  assert (Hhost : out !! "__reception_host__"
            = Some (default (VStr host) (body !! "__reception_host__"))).
  { unfold out. rewrite add_default_metadata_lookup, Hc.
    destruct (body !! "__reception_host__"); reflexivity. }
  split; [apply Hsub|]. split; [exact Hbody|].
  split; [exact Htime|]. split; [exact Hhost|].
  split; [|split].
  - unfold out. rewrite add_default_metadata_lookup, Hc.
    destruct (body !! "__topic__"); reflexivity.
  - intros passed Hp.
    assert (Hkeep : forall k, k ∉ transformed_keys d -> passed !! k = out !! k).
    { intros k Hk. apply (transformed_lookup d out passed k Hp Hk). }
    split; [|split; [exact Hkeep|split; [|split]]].
    + rewrite emit_unfold. fold out. unfold transformed in Hp.
      change (match transforms d with
              | Some t => Transforms_call t out
              | None => Ok out
              end) with (transformed d out).
      unfold transformed. rewrite Hp. reflexivity.
    + intros k v Hk Hn. rewrite (Hkeep k Hn).
      apply (lookup_weaken body out k v Hk Hbody).
    + intros Hn. rewrite (Hkeep _ Hn). exact Htime.
    + intros Hn. rewrite (Hkeep _ Hn). exact Hhost.
  - intros x Hx. rewrite emit_unfold. fold out.
    unfold transformed in Hx. rewrite Hx. reflexivity.
Qed.

End Metadata.

(** A message held for 5 s: the callback gets the reception time that
    the worker noted; with a transform that assigns
    [__reception_time__] it gets what the transform gives. *)
Example callback_gets_reception_time :
  let e := queue_callback (fun t => if t =? 0 then "received" else "emitted")
             0 "mq1" 1 "geo.g16" {[ "sat" := VStr "G16" ]} in
  let d := fun tr : list (string * expr value) =>
    Dispatcher_init (Key := string) (Some (mkTransforms tr))
      (mkOptions 0 None None None None (Some (fun _ _ => Ok tt)) []) ∅ in
  let passed := fun tr =>
    omap (fun ev => match ev with
                    | Called _ m => Some (m !! "__reception_time__")
                    | _ => None
                    end)
      (emit (fun t => if t =? 0 then "received" else "emitted") (d tr) 5000000
         (e_routing_key e) (content (e_msg e))).1 in
  passed [("sat", fun _ => Ok (VStr "G17"))] = [Some (VStr "received")] /\
  passed [("__reception_time__", fun _ => Ok (VStr "now"))] = [Some (VStr "now")].
Proof. vm_compute. split; reflexivity. Qed.

(** *** The alarm and the emits *)

(** The calls of [alarm] among some events. *)
Definition alarms (evs : list event) : list Z :=
  omap (fun ev => match ev with Alarm n => Some n | _ => None end) evs.

(** One [alarm(t)] for each emit when the timeout is [t], none when
    there is no timeout. *)
Definition alarmed (t : option Z) (evs : list event) : Prop :=
  alarms evs = match t with
               | Some t => (fun _ => t) <$> emits evs
               | None => []
               end.

Definition quiet (evs : list event) : Prop := alarms evs = [] /\ emits evs = [].

Lemma alarms_app (a b : list event) : alarms (a ++ b) = alarms a ++ alarms b.
Proof. apply omap_app. Qed.

Lemma quiet_alarmed t evs : quiet evs -> alarmed t evs.
Proof. intros [Ha He]. unfold alarmed. rewrite Ha, He. destruct t; reflexivity. Qed.

Lemma alarmed_app t a b : alarmed t a -> alarmed t b -> alarmed t (a ++ b).
Proof.
  unfold alarmed. intros Ha Hb. rewrite alarms_app, Ha, Hb.
  destruct t as [t|]; [|reflexivity]. rewrite emits_app, fmap_app. reflexivity.
Qed.

Lemma quiet_app a b : quiet a -> quiet b -> quiet (a ++ b).
Proof.
  intros [A1 A2] [B1 B2]. split.
  - rewrite alarms_app, A1, B1. reflexivity.
  - rewrite emits_app, A2, B2. reflexivity.
Qed.

Lemma quiet_nil : quiet [].
Proof. split; reflexivity. Qed.

Lemma bind_alarmed {A B : Type} t (m : act A) (k : A -> act B) :
  alarmed t m.1 -> (forall a, m.2 = Ok a -> alarmed t (k a).1) ->
  alarmed t (m ≫= k).1.
Proof.
  destruct m as [evs [a|x]]; unfold mbind, act_bind; cbn [fst snd]; intros Hm Hk.
  - apply alarmed_app; [exact Hm|]. apply Hk. reflexivity.
  - exact Hm.
Qed.

Lemma bind_quiet {A B : Type} (m : act A) (k : A -> act B) :
  quiet m.1 -> (forall a, m.2 = Ok a -> quiet (k a).1) -> quiet (m ≫= k).1.
Proof.
  destruct m as [evs [a|x]]; unfold mbind, act_bind; cbn [fst snd]; intros Hm Hk.
  - apply quiet_app; [exact Hm|]. apply Hk. reflexivity.
  - exact Hm.
Qed.

Lemma bind_result {A B : Type} (m : act A) (k : A -> act B) (b : B) :
  (m ≫= k).2 = Ok b -> exists a, m.2 = Ok a /\ (k a).2 = Ok b.
Proof.
  destruct m as [evs [a|x]]; unfold mbind, act_bind; cbn [fst snd]; intros Hb.
  - exists a. split; [reflexivity|exact Hb].
  - discriminate Hb.
Qed.

Lemma quiet_json_emit topic content fmt : quiet (json_emit topic content fmt).1.
Proof.
  unfold json_emit. destruct fmt as [[| |t]|]; try (split; reflexivity).
  destruct (format_map t content) as [s0|[]]; split; reflexivity.
Qed.

Section DispatcherFacts.
Context {Key : Type} `{EqDecision Key}.
Variable isoformat : Z -> string.
Variable random_shuffle : nat -> list message -> list message.

Abbreviation D := (Dispatcher (Key := Key)).

Lemma alarmed_emit (d : D) now topic msg :
  alarmed (timeout d) (emit isoformat d now topic msg).1.
Proof.
  rewrite emit_unfold.
  assert (Hp : alarmed (timeout d) (emit_prelude d topic msg)).
  { unfold alarmed, emit_prelude. destruct (timeout d); reflexivity. }
  destruct (match transforms d with Some _ => _ | None => _ end) as [msg'|e];
    [|exact Hp].
  destruct (callback d) as [cb|]; cbn [fst].
  - apply alarmed_app; [exact Hp|]. apply quiet_alarmed. split; reflexivity.
  - apply alarmed_app; [exact Hp|]. apply quiet_alarmed, quiet_json_emit.
Qed.

Lemma quiet_key_for_msg (d : D) msg : quiet (key_for_msg d msg).1.
Proof.
  unfold key_for_msg. destruct (key_code d) as [code|]; [|apply quiet_nil].
  destruct (code msg); split; reflexivity.
Qed.

Lemma quiet_score_for_msg (d : D) msg : quiet (score_for_msg d msg).1.
Proof.
  unfold score_for_msg. destruct (score_code d) as [| |code]; try apply quiet_nil.
  destruct (code msg); split; reflexivity.
Qed.

Lemma quiet_compare (d : D) a b : quiet (compare d a b).1.
Proof.
  unfold compare. destruct (compare_lambda d) as [cmp|]; [apply quiet_nil|].
  apply bind_quiet; [apply quiet_score_for_msg|]. intros s1 _.
  apply bind_quiet; [apply quiet_score_for_msg|]. intros s2 _.
  apply bind_quiet; [apply quiet_nil|]. intros b0 _. apply quiet_nil.
Qed.

Lemma quiet_reduce (d : D) (l : list message) : quiet (reduce (compare d) l).1.
Proof.
  unfold reduce. destruct l as [|x l]; [apply quiet_nil|].
  assert (Hgen : forall acc : act message, quiet acc.1 ->
            quiet (foldl (fun acc y => a ← acc; compare d a y) acc l).1).
  { induction l as [|y l IH]; intros acc Hacc; [exact Hacc|].
    cbn [foldl]. apply IH. apply bind_quiet; [exact Hacc|].
    intros a _. apply quiet_compare. }
  apply Hgen. apply quiet_nil.
Qed.

Lemma quiet_choose_msg (d : D) (l : list message) :
  quiet (choose_msg random_shuffle d l).1.
Proof.
  unfold choose_msg. destruct (score_code d); try apply quiet_reduce.
  apply bind_quiet; [split; reflexivity|]. intros _ _.
  destruct (if shuffle d then _ else _); apply quiet_nil.
Qed.

Lemma next_rng_shuffle_timeout (d : D) :
  timeout (if shuffle d then next_rng d else d) = timeout d.
Proof. destruct (shuffle d); reflexivity. Qed.

Lemma alarmed_dismiss (d : D) now key :
  alarmed (timeout d) (_dismiss_active_key isoformat random_shuffle d now key).1 /\
  (forall d', (_dismiss_active_key isoformat random_shuffle d now key).2 = Ok d' ->
     timeout d' = timeout d).
Proof.
  unfold _dismiss_active_key.
  destruct (msg_buffer d) as [buf|]; [|split; [apply quiet_alarmed, quiet_nil|]].
  2: { intros d' [= <-]. reflexivity. }
  destruct (default [] (dict_get key buf)) as [|c cs].
  - split; [apply quiet_alarmed; split; reflexivity|].
    intros d' [= <-]. reflexivity.
  - set (d1 := set_msg_buffer (Some (dict_del key buf)) d).
    set (d2 := if shuffle d1 then next_rng d1 else d1).
    assert (Ht : timeout d2 = timeout d).
    { unfold d2. rewrite next_rng_shuffle_timeout. reflexivity. }
    split.
    + apply bind_alarmed; [apply quiet_alarmed, quiet_choose_msg|].
      intros winner _.
      destruct (dict_get (msg_id winner) _) as [[host rk]|];
        [|apply quiet_alarmed, quiet_nil].
      apply bind_alarmed; [rewrite <- Ht; apply alarmed_emit|].
      intros _ _. apply quiet_alarmed, quiet_nil.
    + intros d' Hd'. apply bind_result in Hd' as (winner & _ & Hd').
      destruct (dict_get (msg_id winner) _) as [[host rk]|]; [|discriminate].
      apply bind_result in Hd' as (u & _ & Hd'). injection Hd' as <-. exact Ht.
Qed.

Lemma alarmed_clean_loop now (items : list (option Key * Z)) :
  forall (d : D) delset,
  alarmed (timeout d) (clean_loop isoformat random_shuffle d now items delset).1 /\
  (forall d' ds, (clean_loop isoformat random_shuffle d now items delset).2 = Ok (d', ds) ->
     timeout d' = timeout d).
Proof.
  induction items as [|[key when] items IH]; intros d delset; cbn [clean_loop].
  - split; [apply quiet_alarmed, quiet_nil|]. intros d' ds [= <- _]. reflexivity.
  - destruct (horizon d) as [h|]; [|split; [apply quiet_alarmed, quiet_nil|discriminate]].
    destruct (when + h <? now); [|apply IH].
    destruct (alarmed_dismiss d now key) as [Ha Ht]. split.
    + apply bind_alarmed; [exact Ha|]. intros d1 Hd1.
      rewrite <- (Ht d1 Hd1). apply IH.
    + intros d' ds Hr. apply bind_result in Hr as (d1 & Hd1 & Hr).
      rewrite <- (Ht d1 Hd1). apply (proj2 (IH d1 _) d' ds Hr).
Qed.

Lemma alarmed_clean_expired (d : D) now :
  alarmed (timeout d) (_clean_expired isoformat random_shuffle d now).1 /\
  (forall d', (_clean_expired isoformat random_shuffle d now).2 = Ok d' ->
     timeout d' = timeout d).
Proof.
  unfold _clean_expired.
  destruct (active_keys d) as [ak|]; [|split; [apply quiet_alarmed, quiet_nil|discriminate]].
  destruct (alarmed_clean_loop now ak d []) as [Ha Ht]. split.
  - apply bind_alarmed; [exact Ha|]. intros [d1 ds] _. apply quiet_alarmed, quiet_nil.
  - intros d' Hr. apply bind_result in Hr as ([d1 ds] & Hd1 & Hr).
    injection Hr as <-. apply (Ht d1 ds Hd1).
Qed.

Lemma alarmed_dispatcher_call (d : D) now arg :
  alarmed (timeout d) (Dispatcher_call isoformat random_shuffle d now arg).1.
Proof.
  unfold Dispatcher_call.
  assert (Hclean :
    alarmed (timeout d)
      (if truthy (active_keys d) then _clean_expired isoformat random_shuffle d now
       else @mret act _ _ d).1 /\
    forall d1,
      (if truthy (active_keys d) then _clean_expired isoformat random_shuffle d now
       else @mret act _ _ d).2 = Ok d1 -> timeout d1 = timeout d).
  { destruct (truthy (active_keys d)); [apply alarmed_clean_expired|].
    split; [apply quiet_alarmed, quiet_nil|]. intros d1 [= <-]. reflexivity. }
  destruct Hclean as [Ha Ht].
  apply bind_alarmed; [exact Ha|]. intros d1 Hd1. rewrite <- (Ht d1 Hd1).
  assert (Hsleep : forall (d2 : D),
    alarmed (timeout d1)
      (w ← lift (max_sleep_til_next_window d2 now); mret (d2, w)).1).
  { intros d2. apply quiet_alarmed. apply bind_quiet; [apply quiet_nil|].
    intros w _. apply quiet_nil. }
  destruct arg as [e|]; [|apply Hsleep].
  assert (Hrace : alarmed (timeout d1)
            (d2 ← _dispatch_race isoformat d1 now e;
             w ← lift (max_sleep_til_next_window d2 now); mret (d2, w)).1).
  { apply bind_alarmed; [|intros d2 _; apply Hsleep].
    unfold _dispatch_race.
    apply bind_alarmed; [apply quiet_alarmed, quiet_key_for_msg|]. intros key _.
    destruct (active_keys d1) as [ak|]; [|apply quiet_alarmed, quiet_nil].
    destruct (dict_mem key ak); [apply quiet_alarmed, quiet_nil|].
    apply bind_alarmed; [apply alarmed_emit|]. intros _ _. apply quiet_alarmed, quiet_nil. }
  assert (Hcompete : alarmed (timeout d1)
            (d2 ← _dispatch_compete d1 e;
             w ← lift (max_sleep_til_next_window d2 now); mret (d2, w)).1).
  { apply bind_alarmed; [|intros d2 _; apply Hsleep].
    unfold _dispatch_compete.
    apply bind_alarmed; [apply quiet_alarmed, quiet_key_for_msg|]. intros key _.
    destruct (active_keys d1) as [ak|]; [|apply quiet_alarmed, quiet_nil].
    destruct (msg_buffer d1); apply quiet_alarmed, quiet_nil. }
  destruct (key_code d1) as [code|].
  - destruct (score_code d1); [exact Hrace|exact Hcompete|exact Hcompete].
  - apply bind_alarmed; [apply alarmed_emit|]. intros _ _. apply quiet_alarmed, quiet_nil.
Qed.

Lemma rearm_last now pending evs :
  rearm now pending evs =
    match last (alarms evs) with
    | Some n => if bool_decide (n = 0) then None else Some (now + n * SECOND)
    | None => pending
    end.
Proof.
  unfold rearm. induction evs as [|ev evs IH] using rev_ind; [reflexivity|].
  rewrite foldl_app. cbn [foldl]. rewrite IH, alarms_app.
  destruct ev; try (cbn; rewrite app_nil_r; reflexivity).
  change (alarms [Alarm seconds]) with [seconds]. rewrite last_snoc. reflexivity.
Qed.

(** X15. Only an emit re-arms the alarm of the timeout option. In every call
    of the dispatcher, whatever its mode, [alarm(t)] is called once for
    each emit, [t] being the timeout, and never otherwise. So in the
    loop of [multi_main] a call that emits nothing (a duplicate that is
    dropped, a candidate that is buffered, a cleanup pass that closes no
    window) leaves the pending alarm where it was, and a call that
    emits moves it to the timeout from now. *)
Theorem alarm_follows_emits (d : D) (now : Z) (arg : option entry) :
  let evs := (Dispatcher_call isoformat random_shuffle d now arg).1 in
  alarms evs = match timeout d with
               | Some t => (fun _ => t) <$> emits evs
               | None => []
               end /\
  (forall pending, emits evs = [] -> rearm now pending evs = pending) /\
  (forall pending t, timeout d = Some t -> t <> 0 -> emits evs <> [] ->
     rearm now pending evs = Some (now + t * SECOND)).
Proof.
  intros evs. pose proof (alarmed_dispatcher_call d now arg) as Ha.
  fold evs in Ha. unfold alarmed in Ha. split; [exact Ha|]. split.
  - intros pending Hem. rewrite rearm_last, Ha, Hem.
    destruct (timeout d); reflexivity.
  - intros pending t Ht Hne Hem. rewrite rearm_last, Ha, Ht.
    destruct (emits evs) as [|em l] eqn:E; [congruence|].
    assert (Hlast : last ((fun _ => t) <$> em :: l) = Some t).
    { clear. revert em. induction l as [|x l IH]; intros em; [reflexivity|].
      rewrite fmap_cons, last_cons. rewrite (IH x). reflexivity. }
    rewrite Hlast. rewrite bool_decide_eq_false_2 by exact Hne. reflexivity.
Qed.

(** *** How long the supervisor may wait *)

Lemma foldl_min_spec (xs : list Z) : forall x,
  foldl Z.min x xs ∈ x :: xs /\ forall y, y ∈ x :: xs -> foldl Z.min x xs <= y.
Proof.
  induction xs as [|a xs IH]; intros x.
  - cbn. split; [left|]. intros y Hy. apply list_elem_of_singleton in Hy. lia.
  - cbn [foldl]. destruct (IH (Z.min x a)) as [Hin Hle]. split.
    + apply elem_of_cons in Hin as [Heq|Hin].
      * rewrite Heq. destruct (Z.min_spec x a) as [[_ ->]|[_ ->]]; [left|right; left].
      * right. right. exact Hin.
    + intros y Hy. apply elem_of_cons in Hy as [->|Hy].
      * specialize (Hle (Z.min x a) (list_elem_of_here _ _)). lia.
      * apply elem_of_cons in Hy as [->|Hy].
        -- specialize (Hle (Z.min x a) (list_elem_of_here _ _)). lia.
        -- apply Hle. right. exact Hy.
Qed.

(** X16. [max_sleep_til_next_window] tells the supervisor how long it may
    block. With no open window the wait has no end. Otherwise the wait
    is not negative and runs to the end of the window that ends first:
    at any moment after it a cleanup pass has a window to close, and,
    when the wait is positive, at no moment up to its end has a cleanup
    pass anything to close. A window is over only after its end, so a
    pass made exactly at the end of the wait closes nothing yet. *)
Theorem max_sleep_reaches_next_expiry (d : D) (h now : Z)
    (ak : list (option Key * Z)) :
  horizon d = Some h -> active_keys d = Some ak ->
  (ak = [] -> max_sleep_til_next_window d now = Ok None) /\
  (ak <> [] ->
     exists wait, max_sleep_til_next_window d now = Ok (Some wait) /\
       0 <= wait /\
       (forall now', now + wait < now' -> expired_keys h now' ak <> []) /\
       (0 < wait -> forall now', now' <= now + wait -> expired_keys h now' ak = [])).
Proof.
  intros Hh Ha. unfold max_sleep_til_next_window. rewrite Ha, Hh. split.
  - intros ->. reflexivity.
  - intros Hne. destruct ak as [|[k0 w0] ak']; [congruence|].
    rewrite fmap_cons. cbn [minimum snd].
    destruct (foldl_min_spec ak'.*2 w0) as [Hin Hmin].
    set (first := foldl Z.min w0 ak'.*2) in *.
    exists (Z.max 0 (first + h - now)). split; [reflexivity|]. split; [lia|].
    change (w0 :: ak'.*2) with (((k0, w0) :: ak').*2) in Hin, Hmin.
    split.
    + intros now' Hlt.
      apply list_elem_of_fmap in Hin as ([k w] & Hw & Hkw). cbn [snd] in Hw.
      assert (Hex : k ∈ expired_keys h now' ((k0, w0) :: ak')).
      { apply expired_keys_elem. exists w. split; [exact Hkw|]. lia. }
      intros Hnil. rewrite Hnil in Hex. inversion Hex.
    + intros Hpos now' Hle. apply elem_of_nil_inv. intros k Hk.
      apply expired_keys_elem in Hk as (w & Hkw & Hex).
      assert (Hw : first <= w).
      { apply Hmin. apply list_elem_of_fmap. exists (k, w). auto. }
      lia.
Qed.

(** *** Race mode, call by call *)

Lemma race_inv_init (t : Z) (code : expr (option Key)) (j : option format_string)
    (w : option Z) (cb : option (string -> payload -> outcome unit))
    (tr : list (string * expr value)) (trans : option Transforms) (extra : payload) :
  race_inv (Dispatcher_init trans (mkOptions t (Some code) None j w cb tr) extra)
    code (default DEFAULT_HORIZON_SEC w) [].
Proof.
  constructor; try reflexivity.
  - cbn. destruct w; reflexivity.
  - constructor.
Qed.

(** X17. What Race mode does with one event. If the key of the event has a
    window that is not over at the time of the call (the window opened
    at [w] is over when [w + h < now]), nothing is emitted, the call
    returns and the window stays as it is. Otherwise, the key having no
    window or one that is over, the event is emitted, with its routing
    key, and when the call returns the key has a window that was opened
    at the reception time of this event. *)
Theorem race_emits_unless_window_open (d : D) (code : expr (option Key))
    (h : Z) (ak : list (option Key * Z)) (now : Z) (e : entry) :
  race_inv d code h ak ->
  let key := key_of code (content (e_msg e)) in
  let r := Dispatcher_call isoformat random_shuffle d now (Some e) in
  (forall w, dict_get key ak = Some w -> now <= w + h ->
     emits r.1 = [] /\
     exists d' wait ak', r.2 = Ok (d', wait) /\
       active_keys d' = Some ak' /\ dict_get key ak' = Some w) /\
  (dict_get key ak = None \/ (exists w, dict_get key ak = Some w /\ w + h < now) ->
     emits r.1 = [(e_routing_key e, content (e_msg e))] /\
     forall d' wait, r.2 = Ok (d', wait) ->
       exists ak', active_keys d' = Some ak' /\ dict_get key ak' = Some (e_when e)).
Proof.
  intros Hinv key r.
  destruct (race_call isoformat random_shuffle d code h ak (mkCall now (Some e)) Hinv)
    as (evs & res & Hcall & Hem & Hnext & Hret).
  cbn [c_now c_arg] in Hcall. fold r in Hcall.
  assert (Hr1 : r.1 = evs) by (rewrite Hcall; reflexivity).
  assert (Hr2 : r.2 = res) by (rewrite Hcall; reflexivity).
  rewrite Hr1, Hr2. clear Hcall Hr1 Hr2.
  pose proof (dict_get_cleaned h now ak key (ri_nodup _ _ _ _ Hinv)) as Hclean.
  unfold race_emitted in Hem, Hret. unfold race_next in Hnext.
  cbn [c_now c_arg] in Hem, Hret, Hnext. fold key in Hem, Hret, Hnext.
  split.
  - intros w Hw Hopen. rewrite Hw in Hclean.
    rewrite decide_False in Hclean by lia.
    assert (Hmem : dict_mem key (cleaned h now ak) = true).
    { destruct (dict_mem key (cleaned h now ak)) eqn:E; [reflexivity|].
      apply dict_mem_get in E. congruence. }
    rewrite Hmem in Hem, Hret, Hnext. split; [exact Hem|].
    destruct (Hret eq_refl) as (d' & wait & ->).
    exists d', wait, (cleaned h now ak). split; [reflexivity|].
    split; [|exact Hclean]. apply (ri_active _ _ _ _ (Hnext d' wait eq_refl)).
  - intros Hno.
    assert (Hmem : dict_mem key (cleaned h now ak) = false).
    { apply dict_mem_get. rewrite Hclean.
      destruct Hno as [->|(w & -> & Hlt)]; [reflexivity|].
      rewrite decide_True by exact Hlt. reflexivity. }
    rewrite Hmem in Hem, Hnext. split; [exact Hem|].
    intros d' wait ->. eexists. split.
    + apply (ri_active _ _ _ _ (Hnext d' wait eq_refl)).
    + apply dict_get_set_eq.
Qed.

(** *** Without a key, everything goes through *)

Lemma passthrough_call (d : D) now (arg : option entry) :
  key_code d = None -> active_keys d = None ->
  Dispatcher_call isoformat random_shuffle d now arg =
    match arg with
    | Some e =>
        ((emit isoformat d now (e_routing_key e) (content (e_msg e))).1,
         match (emit isoformat d now (e_routing_key e) (content (e_msg e))).2 with
         | Ok _ => Ok (d, None)
         | Raise x => Raise x
         end)
    | None => ([], Ok (d, None))
    end.
Proof.
  intros Hk Ha. unfold Dispatcher_call. rewrite Ha. cbn [truthy].
  destruct arg as [e|].
  - unfold mret, act_ret, mbind, act_bind. cbn [fst snd app]. rewrite Hk.
    destruct (emit _ _ _ _ _) as [evs [[]|x]]; cbn [fst snd]; rewrite ?app_nil_r; reflexivity.
  - unfold mret, act_ret, mbind, act_bind, lift. cbn [fst snd app].
    unfold max_sleep_til_next_window. rewrite Ha. reflexivity.
Qed.

Definition emitted_of (e : entry) : string * payload :=
  (e_routing_key e, content (e_msg e)).

Lemma passthrough_run (d : D) (calls : list call) :
  key_code d = None -> active_keys d = None ->
  let r := run isoformat random_shuffle d calls in
  concat (emits <$> r.1) = emitted_of <$> omap c_arg (take (length r.1) calls) /\
  (length r.1 <= length calls)%nat /\
  (forall d', r.2 = Ok d' -> d' = d /\ length r.1 = length calls).
Proof.
  intros Hk Ha. induction calls as [|c calls IH].
  - cbn. split; [reflexivity|]. split; [lia|]. intros d' [= <-]. auto.
  - cbn [run]. rewrite (passthrough_call d (c_now c) (c_arg c) Hk Ha).
    destruct IH as (I1 & I2 & I3).
    destruct (c_arg c) as [e|] eqn:Harg.
    + pose proof (emits_emit isoformat d (c_now c) (e_routing_key e) (content (e_msg e))) as Hem.
      destruct (emit isoformat d (c_now c) (e_routing_key e) (content (e_msg e)))
        as [evs [[]|x]]; cbn [fst snd] in *.
      * split.
        { rewrite fmap_cons. cbn [concat length take omap list_omap]. rewrite Harg, Hem.
          cbn [app fmap list_fmap]. f_equal. exact I1. }
        split; [cbn [length]; lia|]. intros d' Hd'. destruct (I3 d' Hd') as [-> Hl].
        split; [reflexivity|cbn [length]; lia].
      * split.
        { cbn [fmap list_fmap concat length take omap list_omap]. rewrite Harg, Hem. reflexivity. }
        split; [cbn [length]; lia|]. discriminate.
    + cbn [fst snd]. split.
      { rewrite fmap_cons. cbn [concat length take omap list_omap]. rewrite Harg. cbn [app]. exact I1. }
      split; [cbn [length]; lia|]. intros d' Hd'. destruct (I3 d' Hd') as [-> Hl].
        split; [reflexivity|cbn [length]; lia].
Qed.

(** X18. A dispatcher made without a key option, whatever its other options,
    emits the events of a run in the order they come in, each once, and
    stays as it was made: the emits of the run are the events of the
    calls that were made, cleanup passes giving none, up to and with the
    call whose emit raised, if one did. *)
Theorem passthrough_keeps_order
    (t : Z) (sc : option score_option) (j : option format_string) (w : option Z)
    (cb : option (string -> payload -> outcome unit))
    (tr : list (string * expr value)) (trans : option Transforms)
    (extra : payload) (calls : list call) :
  let d0 : D := Dispatcher_init trans (mkOptions t None sc j w cb tr) extra in
  let r := run isoformat random_shuffle d0 calls in
  concat (emits <$> r.1) = emitted_of <$> omap c_arg (take (length r.1) calls) /\
  (length r.1 <= length calls)%nat /\
  (forall d', r.2 = Ok d' -> d' = d0 /\ length r.1 = length calls).
Proof. intros d0 r. apply passthrough_run; reflexivity. Qed.

(** *** Compete mode: the buffer follows the windows *)

(** The buffer after a call in Compete mode: the candidates of the
    windows that are over are gone, and the event of the call is the
    last candidate of its key. With [race_next], which gives the windows
    after the call in this mode too. *)
Definition compete_buffer_next (code : expr (option Key)) (h : Z)
    (ak : list (option Key * Z)) (buf : list (option Key * list entry))
    (c : call) : list (option Key * list entry) :=
  let buf1 := foldl (fun b k => dict_del k b) buf (expired_keys h (c_now c) ak) in
  match c_arg c with
  | None => buf1
  | Some e =>
      let key := key_of code (content (e_msg e)) in
      dict_set key (default [] (dict_get key buf1) ++ [e]) buf1
  end.

Lemma compete_inv_init (t : Z) (code : expr (option Key)) (sc : score_option)
    (j : option format_string) (w : option Z)
    (cb : option (string -> payload -> outcome unit))
    (tr : list (string * expr value)) (trans : option Transforms) (extra : payload) :
  match sc with
  | ScoreLambda cmp => forall a b win, cmp a b = Ok win -> win = a \/ win = b
  | ScoreExpr _ => True
  end ->
  compete_inv (Dispatcher_init trans (mkOptions t (Some code) (Some sc) j w cb tr) extra)
    code (default DEFAULT_HORIZON_SEC w) [] [].
Proof.
  intros Hsel. constructor; try reflexivity.
  - cbn. destruct sc; discriminate.
  - unfold selective. cbn. destruct sc; [exact Hsel|exact I].
  - cbn. destruct w; reflexivity.
  - constructor.
  - intros k Hin. inversion Hin.
Qed.

Lemma dispatch_compete_result (d : D) code ak buf e :
  key_code d = Some code -> active_keys d = Some ak -> msg_buffer d = Some buf ->
  let key := key_of code (content (e_msg e)) in
  (_dispatch_compete d e).2 =
    Ok (set_msg_buffer (Some (dict_set key (default [] (dict_get key buf) ++ [e]) buf))
          (set_active_keys
             (Some (if dict_mem key ak then ak else dict_set key (e_when e) ak)) d)).
Proof.
  intros Hk Ha Hb key. unfold _dispatch_compete.
  destruct (key_for_msg_key_of d code (content (e_msg e)) Hk) as [Hkey _].
  destruct (key_for_msg d (content (e_msg e))) as [kevs kr].
  cbn [snd] in Hkey. subst kr. rewrite act_bind_ok, Ha, Hb. reflexivity.
Qed.

Lemma dict_set_key_elem {V : Type} (k key : option Key) (v : V)
    (l : list (option Key * V)) :
  k ∈ (dict_set key v l).*1 <-> k = key \/ k ∈ l.*1.
Proof.
  assert (Hiff : forall (m : list (option Key * V)) x,
            x ∈ m.*1 <-> dict_get x m <> None).
  { intros m x. rewrite dict_get_None_keys.
    destruct (decide (x ∈ m.*1)); tauto. }
  rewrite !Hiff. destruct (decide (k = key)) as [->|Hne].
  - rewrite dict_get_set_eq. split; [auto|discriminate].
  - rewrite dict_get_set_ne by congruence. tauto.
Qed.

Lemma foldl_del_key_elem {V : Type} (ks : list (option Key))
    (l : list (option Key * V)) (k : option Key) :
  k ∈ (foldl (fun d key => dict_del key d) l ks).*1 <-> k ∈ l.*1 /\ k ∉ ks.
Proof.
  split; [apply foldl_del_keys|]. intros [Hin Hnin].
  destruct (decide (k ∈ (foldl (fun d key => dict_del key d) l ks).*1)) as [|Hn];
    [assumption|].
  apply dict_get_None_keys in Hn. rewrite dict_get_foldl_del in Hn.
  rewrite decide_False in Hn by exact Hnin.
  apply dict_get_None_keys in Hn. contradiction.
Qed.

(** [random.shuffle] reorders its list and does nothing else. *)
Hypothesis random_shuffle_perm :
  forall (seed : nat) (l : list message), random_shuffle seed l ≡ₚ l.

Lemma compete_call_next (d : D) code h ak buf (c : call) :
  compete_inv d code h ak buf ->
  forall d' wait,
    (Dispatcher_call isoformat random_shuffle d (c_now c) (c_arg c)).2 = Ok (d', wait) ->
    compete_inv d' code h (race_next code h ak c) (compete_buffer_next code h ak buf c).
Proof.
  intros Hinv d' wait Hcall. unfold Dispatcher_call in Hcall.
  apply bind_result in Hcall as (d1 & Hclean & Hcall).
  assert (Hinv1 : compete_inv d1 code h (cleaned h (c_now c) ak)
            (foldl (fun b k => dict_del k b) buf (expired_keys h (c_now c) ak))).
  { destruct (truthy (active_keys d)) eqn:Ht.
    - destruct (clean_expired_compete isoformat random_shuffle random_shuffle_perm
                  d code h ak buf (c_now c) Hinv)
        as (evs & r & n & H1 & _ & H3).
      rewrite H1 in Hclean. cbn [snd] in Hclean. apply (H3 d1 Hclean).
    - injection Hclean as <-.
      rewrite (ci_active _ _ _ _ _ Hinv) in Ht.
      destruct ak as [|x ak]; [|discriminate]. exact Hinv. }
  unfold race_next, compete_buffer_next.
  destruct (c_arg c) as [e|].
  - rewrite (ci_key _ _ _ _ _ Hinv1) in Hcall.
    assert (Hd : (d2 ← _dispatch_compete d1 e;
                  w ← lift (max_sleep_til_next_window d2 (c_now c)); mret (d2, w)).2
                 = Ok (d', wait)).
    { pose proof (ci_score _ _ _ _ _ Hinv1) as Hsc.
      destruct (score_code d1); [congruence|exact Hcall|exact Hcall]. }
    apply bind_result in Hd as (d2 & Hd2 & Hd).
    apply bind_result in Hd as (w2 & _ & Hd). injection Hd as <- _.
    pose proof (dispatch_compete_result d1 code _ _ e (ci_key _ _ _ _ _ Hinv1)
                  (ci_active _ _ _ _ _ Hinv1) (ci_buffer _ _ _ _ _ Hinv1)) as Hres.
    cbn zeta in Hres.
    destruct (dispatch_compete_inv d1 code h _ _ e Hinv1)
      as (evs2 & d2' & Hd2' & _ & ak2 & buf2 & Hinv2).
    rewrite Hd2' in Hres, Hd2. cbn [snd] in Hres, Hd2.
    injection Hd2 as <-. injection Hres as Hres.
    pose proof (ci_active _ _ _ _ _ Hinv2) as Ha2.
    pose proof (ci_buffer _ _ _ _ _ Hinv2) as Hb2.
    rewrite Hres in Ha2, Hb2. cbn in Ha2, Hb2.
    injection Ha2 as <-. injection Hb2 as <-. exact Hinv2.
  - apply bind_result in Hcall as (w2 & _ & Hcall). injection Hcall as <- _.
    exact Hinv1.
Qed.

(** X19. In Compete mode the buffer and the windows stay in step. When a
    call returns, candidates are buffered for exactly the keys that have
    an open window; the event of the call is the last candidate of its
    key; and a key whose window the call closed has neither window nor
    candidates left, unless the event of the call has this key, and then
    the event is its only candidate, in a window opened at the event's
    reception time. *)
Theorem compete_buffer_follows_windows (d : D) (code : expr (option Key))
    (h : Z) (ak : list (option Key * Z)) (buf : list (option Key * list entry))
    (c : call) :
  compete_inv d code h ak buf ->
  (forall k, k ∈ buf.*1 -> k ∈ ak.*1) ->
  exists evs r,
    Dispatcher_call isoformat random_shuffle d (c_now c) (c_arg c) = (evs, r) /\
    forall d' wait, r = Ok (d', wait) ->
      exists ak' buf',
        active_keys d' = Some ak' /\ msg_buffer d' = Some buf' /\
        compete_inv d' code h ak' buf' /\
        (forall k, k ∈ buf'.*1 <-> k ∈ ak'.*1) /\
        (forall e, c_arg c = Some e ->
           exists before,
             dict_get (key_of code (content (e_msg e))) buf' = Some (before ++ [e])) /\
        (forall k, k ∈ expired_keys h (c_now c) ak ->
           match c_arg c with
           | Some e =>
               if decide (key_of code (content (e_msg e)) = k)
               then dict_get k buf' = Some [e] /\ dict_get k ak' = Some (e_when e)
               else dict_get k buf' = None /\ dict_get k ak' = None
           | None => dict_get k buf' = None /\ dict_get k ak' = None
           end).
Proof.
  intros Hinv Hsync.
  destruct (Dispatcher_call isoformat random_shuffle d (c_now c) (c_arg c))
    as [evs r] eqn:Hcall.
  exists evs, r. split; [reflexivity|]. intros d' wait ->.
  assert (Hnext := compete_call_next d code h ak buf c Hinv d' wait).
  rewrite Hcall in Hnext. specialize (Hnext eq_refl).
  exists (race_next code h ak c), (compete_buffer_next code h ak buf c).
  split; [apply (ci_active _ _ _ _ _ Hnext)|].
  split; [apply (ci_buffer _ _ _ _ _ Hnext)|].
  split; [exact Hnext|].
  set (ex := expired_keys h (c_now c) ak).
  set (buf1 := foldl (fun b k => dict_del k b) buf ex).
  assert (Hbuf1 : forall k, dict_get k buf1 = if decide (k ∈ ex) then None else dict_get k buf).
  { intros k. apply dict_get_foldl_del. }
  assert (Hak1 : forall k, dict_get k (cleaned h (c_now c) ak)
                           = if decide (k ∈ ex) then None else dict_get k ak).
  { intros k. apply dict_get_foldl_del. }
  split; [|split].
  - intros k. split.
    + unfold compete_buffer_next, race_next. fold ex. fold buf1.
      assert (H1 : k ∈ buf1.*1 -> k ∈ (cleaned h (c_now c) ak).*1).
      { intros Hk. apply foldl_del_key_elem in Hk as [Hk Hn].
        apply foldl_del_key_elem. split; [apply Hsync; exact Hk|exact Hn]. }
      destruct (c_arg c) as [e|]; [|exact H1].
      cbn zeta. intros Hk. apply dict_set_key_elem in Hk.
      destruct (dict_mem (key_of code (content (e_msg e))) (cleaned h (c_now c) ak)) eqn:Hm.
      * destruct Hk as [->|Hk]; [|apply H1; exact Hk].
        destruct (decide (key_of code (content (e_msg e)) ∈ (cleaned h (c_now c) ak).*1))
          as [|Hn]; [assumption|].
        apply dict_get_None_keys in Hn. apply dict_mem_get in Hn. congruence.
      * apply dict_set_key_elem. destruct Hk as [->|Hk]; [left; reflexivity|].
        right. apply H1. exact Hk.
    + intros Hk. destruct (ci_cands _ _ _ _ _ Hnext k Hk) as (cands & Hg & _).
      destruct (decide (k ∈ (compete_buffer_next code h ak buf c).*1)) as [|Hn];
        [assumption|].
      apply dict_get_None_keys in Hn. congruence.
  - intros e He. unfold compete_buffer_next. rewrite He. cbn zeta.
    eexists. apply dict_get_set_eq.
  - intros k Hk. unfold compete_buffer_next, race_next. fold ex. fold buf1.
    destruct (c_arg c) as [e|].
    + cbn zeta. destruct (decide (key_of code (content (e_msg e)) = k)) as [->|Hne].
      * assert (Hb : dict_get k buf1 = None)
          by (rewrite Hbuf1, decide_True by exact Hk; reflexivity).
        assert (Ha : dict_get k (cleaned h (c_now c) ak) = None)
          by (rewrite Hak1, decide_True by exact Hk; reflexivity).
        rewrite dict_get_set_eq, Hb.
        apply dict_mem_get in Ha. rewrite Ha, dict_get_set_eq. split; reflexivity.
      * rewrite dict_get_set_ne by exact Hne.
        rewrite Hbuf1, decide_True by exact Hk. split; [reflexivity|].
        destruct (dict_mem _ _); [|rewrite dict_get_set_ne by exact Hne];
          rewrite Hak1, decide_True by exact Hk; reflexivity.
    + rewrite Hbuf1, Hak1, !decide_True by exact Hk. split; reflexivity.
Qed.

End DispatcherFacts.

(** *** [zap]: options that are given several times *)

Section Zap.
Context {A : Type}.

(** One element of the tuple that [zap] makes in turn [i]: [n] is the
    length of the sequence [el]. *)
Definition zap_cell (iters i : nat) (el : list A) : outcome (option A) :=
  let n := length el in
  if (n =? 0)%nat then Ok None
  else if (n =? 1)%nat then Ok (el !! 0%nat)
  else if (n =? iters)%nat then
    match el !! i with
    | Some x => Ok (Some x)
    | None => Raise IndexError
    end
  else Raise ValueError.

(** The tuple of turn [i] *)
Fixpoint zap_row (iters i : nat) (seqs : list (list A)) : outcome (list (option A)) :=
  match seqs with
  | [] => Ok []
  | el :: seqs' =>
      x ← zap_cell iters i el;
      z ← zap_row iters i seqs';
      Ok (x :: z)
  end.

(** The generator's loop: what it yields, and how it ends. *)
Fixpoint zap_loop (iters : nat) (seqs : list (list A)) (turns : list nat)
  : list (list (option A)) * outcome unit :=
  match turns with
  | [] => ([], Ok tt)
  | i :: turns' =>
      match zap_row iters i seqs with
      | Ok z => let r := zap_loop iters seqs turns' in (z :: r.1, r.2)
      | Raise x => ([], Raise x)
      end
  end.

(** [zap] of its sequences; an option that was not given is [None].
    [max] of no lengths raises [ValueError]. *)
Definition zap (seqs : list (option (list A))) : list (list (option A)) * outcome unit :=
  let seqs := default [] <$> seqs in
  match seqs with
  | [] => ([], Raise ValueError)
  | _ => let iters := max_list (length <$> seqs) in
         zap_loop iters seqs (seq 0 iters)
  end.

(** The sequence is empty, has one value, or has as many as the longest. *)
Definition fits (iters : nat) (el : list A) : Prop :=
  length el = 0%nat \/ length el = 1%nat \/ length el = iters.

(** The value a sequence gives to turn [i]: none when it is empty, its
    only value when it has one, its value of that turn otherwise. *)
Definition broadcast (i : nat) (el : list A) : option A :=
  match el with
  | [] => None
  | [x] => Some x
  | _ => el !! i
  end.

Lemma zap_cell_fits iters i el :
  fits iters el -> (i < iters)%nat -> zap_cell iters i el = Ok (broadcast i el).
Proof.
  intros Hfit Hi. unfold zap_cell, broadcast, fits in *.
  destruct (Nat.eqb_spec (length el) 0) as [H0|H0].
  { destruct el; [reflexivity|discriminate]. }
  destruct (Nat.eqb_spec (length el) 1) as [H1|H1].
  { destruct el as [|x [|y el]]; try discriminate. reflexivity. }
  destruct (Nat.eqb_spec (length el) iters) as [Hn|Hn]; [|lia].
  rewrite <- Hn in Hi.
  destruct (lookup_lt_is_Some_2 el i Hi) as [z Hz]. rewrite Hz.
  destruct el as [|x [|y el]]; cbn [length] in *; try lia. reflexivity.
Qed.

Lemma zap_cell_unfit iters i el : ~ fits iters el -> zap_cell iters i el = Raise ValueError.
Proof.
  intros Hn. unfold zap_cell, fits in *.
  destruct (Nat.eqb_spec (length el) 0); [tauto|].
  destruct (Nat.eqb_spec (length el) 1); [tauto|].
  destruct (Nat.eqb_spec (length el) iters); [tauto|]. reflexivity.
Qed.

Lemma zap_row_fits iters i (seqs : list (list A)) :
  Forall (fits iters) seqs -> (i < iters)%nat ->
  zap_row iters i seqs = Ok (broadcast i <$> seqs).
Proof.
  intros Hall Hi. induction Hall as [|el seqs Hel Hall IH]; [reflexivity|].
  cbn [zap_row]. rewrite (zap_cell_fits iters i el Hel Hi), IH. reflexivity.
Qed.

Lemma zap_row_unfit iters i (seqs : list (list A)) :
  ~ Forall (fits iters) seqs -> (i < iters)%nat ->
  zap_row iters i seqs = Raise ValueError.
Proof.
  intros Hn Hi. induction seqs as [|el seqs IH]; [exfalso; apply Hn; constructor|].
  cbn [zap_row].
  destruct (decide (length el = 0%nat \/ length el = 1%nat \/ length el = iters))
    as [Hfit|Hunfit].
  - rewrite (zap_cell_fits iters i el Hfit Hi). cbn [mbind outcome_bind].
    rewrite IH; [reflexivity|]. intros Hall. apply Hn. constructor; assumption.
  - rewrite (zap_cell_unfit iters i el Hunfit). reflexivity.
Qed.

Lemma zap_loop_fits iters (seqs : list (list A)) (turns : list nat) :
  Forall (fits iters) seqs -> Forall (fun i => (i < iters)%nat) turns ->
  zap_loop iters seqs turns = ((fun i => broadcast i <$> seqs) <$> turns, Ok tt).
Proof.
  intros Hall Ht. induction Ht as [|i turns Hi Ht IH]; [reflexivity|].
  cbn [zap_loop]. rewrite (zap_row_fits iters i seqs Hall Hi), IH. reflexivity.
Qed.

(** X20. [zap] makes one tuple for each value of the option that was given
    most often: in it an option that was not given is [None], an option
    given once has its value in every tuple, and an option given as
    often as the longest has its value of that turn. If some option
    was given another number of times, [zap] raises [ValueError] before
    it yields anything, and so it does when it is called with no
    sequence at all. *)
Theorem zap_broadcasts (seqs : list (option (list A))) :
  let given := default [] <$> seqs in
  let iters := max_list (length <$> given) in
  (given <> [] -> Forall (fits iters) given ->
     zap seqs = ((fun i => broadcast i <$> given) <$> seq 0 iters, Ok tt)) /\
  (given = [] \/ ~ Forall (fits iters) given ->
     zap seqs = ([], Raise ValueError)).
Proof.
  cbn zeta. unfold zap. generalize (default [] <$> seqs) as given.
  intros given. split.
  - intros Hne Hall. destruct given as [|el given']; [congruence|].
    apply zap_loop_fits; [exact Hall|].
    apply Forall_forall. intros i Hi. apply elem_of_seq in Hi. lia.
  - intros [Hnil|Hunfit].
    + rewrite Hnil. reflexivity.
    + destruct given as [|el given']; [reflexivity|].
      set (given := el :: given') in *.
      set (iters := max_list (length <$> given)) in *.
      assert (Hpos : (0 < iters)%nat).
      { destruct (Nat.eq_dec iters 0%nat) as [H0|]; [|lia].
        exfalso. apply Hunfit. apply Forall_forall. intros x Hx. left.
        assert (Hle : (length x <= iters)%nat).
        { unfold iters. apply max_list_elem_of_le.
          apply list_elem_of_fmap. exists x. auto. }
        lia. }
      destruct iters as [|n] eqn:Hi; [lia|].
      cbn [seq zap_loop].
      rewrite (zap_row_unfit (S n) 0%nat given Hunfit) by lia. reflexivity.
Qed.

End Zap.

Example zap_servers :
  zap [Some ["mq1"; "mq2"]; Some ["satellite"]; None]
    = ([ [Some "mq1"; Some "satellite"; None];
         [Some "mq2"; Some "satellite"; None] ], Ok tt) /\
  zap [Some ["mq1"; "mq2"; "mq3"]; Some ["x"; "y"]; None]
    = ([], Raise ValueError) /\
  zap [None; None; (None : option (list string))] = ([], Ok tt).
Proof. vm_compute. repeat split; reflexivity. Qed.

(** *** Instances *)

(** The dispatcher of scenario S1 with one window, opened at 0 s. *)
Definition one_window : Dispatcher (Key := string) :=
  set_active_keys (Some [(Some "G16", 0)]) S1_dispatcher.

Lemma max_sleep_reaches_next_expiry_witness :
  ([(Some "G16", 0)] = ([] : list (option string * Z)) ->
     max_sleep_til_next_window one_window 400000 = Ok None) /\
  ([(Some "G16", 0)] <> ([] : list (option string * Z)) ->
     exists wait, max_sleep_til_next_window one_window 400000 = Ok (Some wait) /\
       0 <= wait /\
       (forall now', 400000 + wait < now' ->
          expired_keys 1000000 now' [(Some "G16", 0)] <> []) /\
       (0 < wait -> forall now', now' <= 400000 + wait ->
          expired_keys 1000000 now' [(Some "G16", 0)] = [])).
Proof.
  apply (max_sleep_reaches_next_expiry one_window 1000000 400000 [(Some "G16", 0)]);
    reflexivity.
Defined.

Lemma race_emits_unless_window_open_witness :
  let e := S1_event 1 0 "broker-a" in
  let key := key_of sat_key (content (e_msg e)) in
  let r := Dispatcher_call iso_stub no_shuffle S1_dispatcher 0 (Some e) in
  (forall w, dict_get key ([] : list (option string * Z)) = Some w -> 0 <= w + 1000000 ->
     emits r.1 = [] /\
     exists d' wait ak', r.2 = Ok (d', wait) /\
       active_keys d' = Some ak' /\ dict_get key ak' = Some w) /\
  (dict_get key ([] : list (option string * Z)) = None \/
   (exists w, dict_get key ([] : list (option string * Z)) = Some w /\ w + 1000000 < 0) ->
     emits r.1 = [(e_routing_key e, content (e_msg e))] /\
     forall d' wait, r.2 = Ok (d', wait) ->
       exists ak', active_keys d' = Some ak' /\ dict_get key ak' = Some (e_when e)).
Proof.
  apply (race_emits_unless_window_open iso_stub no_shuffle S1_dispatcher sat_key
           1000000 [] 0 (S1_event 1 0 "broker-a")).
  apply (race_inv_init 0 sat_key None (Some 1000000) None []
           (Some (mkTransforms [])) ∅).
Defined.

Lemma compete_buffer_follows_windows_witness :
  let c := mkCall 0 (Some (S2_event 1 0 5)) in
  exists evs r,
    Dispatcher_call iso_stub reversing (S2_dispatcher (ScoreExpr defects))
      (c_now c) (c_arg c) = (evs, r) /\
    forall d' wait, r = Ok (d', wait) ->
      exists ak' buf',
        active_keys d' = Some ak' /\ msg_buffer d' = Some buf' /\
        compete_inv d' sat_key 1000000 ak' buf' /\
        (forall k, k ∈ buf'.*1 <-> k ∈ ak'.*1) /\
        (forall e, c_arg c = Some e ->
           exists before,
             dict_get (key_of sat_key (content (e_msg e))) buf' = Some (before ++ [e])) /\
        (forall k, k ∈ expired_keys 1000000 (c_now c) ([] : list (option string * Z)) ->
           match c_arg c with
           | Some e =>
               if decide (key_of sat_key (content (e_msg e)) = k)
               then dict_get k buf' = Some [e] /\ dict_get k ak' = Some (e_when e)
               else dict_get k buf' = None /\ dict_get k ak' = None
           | None => dict_get k buf' = None /\ dict_get k ak' = None
           end).
Proof.
  apply (compete_buffer_follows_windows iso_stub reversing
           (fun seed l => reverse_Permutation l)
           (S2_dispatcher (ScoreExpr defects)) sat_key 1000000 [] []
           (mkCall 0 (Some (S2_event 1 0 5)))).
  - apply (compete_inv_init 0 sat_key (ScoreExpr defects) None (Some 1000000) None []
             (Some (mkTransforms [])) ∅). exact I.
  - intros k Hk. exact Hk.
Defined.

End AmqpfindFacts.

(** ** Compete mode over a run: [Dispatcher.__call__], [_clean_expired],
       [_dismiss_active_key], [choose_msg] and [compare] of
       [amqpfind/amqpfind.py] *)

Module Compete.
Import Amqpfind AmqpfindFacts.
Local Open Scope Z_scope.

Section CompeteRun.
Context {Key : Type} `{EqDecision Key}.
Variable isoformat : Z -> string.
Variable random_shuffle : nat -> list message -> list message.
Hypothesis random_shuffle_perm : forall seed l, random_shuffle seed l ≡ₚ l.

Abbreviation D := (Dispatcher (Key := Key)).
Abbreviation windows := (list (option Key * Z)).
Abbreviation buffer := (list (option Key * list entry)).




(** What a dispatcher keeps of the one it was made as: how it chooses
    and how it emits. *)
Definition kept (d d' : D) : Prop :=
  score_code d' = score_code d /\ compare_lambda d' = compare_lambda d /\
  transforms d' = transforms d /\ timeout d' = timeout d /\
  callback d' = callback d /\ json_format_str d' = json_format_str d /\
  extra_default_payload d' = extra_default_payload d.








(** *** When closing the windows returns, and when it raises *)














(** *** Where the candidates come from *)





(** *** The dispatcher along a run *)





End CompeteRun.

(** Scenario S2 again: at the cleanup call the window of [G16] is over;
    the call emits the candidate with 7 defects and returns. *)
Example S2_emit_returns (now : Z) (topic : string) (msg : payload) :
  (emit iso_stub (S2_dispatcher (ScoreExpr defects)) now topic msg).2 = Ok tt.
Proof. reflexivity. Qed.





End Compete.

(** ** The pipeline's main loop: [run] of
       [sat_latency/pipeline/__main__.py], and [clean_exit] of
       [sat_latency/_utils.py] *)

Module Pipeline.
Import Ingest Writer WriterFacts.
Local Open Scope Z_scope.

Definition PARTITION_KEY : string := "start_time".

(** [point[key]] on a record mapping: the names of a mapping are distinct. *)
Fixpoint getitem (key : string) (point : mapping) : outcome (option (list byte)) :=
  match point with
  | [] => Raise KeyError
  | (k, v) :: point' => if String.eqb k key then Ok v else getitem key point'
  end.

(** [x < n] for a float [x] and an int [n]: Python compares the two
    exactly; a nan is below nothing. *)
Definition float_lt_int (x : float) (n : Z) : bool :=
  match Prim2SF x with
  | S754_nan => false
  | S754_infinity s => s
  | S754_zero _ => 0 <? n
  | S754_finite s m e =>
      let i := if s then Z.neg m else Z.pos m in
      if 0 <=? e then i * 2 ^ e <? n else i <? n * 2 ^ (- e)
  end.

Definition EOFError : exn := UserError "EOFError".

(** [clean_exit(function)()] without a [cleanup_func]: the wrapper returns
    what the function returns, returns [None] after an [EOFError] or a
    [KeyboardInterrupt], and lets any other exception through. *)
Definition clean_exit {A : Type} (call : outcome A) : outcome (option A) :=
  match call with
  | Ok a => Ok (Some a)
  | Raise e =>
      if bool_decide (e = EOFError \/ e = KeyboardInterrupt) then Ok None
      else Raise e
  end.

Section Run.
Context {Date : Type} `{EqDecision Date}.

(** [sat_latency.env]: both are read from the environment. *)
Variable BATCH_MAX_SIZE BATCH_MAX_DELAY : Z.

(** [date.fromisoformat(b.decode("utf-8")[:10])]: [None] when it raises
    [ValueError] (a [UnicodeDecodeError] is one). *)
Variable partition_of : list byte -> option Date.

(** [storage_batch_from_list], which raises what pyarrow raises. *)
Context {Batch : Type}.
Variable storage_batch_from_list : list mapping -> outcome Batch.

(** [time.time()]: what its n-th call returns. *)
Variable time : nat -> float.

Inductive log_record : Type :=
| Warning (topic : option (list byte))
| Debug (topic : option (list byte))
| Info (partition : Date).

(** The local variables of [run]. [clock] counts the calls of
    [time.time()]. [written] is not in the source: it lists, in order,
    each [(partition, data_list)] whose record batch
    [writer.write_batch] has written. *)
Record state : Type := mkState {
  batch_size : Z;
  batch_time : float;
  data : list (Date * list mapping);
  writer : BatchWriter (Date := Date);
  clock : nat;
  written : list (Date * list mapping)
}.

Definition set_writer (w : BatchWriter (Date := Date)) (s : state) : state :=
  {| batch_size := batch_size s; batch_time := batch_time s; data := data s;
     writer := w; clock := clock s; written := written s |}.

Definition wrote (partition : Date) (data_list : list mapping) (s : state) : state :=
  {| batch_size := batch_size s; batch_time := batch_time s; data := data s;
     writer := writer s; clock := clock s;
     written := written s ++ [(partition, data_list)] |}.

(** [data[partition].append(point)] on a [defaultdict(list)] *)
Fixpoint append_point (partition : Date) (point : mapping)
    (data : list (Date * list mapping)) : list (Date * list mapping) :=
  match data with
  | [] => [(partition, [point])]
  | (d, data_list) :: data' =>
      if decide (d = partition) then (d, data_list ++ [point]) :: data'
      else (d, data_list) :: append_point partition point data'
  end.

(** What a piece of [run] does: the records it logs, how it ends, and the
    variables then. *)
Definition trace : Type := list log_record * outcome unit * state.

(** [for partition, data_list in data.items(): ...] *)
Fixpoint flush (items : list (Date * list mapping)) (s : state) : trace :=
  match items with
  | [] => ([], Ok tt, s)
  | (partition, data_list) :: items' =>
      match storage_batch_from_list data_list with
      | Raise e => ([Info partition], Raise e, s)
      | Ok batch =>
          match write_batch partition (writer s) with
          | (Raise e, w) => ([Info partition], Raise e, set_writer w s)
          | (Ok _, w) =>
              let '(logs, r, s') :=
                flush items' (wrote partition data_list (set_writer w s)) in
              (Info partition :: logs, r, s')
          end
      end
  end.

(** The body of the [for point in read_input(...)] loop. *)
Definition step (point : mapping) (s : state) : trace :=
  match getitem PARTITION_KEY point with
  | Raise e => ([], Raise e, s)
  | Ok None => ([], Raise AttributeError, s)
  | Ok (Some b) =>
      match partition_of b with
      | None =>
          match getitem "topic" point with
          | Raise e => ([], Raise e, s)
          | Ok topic => ([Warning topic], Ok tt, s)
          end
      | Some partition =>
          match getitem "topic" point with
          | Raise e => ([], Raise e, s)
          | Ok topic =>
              let size := batch_size s + 1 in
              let data' := append_point partition point (data s) in
              let '(wait, clock') :=
                if size <? BATCH_MAX_SIZE then
                  (float_lt_int (PrimFloat.sub (time (clock s)) (batch_time s))
                     BATCH_MAX_DELAY,
                   S (clock s))
                else (false, clock s) in
              let s1 := {| batch_size := size; batch_time := batch_time s;
                           data := data'; writer := writer s;
                           clock := clock'; written := written s |} in
              if wait then ([Debug topic], Ok tt, s1)
              else
                let '(logs, r, s2) := flush data' s1 in
                match r with
                | Raise e => (Debug topic :: logs, Raise e, s2)
                | Ok _ =>
                    (Debug topic :: logs, Ok tt,
                     {| batch_size := 0; batch_time := time (clock s2);
                        data := []; writer := writer s2;
                        clock := S (clock s2); written := written s2 |})
                end
          end
      end
  end.

Fixpoint run_loop (points : list mapping) (s : state) : trace :=
  match points with
  | [] => ([], Ok tt, s)
  | point :: points' =>
      let '(logs, r, s1) := step point s in
      match r with
      | Raise e => (logs, Raise e, s1)
      | Ok _ =>
          let '(logs', r', s2) := run_loop points' s1 in
          (logs ++ logs', r', s2)
      end
  end.

(** The variables when the loop is entered. *)
Definition start : state :=
  {| batch_size := 0; batch_time := time 0; data := [];
     writer := init default_pool_size; clock := 1%nat; written := [] |}.

(** [run], when [read_input] yields [points]. Leaving the [with] block,
    normally or not, closes the writer. *)
Definition run_on (points : list mapping) : trace :=
  let '(logs, r, s) := run_loop points start in
  (logs, r, set_writer (close (writer s)) s).

(** [run], reading [source] on standard input. *)
Definition run (source : list byte) : trace := run_on (read_input source).

(** *** What the loop takes in *)

(** The partition of a point the loop takes in. *)
Definition partition_of_point (point : mapping) : option Date :=
  match getitem PARTITION_KEY point with
  | Ok (Some b) => partition_of b
  | _ => None
  end.

Definition accepted (points : list mapping) : list (Date * mapping) :=
  omap (fun point => (fun d => (d, point)) <$> partition_of_point point) points.

(** The points of [d] among [acc], in order. *)
Definition points_of (d : Date) (acc : list (Date * mapping)) : list mapping :=
  (filter (fun x => x.1 = d) acc).*2.

(** The rows written for [d], in order. *)
Definition rows_of (d : Date) (batches : list (Date * list mapping)) : list mapping :=
  concat (filter (fun x => x.1 = d) batches).*2.

(** [data[d]], were it read: the empty list when [d] is no key. *)
Fixpoint pending (d : Date) (data : list (Date * list mapping)) : list mapping :=
  match data with
  | [] => []
  | (d', data_list) :: data' =>
      if decide (d' = d) then data_list else pending d data'
  end.

(** The exception [point[PARTITION_KEY].decode] raises, if any. *)
Definition start_time_error (point : mapping) : option exn :=
  match getitem PARTITION_KEY point with
  | Raise e => Some e
  | Ok None => Some AttributeError
  | Ok (Some _) => None
  end.

(** A point with a start time that is no date. *)
Definition undated (point : mapping) : bool :=
  match getitem PARTITION_KEY point, getitem "topic" point with
  | Ok (Some b), Ok _ => bool_decide (partition_of b = None)
  | _, _ => false
  end.

Definition is_warning (record : log_record) : bool :=
  match record with Warning _ => true | _ => false end.

(** Every batch has a row, and no more than [BATCH_MAX_SIZE] of them
    (one, when [BATCH_MAX_SIZE] is below one). *)
Definition bounded (batches : list (Date * list mapping)) : Prop :=
  Forall (fun b => (1 <= length b.2)%nat /\
                   Z.of_nat (length b.2) <= Z.max 1 BATCH_MAX_SIZE) batches.

(** *** Lemmas on the buffer *)

Lemma append_point_keys partition point dat :
  (append_point partition point dat).*1 =
    if decide (partition ∈ dat.*1) then dat.*1 else dat.*1 ++ [partition].
Proof.
  induction dat as [|[d l] dat IH]; cbn [append_point].
  - rewrite decide_False by apply not_elem_of_nil. reflexivity.
  - rewrite fmap_cons. cbn [fst]. destruct (decide (d = partition)) as [->|Hne].
    + rewrite decide_True by left. reflexivity.
    + rewrite fmap_cons, IH. cbn [fst].
      destruct (decide (partition ∈ dat.*1)) as [Hin|Hnin].
      * rewrite decide_True by (right; exact Hin). reflexivity.
      * rewrite decide_False; [reflexivity|].
        rewrite not_elem_of_cons. split; [congruence|exact Hnin].
Qed.

Lemma append_point_NoDup partition point dat :
  NoDup dat.*1 -> NoDup (append_point partition point dat).*1.
Proof.
  intros Hnd. rewrite append_point_keys.
  destruct (decide (partition ∈ dat.*1)) as [Hin|Hnin]; [exact Hnd|].
  apply NoDup_app. split; [exact Hnd|]. split; [|apply NoDup_singleton].
  intros x Hx Hx'. apply list_elem_of_singleton in Hx'. subst x. contradiction.
Qed.

Lemma append_point_length partition point dat :
  length (concat (append_point partition point dat).*2) =
    S (length (concat dat.*2)).
Proof.
  induction dat as [|[d l] dat IH]; cbn [append_point]; [reflexivity|].
  destruct (decide (d = partition)) as [->|Hne]; rewrite !fmap_cons; cbn [snd concat].
  - rewrite !length_app. cbn [length]. lia.
  - rewrite !length_app, IH. lia.
Qed.

Lemma append_point_nonempty partition point dat :
  Forall (fun x => x.2 <> []) dat ->
  Forall (fun x => x.2 <> []) (append_point partition point dat).
Proof.
  induction 1 as [|[d l] dat Hl Hdat IH]; cbn [append_point].
  - constructor; [discriminate|constructor].
  - destruct (decide (d = partition)) as [->|Hne]; constructor; cbn [snd]; auto.
    destruct l; discriminate.
Qed.

Lemma pending_append_point d partition point dat :
  pending d (append_point partition point dat) =
    pending d dat ++ (if decide (partition = d) then [point] else []).
Proof.
  induction dat as [|[d' l] dat IH]; cbn [append_point pending].
  - destruct (decide (partition = d)); reflexivity.
  - destruct (decide (d' = partition)) as [->|Hne]; cbn [pending].
    + destruct (decide (partition = d)); [reflexivity|]. rewrite app_nil_r. reflexivity.
    + destruct (decide (d' = d)) as [->|Hne'].
      * rewrite decide_False by congruence. rewrite app_nil_r. reflexivity.
      * exact IH.
Qed.

Lemma points_of_app d acc acc' :
  points_of d (acc ++ acc') = points_of d acc ++ points_of d acc'.
Proof. unfold points_of. rewrite filter_app, fmap_app. reflexivity. Qed.

Lemma rows_of_app d batches batches' :
  rows_of d (batches ++ batches') = rows_of d batches ++ rows_of d batches'.
Proof. unfold rows_of. rewrite filter_app, fmap_app, concat_app. reflexivity. Qed.

Lemma rows_of_absent d (dat : list (Date * list mapping)) :
  d ∉ dat.*1 -> rows_of d dat = [].
Proof.
  unfold rows_of. induction dat as [|[d' l] dat IH]; [reflexivity|].
  rewrite fmap_cons, not_elem_of_cons. cbn [fst]. intros [Hne Hnin].
  rewrite filter_cons. cbn [fst]. rewrite decide_False by congruence. auto.
Qed.

Lemma rows_of_pending d (dat : list (Date * list mapping)) :
  NoDup dat.*1 -> rows_of d dat = pending d dat.
Proof.
  induction dat as [|[d' l] dat IH]; [reflexivity|].
  rewrite fmap_cons. cbn [fst]. intros Hnd. apply NoDup_cons in Hnd as [Hnin Hnd].
  cbn [pending]. change ((d', l) :: dat) with ([(d', l)] ++ dat).
  rewrite rows_of_app. unfold rows_of at 1. rewrite filter_cons. cbn [fst].
  destruct (decide (d' = d)) as [->|Hne].
  - rewrite rows_of_absent by exact Hnin. cbn. rewrite !app_nil_r. reflexivity.
  - cbn. apply IH, Hnd.
Qed.

(** *** One flush *)

Lemma bounded_app batches batches' :
  bounded (batches ++ batches') <-> bounded batches /\ bounded batches'.
Proof. apply Forall_app. Qed.

Lemma flush_spec items : forall s logs r s',
  flush items s = (logs, r, s') ->
  tidy (writer s) ->
  batch_size s' = batch_size s /\ batch_time s' = batch_time s /\
  data s' = data s /\ clock s' = clock s /\ tidy (writer s') /\
  Forall (fun record => is_warning record = false) logs /\
  exists done rest, items = done ++ rest /\ written s' = written s ++ done /\
                    (r = Ok tt -> rest = []).
Proof.
  induction items as [|[partition data_list] items IH]; intros s logs r s' Hf Ht;
    cbn [flush] in Hf.
  - injection Hf as <- <- <-. repeat (split; [reflexivity || assumption || constructor|]).
    exists [], []. split; [reflexivity|split; [symmetry; apply app_nil_r|auto]].
  - destruct (storage_batch_from_list data_list) as [batch|e].
    2:{ injection Hf as <- <- <-.
        repeat (split; [reflexivity || assumption || (repeat constructor)|]).
        exists [], ((partition, data_list) :: items).
        split; [reflexivity|]. split; [symmetry; apply app_nil_r|]. discriminate. }
    destruct (tidy_write_batch partition (writer s) Ht) as (Ht' & Hok & _).
    destruct (write_batch partition (writer s)) as [[[]|e] w]; cbn [fst snd] in Ht', Hok;
      [|discriminate].
    destruct (flush items (wrote partition data_list (set_writer w s)))
      as [[logs1 r1] s1] eqn:Hrec.
    injection Hf as <- <- <-.
    destruct (IH _ _ _ _ Hrec Ht') as (I1 & I2 & I3 & I4 & I5 & I6 & done & rest & E1 & E2 & E3).
    cbn [wrote set_writer batch_size batch_time data clock written] in I1, I2, I3, I4, E2.
    repeat (split; [assumption|]).
    split; [constructor; [reflexivity|assumption]|].
    exists ((partition, data_list) :: done), rest.
    split; [rewrite E1; reflexivity|]. split; [|exact E3].
    rewrite E2, <- app_assoc. reflexivity.
Qed.

Lemma flush_ok items : forall s,
  (forall data_list, exists batch, storage_batch_from_list data_list = Ok batch) ->
  tidy (writer s) ->
  (flush items s).1.2 = Ok tt.
Proof.
  induction items as [|[partition data_list] items IH]; intros s Hst Ht;
    cbn [flush]; [reflexivity|].
  destruct (Hst data_list) as [batch ->].
  destruct (tidy_write_batch partition (writer s) Ht) as (Ht' & Hok & _).
  destruct (write_batch partition (writer s)) as [[[]|e] w]; cbn [fst snd] in Ht', Hok;
    [|discriminate].
  specialize (IH (wrote partition data_list (set_writer w s)) Hst Ht').
  destruct (flush items (wrote partition data_list (set_writer w s))) as [[logs1 r1] s1].
  exact IH.
Qed.

(** *** The loop invariant *)

Record weak (s : state) : Prop := {
  weak_tidy : tidy (writer s);
  weak_bounded : bounded (written s)
}.

Record good (acc : list (Date * mapping)) (s : state) : Prop := {
  good_weak : weak s;
  good_keys : NoDup (data s).*1;
  good_size : batch_size s = Z.of_nat (length (concat (data s).*2));
  good_room : data s = [] \/ batch_size s < BATCH_MAX_SIZE;
  good_rows : Forall (fun x => x.2 <> []) (data s);
  good_kept : forall d,
    rows_of d (written s) ++ pending d (data s) = points_of d acc
}.

Lemma good_start : good [] start.
Proof.
  constructor; cbn.
  - constructor; cbn; [apply tidy_init; unfold default_pool_size; lia|constructor].
  - constructor.
  - reflexivity.
  - left. reflexivity.
  - constructor.
  - reflexivity.
Qed.

Lemma accepted_cons point points :
  accepted (point :: points) = accepted [point] ++ accepted points.
Proof.
  unfold accepted. cbn [omap list_omap].
  destruct (partition_of_point point); reflexivity.
Qed.

Lemma accepted_app points points' :
  accepted (points ++ points') = accepted points ++ accepted points'.
Proof. apply omap_app. Qed.

Lemma length_concat_elem (l : list mapping) (ls : list (list mapping)) :
  l ∈ ls -> (length l <= length (concat ls))%nat.
Proof.
  induction ls as [|l' ls IH]; intros Hin; [inversion Hin|].
  cbn [concat]. rewrite length_app.
  apply elem_of_cons in Hin as [->|Hin]; [lia|]. specialize (IH Hin). lia.
Qed.

Lemma step_good point s acc logs r s' :
  step point s = (logs, r, s') ->
  good acc s ->
  weak s' /\ (r = Ok tt -> good (acc ++ accepted [point]) s').
Proof.
  intros Hs Hg. unfold step in Hs.
  unfold accepted, partition_of_point. cbn [omap list_omap].
  destruct (getitem PARTITION_KEY point) as [[b|]|e].
  2,3: injection Hs as <- <- <-; split; [apply Hg|discriminate].
  destruct (partition_of b) as [partition|].
  2:{ destruct (getitem "topic" point) as [topic|e]; injection Hs as <- <- <-.
      - split; [apply Hg|]. intros _. cbn. rewrite app_nil_r. exact Hg.
      - split; [apply Hg|discriminate]. }
  destruct (getitem "topic" point) as [topic|e].
  2:{ injection Hs as <- <- <-. split; [apply Hg|discriminate]. }
  cbn zeta in Hs. cbn [fmap option_fmap option_map].
  destruct Hg as [[Ht Hb] Hk Hsz Hroom Hrows Hkept].
  set (dat := append_point partition point (data s)) in *.
  assert (Hk' : NoDup dat.*1) by (apply append_point_NoDup, Hk).
  assert (Hsz' : batch_size s + 1 = Z.of_nat (length (concat dat.*2))).
  { unfold dat. rewrite append_point_length, Hsz. lia. }
  assert (Hrows' : Forall (fun x => x.2 <> []) dat)
    by (apply append_point_nonempty, Hrows).
  assert (Hkept' : forall d, rows_of d (written s) ++ pending d dat =
                             points_of d (acc ++ [(partition, point)])).
  { intros d. unfold dat. rewrite pending_append_point, app_assoc, Hkept, points_of_app.
    f_equal. unfold points_of. rewrite filter_cons, filter_nil. cbn [fst].
    destruct (decide (partition = d)); reflexivity. }
  assert (Hmax : batch_size s + 1 <= Z.max 1 BATCH_MAX_SIZE).
  { destruct Hroom as [Hnil|Hlt]; [|lia]. rewrite Hsz, Hnil. cbn. lia. }
  assert (Hflush : forall c,
    (let '(logs0, r0, s2) :=
       flush dat {| batch_size := batch_size s + 1; batch_time := batch_time s;
                    data := dat; writer := writer s; clock := c;
                    written := written s |} in
     match r0 with
     | Raise e => (Debug topic :: logs0, Raise e, s2)
     | Ok _ =>
         (Debug topic :: logs0, Ok tt,
          {| batch_size := 0; batch_time := time (clock s2); data := [];
             writer := writer s2; clock := S (clock s2);
             written := written s2 |})
     end) = (logs, r, s') ->
    weak s' /\ (r = Ok tt -> good (acc ++ [(partition, point)]) s')).
  { clear Hs. intros c Hs.
    match type of Hs with
    | context [flush ?d ?s1] => destruct (flush d s1) as [[logs1 r1] s2] eqn:Hf
    end.
    destruct (flush_spec _ _ _ _ _ Hf Ht)
      as (F1 & F2 & F3 & F4 & F5 & F6 & done & rest & E1 & E2 & E3).
    cbn [batch_size batch_time data clock written] in F1, F2, F3, F4, E2.
    assert (Hbd : bounded (written s ++ done)).
    { apply bounded_app. split; [exact Hb|].
      apply Forall_forall. intros [d l] Hin. cbn [snd].
      assert (Hin' : (d, l) ∈ dat) by (rewrite E1; apply elem_of_app; left; exact Hin).
      split.
      - rewrite Forall_forall in Hrows'. specialize (Hrows' _ Hin'). cbn [snd] in Hrows'.
        destruct l; [congruence|cbn [length]; lia].
      - assert (Hle : (length l <= length (concat dat.*2))%nat).
        { apply length_concat_elem. apply list_elem_of_fmap. exists (d, l). auto. }
        lia. }
    destruct r1 as [[]|e]; injection Hs as <- <- <-.
    + split; [constructor; cbn [writer written]; [exact F5|rewrite E2; exact Hbd]|].
      intros _. specialize (E3 eq_refl). subst rest. rewrite app_nil_r in E1. subst done.
      constructor; cbn [batch_size data written writer].
      * constructor; cbn [writer written]; [exact F5|rewrite E2; exact Hbd].
      * constructor.
      * reflexivity.
      * left. reflexivity.
      * constructor.
      * intros d. rewrite E2, rows_of_app, (rows_of_pending d dat Hk').
        cbn [pending]. rewrite app_nil_r. apply Hkept'.
    + split; [|discriminate].
      constructor; [exact F5|rewrite E2; exact Hbd]. }
  destruct (Z.ltb_spec (batch_size s + 1) BATCH_MAX_SIZE) as [Hlt|Hge];
    cbv beta iota zeta in Hs; [|exact (Hflush _ Hs)].
  destruct (float_lt_int (PrimFloat.sub (time (clock s)) (batch_time s))
              BATCH_MAX_DELAY); [|exact (Hflush _ Hs)].
  injection Hs as <- <- <-.
  split; [constructor; assumption|]. intros _.
  constructor; cbn [batch_size data written writer]; auto.
  constructor; assumption.
Qed.

Lemma run_loop_good points : forall s acc logs r s',
  run_loop points s = (logs, r, s') ->
  good acc s ->
  weak s' /\ (r = Ok tt -> good (acc ++ accepted points) s').
Proof.
  induction points as [|point points IH]; intros s acc logs r s' Hr Hg;
    cbn [run_loop] in Hr.
  - injection Hr as <- <- <-. split; [apply Hg|]. intros _.
    unfold accepted. cbn. rewrite app_nil_r. exact Hg.
  - destruct (step point s) as [[logs1 r1] s1] eqn:Hs.
    destruct (step_good _ _ _ _ _ _ Hs Hg) as [Hw Hg1].
    destruct r1 as [[]|e].
    + destruct (run_loop points s1) as [[logs2 r2] s2] eqn:Hr2.
      injection Hr as <- <- <-.
      rewrite accepted_cons, app_assoc. eapply IH; [exact Hr2|auto].
    + injection Hr as <- <- <-. split; [exact Hw|discriminate].
Qed.

Lemma run_loop_app points : forall points' s,
  run_loop (points ++ points') s =
    let '(logs, r, s1) := run_loop points s in
    match r with
    | Raise e => (logs, Raise e, s1)
    | Ok _ =>
        let '(logs', r', s2) := run_loop points' s1 in
        (logs ++ logs', r', s2)
    end.
Proof.
  induction points as [|point points IH]; intros points' s.
  - cbn [app run_loop]. destruct (run_loop points' s) as [[logs r] s1]. reflexivity.
  - cbn [app run_loop]. destruct (step point s) as [[logs1 r1] s1].
    destruct r1 as [[]|e]; [|reflexivity].
    rewrite IH. destruct (run_loop points s1) as [[logs2 r2] s2].
    destruct r2 as [[]|e]; [|reflexivity].
    destruct (run_loop points' s2) as [[logs3 r3] s3].
    rewrite app_assoc. reflexivity.
Qed.

(** Leaving the [with] block closes every file of a writer in step. *)
Lemma tidy_close (w : BatchWriter (Date := Date)) :
  tidy w -> open_handles (close w) = [].
Proof.
  intros [Hinv Hsize Hopen Hopened Honce Hall Hclosed].
  destruct Hinv as [Hlen Hd Hh Hpo Hfresh Hage].
  destruct (close_loop (_writer_pool w) w) as (C1 & C2 & C3 & C4).
  { intros d h Hin.
    destruct (pool_get d (_writer_pool w)) as [h'|] eqn:Hget.
    - f_equal. apply pool_get_Some in Hget. eapply fst_unique; eassumption.
    - apply pool_get_None in Hget. exfalso. apply Hget.
      apply list_elem_of_fmap. exists (d, h). auto. }
  cbn zeta in C4. fold (pool_dates w) in C4. fold (close w) in C4.
  apply elem_of_nil_inv. intros h Hin.
  apply C4 in Hin as [Hin Hnin]. apply Hopen in Hin. contradiction.
Qed.

(** *** Points that stop the loop, and points that do not *)

Lemma getitem_raises key point e : getitem key point = Raise e -> e = KeyError.
Proof.
  induction point as [|[k v] point IH]; cbn [getitem]; [congruence|].
  destruct (String.eqb k key); [discriminate|exact IH].
Qed.

Lemma read_input_topic source point v :
  point ∈ read_input source ->
  getitem PARTITION_KEY point = Ok v ->
  exists topic, getitem "topic" point = Ok topic.
Proof.
  unfold read_input. intros Hin Hget.
  apply list_elem_of_fmap in Hin as (line & -> & _).
  unfold mapping_of_line in *.
  destruct (fields_from_line line) as [|f fs]; [discriminate Hget|].
  exists f. reflexivity.
Qed.

Definition total : Prop :=
  forall data_list, exists batch, storage_batch_from_list data_list = Ok batch.

Lemma step_ok point s :
  total -> tidy (writer s) ->
  start_time_error point = None ->
  (exists topic, getitem "topic" point = Ok topic) ->
  (step point s).1.2 = Ok tt.
Proof.
  intros Hst Ht Hstart [topic Htopic]. unfold step. unfold start_time_error in Hstart.
  destruct (getitem PARTITION_KEY point) as [[b|]|e]; try discriminate Hstart.
  rewrite Htopic. destruct (partition_of b) as [partition|]; [|reflexivity].
  cbn zeta.
  assert (Hflush : forall c dat,
    (let '(logs0, r0, s2) :=
       flush dat {| batch_size := batch_size s + 1; batch_time := batch_time s;
                    data := dat; writer := writer s; clock := c;
                    written := written s |} in
     match r0 with
     | Raise e => (Debug topic :: logs0, Raise e, s2)
     | Ok _ =>
         (Debug topic :: logs0, Ok tt,
          {| batch_size := 0; batch_time := time (clock s2); data := [];
             writer := writer s2; clock := S (clock s2);
             written := written s2 |})
     end).1.2 = Ok tt).
  { intros c dat.
    match goal with
    | |- context [flush ?d ?s1] =>
        pose proof (flush_ok d s1 Hst Ht) as Hok;
        destruct (flush d s1) as [[logs1 r1] s2]
    end.
    cbn [fst snd] in Hok. subst r1. reflexivity. }
  destruct (batch_size s + 1 <? BATCH_MAX_SIZE); cbv beta iota zeta;
    [|apply Hflush].
  destruct (float_lt_int (PrimFloat.sub (time (clock s)) (batch_time s))
              BATCH_MAX_DELAY); [reflexivity|apply Hflush].
Qed.

Lemma run_loop_ok points : forall s acc,
  total -> good acc s ->
  Forall (fun point => start_time_error point = None /\
                       exists topic, getitem "topic" point = Ok topic) points ->
  exists logs s', run_loop points s = (logs, Ok tt, s').
Proof.
  induction points as [|point points IH]; intros s acc Hst Hg Hall.
  - exists [], s. reflexivity.
  - apply Forall_cons in Hall as [[Hstart Htopic] Hall]. cbn [run_loop].
    pose proof (step_ok point s Hst (weak_tidy _ (good_weak _ _ Hg)) Hstart Htopic) as Hok.
    destruct (step point s) as [[logs1 r1] s1] eqn:Hs. cbn [fst snd] in Hok. subst r1.
    destruct (step_good _ _ _ _ _ _ Hs Hg) as [_ Hg1].
    destruct (IH s1 _ Hst (Hg1 eq_refl) Hall) as (logs2 & s2 & ->).
    eauto.
Qed.

Lemma step_undated point s :
  undated point = true ->
  exists topic, step point s = ([Warning topic], Ok tt, s).
Proof.
  unfold undated, step.
  destruct (getitem PARTITION_KEY point) as [[b|]|e]; try discriminate.
  destruct (getitem "topic" point) as [topic|e]; try discriminate.
  intros Hb. apply bool_decide_eq_true in Hb. rewrite Hb. eauto.
Qed.

Lemma step_dated point s :
  undated point = false ->
  Forall (fun record => is_warning record = false) (step point s).1.1.
Proof.
  unfold undated, step.
  destruct (getitem PARTITION_KEY point) as [[b|]|e]; try (intros _; constructor).
  destruct (getitem "topic" point) as [topic|e].
  2:{ intros _. destruct (partition_of b); constructor. }
  intros Hb. apply bool_decide_eq_false in Hb.
  destruct (partition_of b) as [partition|]; [|congruence].
  cbn zeta.
  assert (Hflush : forall c dat,
    Forall (fun record => is_warning record = false)
    (let '(logs0, r0, s2) :=
       flush dat {| batch_size := batch_size s + 1; batch_time := batch_time s;
                    data := dat; writer := writer s; clock := c;
                    written := written s |} in
     match r0 with
     | Raise e => (Debug topic :: logs0, Raise e, s2)
     | Ok _ =>
         (Debug topic :: logs0, Ok tt,
          {| batch_size := 0; batch_time := time (clock s2); data := [];
             writer := writer s2; clock := S (clock s2);
             written := written s2 |})
     end).1.1).
  { intros c dat.
    match goal with
    | |- context [flush ?d ?s1] =>
        assert (Hl : Forall (fun record => is_warning record = false) (flush d s1).1.1);
        [|destruct (flush d s1) as [[logs1 r1] s2]]
    end.
    { clear. generalize {| batch_size := batch_size s + 1; batch_time := batch_time s;
                           data := dat; writer := writer s; clock := c;
                           written := written s |} as s1.
      induction dat as [|[partition data_list] dat IH]; intros s1; cbn [flush].
      - constructor.
      - destruct (storage_batch_from_list data_list) as [batch|e];
          [|repeat constructor].
        destruct (write_batch partition (writer s1)) as [[[]|e] w];
          [|repeat constructor].
        specialize (IH (wrote partition data_list (set_writer w s1))).
        destruct (flush dat (wrote partition data_list (set_writer w s1)))
          as [[logs1 r1] s2].
        constructor; [reflexivity|exact IH]. }
    cbn [fst snd] in Hl. destruct r1; constructor; auto. }
  destruct (batch_size s + 1 <? BATCH_MAX_SIZE); cbv beta iota zeta;
    [|apply Hflush].
  destruct (float_lt_int (PrimFloat.sub (time (clock s)) (batch_time s))
              BATCH_MAX_DELAY); [repeat constructor|apply Hflush].
Qed.

Lemma filter_all {A : Type} (P : A -> Prop) `{forall x, Decision (P x)} (l : list A) :
  Forall P l -> filter P l = l.
Proof.
  induction 1 as [|x l Hx Hl IH]; [reflexivity|].
  rewrite filter_cons, decide_True by exact Hx. f_equal. exact IH.
Qed.

Lemma run_loop_undated points : forall s,
  run_loop (filter (fun point => undated point = false) points) s =
    let '(logs, r, s') := run_loop points s in
    (filter (fun record => is_warning record = false) logs, r, s').
Proof.
  induction points as [|point points IH]; intros s; [reflexivity|].
  rewrite filter_cons. destruct (undated point) eqn:Hu.
  - rewrite decide_False by discriminate. cbn [run_loop].
    destruct (step_undated point s Hu) as [topic ->].
    rewrite IH. destruct (run_loop points s) as [[logs r] s']. reflexivity.
  - rewrite decide_True by reflexivity. cbn [run_loop].
    pose proof (step_dated point s Hu) as Hl.
    destruct (step point s) as [[logs1 r1] s1]. cbn [fst snd] in Hl.
    destruct r1 as [[]|e].
    + rewrite IH. destruct (run_loop points s1) as [[logs2 r2] s2].
      rewrite filter_app, (filter_all _ _ Hl). reflexivity.
    + rewrite (filter_all _ _ Hl). reflexivity.
Qed.

(** *** A stream that never fills a batch *)

Lemma step_quiet point s :
  batch_size s + Z.of_nat (length (accepted [point])) < BATCH_MAX_SIZE ->
  batch_time s = time 0 ->
  (forall n, float_lt_int (PrimFloat.sub (time n) (time 0)) BATCH_MAX_DELAY = true) ->
  let s' := (step point s).2 in
  written s' = written s /\ writer s' = writer s /\ batch_time s' = time 0 /\
  batch_size s' <= batch_size s + Z.of_nat (length (accepted [point])).
Proof.
  intros Hlt Hbt Hq. unfold step. unfold accepted, partition_of_point in Hlt |- *.
  cbn [omap list_omap] in Hlt |- *.
  destruct (getitem PARTITION_KEY point) as [[b|]|e];
    try (cbn; repeat split; auto; cbn in Hlt; lia).
  destruct (partition_of b) as [partition|].
  2:{ destruct (getitem "topic" point);
        cbn; repeat split; auto; cbn in Hlt; lia. }
  cbn in Hlt.
  destruct (getitem "topic" point) as [topic|e];
    [|cbn; repeat split; auto; lia].
  cbn zeta.
  destruct (Z.ltb_spec (batch_size s + 1) BATCH_MAX_SIZE) as [_|Hge]; [|lia].
  cbv beta iota zeta. rewrite Hbt, Hq. cbn. repeat split; auto; lia.
Qed.

Lemma run_loop_quiet points : forall s,
  batch_size s + Z.of_nat (length (accepted points)) < BATCH_MAX_SIZE ->
  batch_time s = time 0 ->
  (forall n, float_lt_int (PrimFloat.sub (time n) (time 0)) BATCH_MAX_DELAY = true) ->
  let s' := (run_loop points s).2 in
  written s' = written s /\ writer s' = writer s.
Proof.
  induction points as [|point points IH]; intros s Hlt Hbt Hq; [split; reflexivity|].
  rewrite accepted_cons, length_app in Hlt.
  destruct (step_quiet point s) as (Q1 & Q2 & Q3 & Q4); [lia|exact Hbt|exact Hq|].
  cbn [run_loop]. destruct (step point s) as [[logs1 r1] s1]. cbn [snd] in Q1, Q2, Q3, Q4.
  destruct r1 as [[]|e]; [|split; assumption].
  destruct (IH s1) as [I1 I2]; [lia|exact Q3|exact Hq|].
  destruct (run_loop points s1) as [[logs2 r2] s2]. cbn [snd] in *.
  split; congruence.
Qed.

(** *** Properties of [run] *)

(** X21. Reaching the end of the input flushes nothing. When [run] returns,
    the rows written for a day, followed by the rows of that day still
    in [data], are the points taken in for that day, in the order of
    arrival: the rows in [data] then, fewer than [BATCH_MAX_SIZE], have
    been taken in and are in no file. *)
Theorem run_returns_with_rows_unwritten (source : list byte) :
  (run source).1.2 = Ok tt ->
  let s := (run source).2 in
  (forall d, rows_of d (written s) ++ pending d (data s) =
             points_of d (accepted (read_input source))) /\
  NoDup (data s).*1 /\
  batch_size s = Z.of_nat (length (concat (data s).*2)) /\
  (data s = [] \/ batch_size s < BATCH_MAX_SIZE).
Proof.
  unfold run, run_on.
  destruct (run_loop (read_input source) start) as [[logs r] s] eqn:Hr.
  cbn [fst snd]. intros ->.
  destruct (run_loop_good _ _ _ _ _ _ Hr good_start) as [_ Hg].
  destruct (Hg eq_refl) as [_ Hk Hsz Hroom _ Hkept].
  cbn [set_writer written data batch_size]. auto.
Qed.

(** X22. A stream that ends before its [BATCH_MAX_SIZE]-th usable point, on a
    clock that stays within [BATCH_MAX_DELAY] of the start, is never
    written: [run] writes no batch and opens no file, and when it
    returns every point it took in is still in [data]. *)
Theorem short_quiet_input_is_never_written (source : list byte) :
  Z.of_nat (length (accepted (read_input source))) < BATCH_MAX_SIZE ->
  (forall n, float_lt_int (PrimFloat.sub (time n) (time 0)) BATCH_MAX_DELAY = true) ->
  let s := (run source).2 in
  written s = [] /\ io_log (writer s) = [] /\
  ((run source).1.2 = Ok tt ->
   forall d, pending d (data s) = points_of d (accepted (read_input source))).
Proof.
  intros Hlt Hq.
  destruct (run_loop_quiet (read_input source) start) as [Q1 Q2];
    [cbn [start batch_size]; lia|reflexivity|exact Hq|].
  unfold run, run_on.
  destruct (run_loop (read_input source) start) as [[logs r] s] eqn:Hr.
  cbn [fst snd] in *. cbn [set_writer written data writer].
  split; [exact Q1|]. split; [rewrite Q2; reflexivity|].
  intros ->. intros d.
  destruct (run_loop_good _ _ _ _ _ _ Hr good_start) as [_ Hg].
  destruct (Hg eq_refl) as [_ _ _ _ _ Hkept].
  rewrite <- Hkept, Q1. reflexivity.
Qed.

(** X23. A record without a start time stops the pipeline. When
    [storage_batch_from_list] raises nothing, the first point whose
    [start_time] is null (an empty or [?UNKNOWN?] field) makes [run]
    raise [AttributeError], and the first one without the key (a line
    of fewer than nine fields) [KeyError]; [clean_exit] lets both
    through. The files are closed, and the rows then in [data], taken
    in from the points before, are in no file. *)
Theorem missing_start_time_stops_the_pipeline
    (source : list byte) (pre : list mapping) (point : mapping)
    (post : list mapping) (e : exn) :
  total ->
  read_input source = pre ++ point :: post ->
  Forall (fun q => start_time_error q = None) pre ->
  start_time_error point = Some e ->
  exists logs s,
    run source = (logs, Raise e, s) /\
    (e = KeyError \/ e = AttributeError) /\
    clean_exit (run source).1.2 = Raise e /\
    open_handles (writer s) = [] /\
    forall d, rows_of d (written s) ++ pending d (data s) =
              points_of d (accepted pre).
Proof.
  intros Hst Hsrc Hpre Hpt.
  assert (He : e = KeyError \/ e = AttributeError).
  { unfold start_time_error in Hpt.
    destruct (getitem PARTITION_KEY point) as [[b|]|e'] eqn:Hget.
    - discriminate.
    - right. congruence.
    - left. injection Hpt as <-. eapply getitem_raises, Hget. }
  assert (Hpre' : Forall (fun q => start_time_error q = None /\
                                   exists topic, getitem "topic" q = Ok topic) pre).
  { apply Forall_forall. intros q Hq. rewrite Forall_forall in Hpre.
    specialize (Hpre q Hq). split; [exact Hpre|].
    unfold start_time_error in Hpre.
    destruct (getitem PARTITION_KEY q) as [[b|]|e'] eqn:Hget; try discriminate.
    eapply (read_input_topic source); [|exact Hget].
    rewrite Hsrc. apply elem_of_app. left. exact Hq. }
  destruct (run_loop_ok pre start [] Hst good_start Hpre') as (logs1 & s1 & Hr1).
  destruct (run_loop_good _ _ _ _ _ _ Hr1 good_start) as [_ Hg].
  specialize (Hg eq_refl). cbn [app] in Hg.
  assert (Hstep : step point s1 = ([], Raise e, s1)).
  { unfold step. unfold start_time_error in Hpt.
    destruct (getitem PARTITION_KEY point) as [[b|]|e']; congruence. }
  assert (Hrun : run source =
                 (logs1, Raise e, set_writer (close (writer s1)) s1)).
  { unfold run, run_on. rewrite Hsrc, run_loop_app, Hr1.
    cbn [run_loop]. rewrite Hstep, app_nil_r. reflexivity. }
  exists logs1, (set_writer (close (writer s1)) s1).
  split; [exact Hrun|]. split; [exact He|]. split.
  { rewrite Hrun. cbn [fst snd]. destruct He as [-> | ->]; reflexivity. }
  cbn [set_writer writer written data]. split.
  - apply tidy_close. apply Hg.
  - apply Hg.
Qed.

(** X24. However [run] ends, by the end of the input or by an exception, it
    leaves no file open. *)
Theorem run_leaves_no_file_open (source : list byte) :
  open_handles (writer (run source).2) = [].
Proof.
  unfold run, run_on.
  destruct (run_loop (read_input source) start) as [[logs r] s] eqn:Hr.
  destruct (run_loop_good _ _ _ _ _ _ Hr good_start) as [[Ht _] _].
  cbn [snd set_writer writer]. apply tidy_close, Ht.
Qed.

(** X25. Every record batch [run] writes has at least one row and at most
    [BATCH_MAX_SIZE] rows (one row, when [BATCH_MAX_SIZE] is below
    one), however [run] ends. *)
Theorem batches_hold_one_to_max_rows (source : list byte) :
  Forall (fun b => (1 <= length b.2)%nat /\
                   Z.of_nat (length b.2) <= Z.max 1 BATCH_MAX_SIZE)
         (written (run source).2).
Proof.
  unfold run, run_on.
  destruct (run_loop (read_input source) start) as [[logs r] s] eqn:Hr.
  destruct (run_loop_good _ _ _ _ _ _ Hr good_start) as [[_ Hb] _].
  cbn [snd set_writer written]. exact Hb.
Qed.

(** X26. A point whose start time is no date only leaves a warning: without
    these points [run] ends the same way, in the same state with the
    same batches written, and logs the same records but the warnings.
    Such a point counts for no batch and never sets off a flush, however
    long it comes after the last one. *)
Theorem undated_points_are_inert (points : list mapping) :
  run_on (filter (fun point => undated point = false) points) =
    let '(logs, r, s) := run_on points in
    (filter (fun record => is_warning record = false) logs, r, s).
Proof.
  unfold run_on. rewrite run_loop_undated.
  destruct (run_loop points start) as [[logs r] s]. reflexivity.
Qed.

End Run.

(** Instances. The day is the digit a start time begins with, a batch is
    the list it is made from, and the clock stands still. *)
Definition day_of (b : list byte) : option nat :=
  match b with
  | "1"%byte :: _ => Some 1%nat
  | "2"%byte :: _ => Some 2%nat
  | _ => None
  end.

Definition as_given (data_list : list mapping) : outcome (list mapping) :=
  Ok data_list.

Definition still (n : nat) : float := 0%float.

Definition line (topic start_time : string) : list byte :=
  bytes (topic +:+ "!b!c!s!i!G16!x!r!" +:+ start_time +:+ "!e!c" +:+ nl).

Lemma run_returns_with_rows_unwritten_witness :
  let source := line "t1" "1" ++ line "t2" "1" ++ line "t3" "1" in
  let s := (run 2 120 day_of as_given still source).2 in
  (run 2 120 day_of as_given still source).1.2 = Ok tt /\
  written s = [(1%nat, read_input (line "t1" "1" ++ line "t2" "1"))] /\
  data s = [(1%nat, read_input (line "t3" "1"))] /\
  (forall d, rows_of d (written s) ++ pending d (data s) =
             points_of d (accepted day_of (read_input source))) /\
  NoDup (data s).*1 /\
  batch_size s = Z.of_nat (length (concat (data s).*2)) /\
  (data s = [] \/ batch_size s < 2).
Proof.
  cbn zeta. split; [vm_compute; reflexivity|].
  split; [vm_compute; reflexivity|]. split; [vm_compute; reflexivity|].
  apply (run_returns_with_rows_unwritten 2 120 day_of as_given still).
  vm_compute. reflexivity.
Defined.

Lemma short_quiet_input_is_never_written_witness :
  let source := line "t1" "1" ++ line "t2" "2" in
  let s := (run 3 120 day_of as_given still source).2 in
  (run 3 120 day_of as_given still source).1.2 = Ok tt /\
  written s = [] /\ io_log (writer s) = [] /\
  ((run 3 120 day_of as_given still source).1.2 = Ok tt ->
   forall d, pending d (data s) = points_of d (accepted day_of (read_input source))).
Proof.
  cbn zeta. split; [vm_compute; reflexivity|].
  apply (short_quiet_input_is_never_written 3 120 day_of as_given still).
  - vm_compute. reflexivity.
  - intros n. vm_compute. reflexivity.
Defined.

Lemma missing_start_time_stops_the_pipeline_witness :
  let source := line "t1" "1" ++ line "t2" "?UNKNOWN?" ++ line "t3" "1" in
  exists logs s,
    run 2 120 day_of as_given still source = (logs, Raise AttributeError, s) /\
    (AttributeError = KeyError \/ AttributeError = AttributeError) /\
    clean_exit (run 2 120 day_of as_given still source).1.2 = Raise AttributeError /\
    open_handles (writer s) = [] /\
    forall d, rows_of d (written s) ++ pending d (data s) =
              points_of d (accepted day_of (read_input (line "t1" "1"))).
Proof.
  cbn zeta.
  apply (missing_start_time_stops_the_pipeline 2 120 day_of as_given still
           (line "t1" "1" ++ line "t2" "?UNKNOWN?" ++ line "t3" "1")
           (read_input (line "t1" "1"))
           (mapping_of_line (line "t2" "?UNKNOWN?"))
           (read_input (line "t3" "1")) AttributeError).
  - intros data_list. exists data_list. reflexivity.
  - vm_compute. reflexivity.
  - vm_compute. repeat constructor.
  - vm_compute. reflexivity.
Defined.

End Pipeline.

(** ** From the emitter to the ingest parser: [json_emit] of
       [amqpfind.py] writes the lines [read_input] of
       [sat_latency/pipeline/extract.py] reads *)

Module Handoff.
Import Ingest IngestFacts Amqpfind.
Local Open Scope Z_scope.

(** Names of keys: none is a positional field. *)
Definition named (names : list string) : Prop :=
  Forall (fun name => positional name = false) names.

(** The format string [{n1}!{n2}!...!{nk}]: one plain field a name,
    joined by the ingest separator. *)
Fixpoint record_template (names : list string) : list segment :=
  match names with
  | [] => []
  | [name] => [Field (mkRepl name [])]
  | name :: names' =>
      Field (mkRepl name []) :: Literal "!" :: record_template names'
  end.

(** What [print(s)] puts on standard output: the characters of [s] and a
    newline. *)
Definition printed (s : string) : list byte := bytes s ++ [NEWLINE].

(** The bytes on standard output after [events], lines being the only
    output. *)
Definition stdout_bytes (events : list event) : list byte :=
  concat (omap (fun ev => match ev with
                          | Stdout (Line s) => Some (printed s)
                          | _ => None
                          end) events).

(** The text [json_emit] puts for [name]. *)
Definition rendered (content : payload) (name : string) : list byte :=
  bytes (py_str (default _missing_ (content !! name))).

(** The field the pipeline gets for [name]: null for a name the payload
    lacks, and for a value that prints as nothing or as the marker of a
    missing name. *)
Definition received (content : payload) (name : string) : option (list byte) :=
  match content !! name with
  | None => None
  | Some v => field_value (bytes (py_str v))
  end.

Lemma bytes_app (a b : string) : bytes (a +:+ b) = bytes a ++ bytes b.
Proof.
  unfold bytes, list_byte_of_string. induction a as [|c a IH]; [reflexivity|].
  change (String c a +:+ b) with (String c (a +:+ b)).
  cbn [list_ascii_of_string List.map app]. rewrite IH. reflexivity.
Qed.

Lemma record_template_plain names : named names -> plain (record_template names).
Proof.
  unfold plain, named. induction names as [|name names IH]; [constructor|].
  intros Hn. apply Forall_cons in Hn as [Hname Hn].
  destruct names as [|name' names]; [repeat constructor; exact Hname|].
  change (record_template (name :: name' :: names))
    with (Field (mkRepl name []) :: Literal "!" :: record_template (name' :: names)).
  constructor; [split; [exact Hname|reflexivity]|].
  constructor; [exact I|exact (IH Hn)].
Qed.

Lemma record_template_bytes (content : payload) names :
  bytes (concat_strings (substitute content <$> record_template names))
  = join (rendered content <$> names).
Proof.
  induction names as [|name names IH]; [reflexivity|].
  destruct names as [|name' names].
  - cbn [record_template fmap list_fmap concat_strings foldr join substitute arg_name].
    rewrite bytes_app. cbn. rewrite app_nil_r. reflexivity.
  - change (record_template (name :: name' :: names))
      with (Field (mkRepl name []) :: Literal "!" :: record_template (name' :: names)).
    rewrite !fmap_cons.
    change (join (rendered content name :: rendered content name'
                    :: (rendered content <$> names)))
      with (rendered content name ++ INGEST_SEPARATOR
              :: join (rendered content <$> name' :: names)).
    rewrite <- IH.
    cbn [concat_strings foldr substitute arg_name].
    rewrite !bytes_app. reflexivity.
Qed.

Lemma field_value_rendered (content : payload) name :
  field_value (rendered content name) = received content name.
Proof.
  unfold rendered, received. destruct (content !! name); reflexivity.
Qed.

Lemma fields_of_row (row : list (list byte)) :
  row <> [] -> Forall clean row ->
  fields_from_line (encode_row row) = field_value <$> row.
Proof.
  intros Hne Hrow. destruct (terminated_spec row Hne) as [He Hf].
  pose proof (fields_loop_encoded (terminated row) [] [] (terminated_ok row Hrow)
                (Forall_nil_2 _)) as Hl.
  cbn [app length] in Hl. rewrite !app_nil_r, He, Hf in Hl. exact Hl.
Qed.

(** X27. A message emitted through the template [{n1}!...!{nk}] reaches the
    pipeline as one record. The names are key names: none is empty or a
    number, which would make a positional field and a [ValueError]. When
    none of the payload's values named in
    the template prints with a ['!'] or a newline in it, [json_emit]
    writes one line and [read_input], reading what was written, yields
    one mapping, which pairs the schema names in order with the values
    as printed; a name the payload lacks, written [?UNKNOWN?], comes out
    null, as does a value that prints as nothing. Emitting does not
    fail. *)
Theorem emitted_line_is_read_back (topic : string) (content : payload)
    (names : list string) :
  names <> [] -> named names ->
  (forall name v, name ∈ names -> content !! name = Some v ->
                  clean (bytes (py_str v))) ->
  let r := json_emit topic content (Some (FmtTemplate (record_template names))) in
  r.2 = Ok tt /\
  read_input (stdout_bytes r.1) = [zip INGEST_FIELDS (received content <$> names)].
Proof.
  intros Hne Hnamed Hclean. cbn zeta.
  assert (Hr : json_emit topic content (Some (FmtTemplate (record_template names)))
               = ([Stdout (Line (concat_strings
                                   (substitute content <$> record_template names)));
                   StdoutFlush], Ok tt)).
  { unfold json_emit.
    rewrite (format_map_plain content _ content (record_template_plain names Hnamed))
      by reflexivity.
    reflexivity. }
  rewrite Hr. cbn [fst snd]. split; [reflexivity|].
  unfold stdout_bytes. cbn [omap list_omap concat].
  rewrite app_nil_r. unfold printed. rewrite record_template_bytes.
  set (row := rendered content <$> names).
  assert (Hrow : Forall clean row).
  { apply Forall_forall. intros f Hf. apply list_elem_of_fmap in Hf as (name & -> & Hin).
    unfold rendered. destruct (content !! name) as [v|] eqn:Hv.
    - apply (Hclean name v Hin Hv).
    - cbn. repeat constructor. }
  assert (Hrow0 : row <> []) by (unfold row; destruct names; [congruence|discriminate]).
  change (join row ++ [NEWLINE]) with (encode_row row).
  unfold read_input.
  pose proof (readlines_rows [row]) as Hl. cbn [fmap list_fmap concat] in Hl.
  rewrite app_nil_r in Hl. rewrite Hl by (repeat constructor; exact Hrow).
  cbn [map]. unfold mapping_of_line. rewrite (fields_of_row row Hrow0 Hrow).
  unfold row. rewrite <- list_fmap_compose. do 2 f_equal.
  apply list_fmap_ext. intros i name _. apply field_value_rendered.
Qed.

Lemma emitted_line_is_read_back_witness :
  let content : payload :=
    {[ "topic" := VStr "geo.g16"; "band" := VInt 7; "coverage" := VStr "" ]} in
  let names := ["topic"; "band"; "coverage"; "ingest_source"] in
  let r := json_emit "t" content (Some (FmtTemplate (record_template names))) in
  r.1 = [Stdout (Line "geo.g16!7!!?UNKNOWN?"); StdoutFlush] /\
  r.2 = Ok tt /\
  read_input (stdout_bytes r.1)
    = [zip INGEST_FIELDS (received content <$> names)] /\
  received content <$> names = [Some (bytes "geo.g16"); Some (bytes "7"); None; None].
Proof.
  cbn zeta. split; [vm_compute; reflexivity|].
  destruct (emitted_line_is_read_back "t"
              {[ "topic" := VStr "geo.g16"; "band" := VInt 7; "coverage" := VStr "" ]}
              ["topic"; "band"; "coverage"; "ingest_source"]) as [H1 H2].
  - discriminate.
  - repeat constructor.
  - intros name v Hin Hv.
    repeat (apply elem_of_cons in Hin as [->|Hin]);
      try (vm_compute in Hv; injection Hv as <-; vm_compute; repeat constructor);
      try (vm_compute in Hv; discriminate Hv).
    inversion Hin.
  - split; [exact H1|]. split; [exact H2|]. vm_compute. reflexivity.
Defined.

End Handoff.

(** ** Querying the store: [satellite_data_from_filters] of
       [sat_latency/interface.py] *)

Module Interface.
Import Reader ReaderFacts.
Local Open Scope Z_scope.

(** [pc.field(name).isin(values)] for a list of strings: a null is in
    no such list. *)
Definition isin (v : option string) (values : list string) : bool :=
  match v with
  | Some s => bool_decide (s ∈ values)
  | None => false
  end.

(** A condition that is added only when its argument is not [None]. *)
Definition when {A : Type} (arg : option A) (test : A -> bool) : bool :=
  match arg with
  | Some a => test a
  | None => true
  end.

Section Filters.

(** [pc.strftime] of a timestamp, and [pc.match_like] and
    [pc.match_substring_regex] of a string that is not null, with their
    patterns. *)
Variable strftime : Z -> string.
Variable match_like : string -> string -> bool.
Variable match_substring_regex : string -> string -> bool.

(** [q_filter], as [tbl.filter] applies it: a row is kept when the
    expression is true of it, and dropped when it is false or null. A
    conjunction is true when all its terms are; a comparison with a null,
    and a match on a null, are null. [now] is what [dt.now(tz.utc)]
    returns when the filter is built. *)
Definition q_filter (now start_date : Z) (end_date : option Z)
    (satellite_ids coverages bands sections sources instruments
       : option (list string))
    (topic_regex date_like : option string) (r : stored_record) : bool :=
  match start_time r with
  | None => false
  | Some s =>
      (start_date <=? s) && (s <=? default now end_date)
      && when satellite_ids (isin (satellite_ID r))
      && when coverages (isin (coverage r))
      && when bands (isin (band r))
      && when sections (isin (section r))
      && when sources (isin (ingest_source r))
      && when instruments (isin (instrument r))
      && when date_like (match_like (strftime s))
      && when topic_regex (fun regex =>
           match topic r with
           | Some t => match_substring_regex t regex
           | None => false
           end)
  end.

(** [satellite_data_from_filters] with [columns=None]. [now_read] is
    what [datetime.now] returns in [daterange]. [read_satellite_data]
    gives [pa.Table.from_batches] no schema, so it raises [ValueError]
    when the files read hold no batch. The range of its float64 cast is
    left aside here: the frame is [read_frame]. *)
Definition satellite_data_from_filters (files_on : Z -> option arrows_file)
    (now now_read start_date : Z) (end_date : option Z)
    (satellite_ids coverages bands sections sources instruments
       : option (list string))
    (topic_regex date_like : option string) : outcome frame :=
  let q := q_filter now start_date end_date satellite_ids coverages bands
             sections sources instruments topic_regex date_like in
  match _yield_batches (_files_from_date_range files_on now_read start_date end_date) with
  | [] => Raise ValueError
  | _ :: _ => Ok (read_frame files_on now_read start_date end_date (Some q))
  end.

(** The rows a call returns; none when it raises. *)
Definition returned (res : outcome frame) (r : stored_record) : Prop :=
  match res with
  | Ok df => r ∈ rows df
  | Raise _ => False
  end.

(** [r] is in a readable batch of the file of day [d]. *)
Definition stored (files_on : Z -> option arrows_file) (d : Z)
    (r : stored_record) : Prop :=
  exists file batch, files_on d = Some file /\ Some batch ∈ file /\ r ∈ batch.

(** Every file holds rows of its own day only, as the pipeline writes
    them. *)
Definition partitioned (files_on : Z -> option arrows_file) : Prop :=
  forall d r, stored files_on d r ->
    exists s, start_time r = Some s /\ s `div` DAY = d.

Lemma days_span (start last : Z) :
  (last - start) `div` DAY
  = last `div` DAY - start `div` DAY
    - (if last `mod` DAY <? start `mod` DAY then 1 else 0).
Proof.
  pose proof DAY_pos as HD.
  pose proof (Z.div_mod last DAY) as E1. pose proof (Z.div_mod start DAY) as E2.
  pose proof (Z.mod_pos_bound last DAY HD) as B1.
  pose proof (Z.mod_pos_bound start DAY HD) as B2.
  destruct (Z.ltb_spec (last `mod` DAY) (start `mod` DAY)) as [Hlt|Hge].
  - symmetry. apply (Z.div_unique _ _ _ (last `mod` DAY - start `mod` DAY + DAY)); lia.
  - symmetry. apply (Z.div_unique _ _ _ (last `mod` DAY - start `mod` DAY)); lia.
Qed.

Lemma elem_of_concat {A : Type} (x : A) (ls : list (list A)) :
  x ∈ concat ls <-> exists l, x ∈ l /\ l ∈ ls.
Proof.
  induction ls as [|l ls IH]; cbn [concat].
  - split; [intros Hin; inversion Hin|intros (l & _ & Hin); inversion Hin].
  - rewrite elem_of_app, IH. split.
    + intros [Hx|(l' & Hx & Hl)]; [exists l; split; [exact Hx|left]|].
      exists l'. split; [exact Hx|right; exact Hl].
    + intros (l' & Hx & Hl). apply elem_of_cons in Hl as [->|Hl]; [left; exact Hx|].
      right. exists l'. auto.
Qed.

Lemma elem_of_read (files_on : Z -> option arrows_file)
    (now_read start_date : Z) (end_date : option Z) (r : stored_record) :
  r ∈ concat (_yield_batches
                (_files_from_date_range files_on now_read start_date end_date))
  <-> exists d, d ∈ days_read now_read start_date end_date /\ stored files_on d r.
Proof.
  unfold _yield_batches, _files_from_date_range, days_read, stored.
  rewrite elem_of_concat. split.
  - intros (batch & Hr & Hb).
    apply list_elem_of_omap in Hb as (ob & Hob & Hid). cbn in Hid. subst ob.
    apply elem_of_concat in Hob as (file & Hbf & Hf).
    apply list_elem_of_omap in Hf as (date & Hdate & Hfile).
    exists (date `div` DAY). split.
    + apply list_elem_of_fmap. exists date. auto.
    + exists file, batch. auto.
  - intros (d & Hd & file & batch & Hfile & Hb & Hr).
    apply list_elem_of_fmap in Hd as (date & -> & Hdate).
    exists batch. split; [exact Hr|].
    apply list_elem_of_omap. exists (Some batch). split; [|reflexivity].
    apply elem_of_concat. exists file. split; [exact Hb|].
    apply list_elem_of_omap. exists date. auto.
Qed.

(** X28. What a query returns, and the rows of the last day it leaves out.
    On a store where every file holds rows of its day, the call returns
    a row exactly when the row is stored, its start time lies between
    [start_date] and the end of the window, it passes the filters given,
    and its day is before the day of the end date or, being that day,
    the end date's time of day is not before the start date's. So when
    the end date's time of day is before the start date's, no row of the
    end date's day is returned, whether its start time is in the window
    or not. Without an end date the window ends now and the days read
    run to tomorrow. *)
Theorem query_returns_window_but_last_day (files_on : Z -> option arrows_file)
    (now now_read start_date : Z) (end_date : option Z)
    (satellite_ids coverages bands sections sources instruments
       : option (list string))
    (topic_regex date_like : option string) :
  partitioned files_on ->
  let res := satellite_data_from_filters files_on now now_read start_date
               end_date satellite_ids coverages bands sections sources
               instruments topic_regex date_like in
  let last := default (now_read + DAY) end_date in
  (forall r,
     returned res r <->
       exists s, start_time r = Some s /\ stored files_on (s `div` DAY) r /\
         q_filter now start_date end_date satellite_ids coverages bands sections
           sources instruments topic_regex date_like r = true /\
         (s `div` DAY < last `div` DAY \/
          (s `div` DAY = last `div` DAY /\
           start_date `mod` DAY <= last `mod` DAY))) /\
  (last `mod` DAY < start_date `mod` DAY ->
   forall r s, start_time r = Some s -> s `div` DAY = last `div` DAY ->
               ~ returned res r).
Proof.
  intros Hpart res last. pose proof DAY_pos as HD.
  assert (Hmain : forall r,
     returned res r <->
       exists s, start_time r = Some s /\ stored files_on (s `div` DAY) r /\
         q_filter now start_date end_date satellite_ids coverages bands sections
           sources instruments topic_regex date_like r = true /\
         (s `div` DAY < last `div` DAY \/
          (s `div` DAY = last `div` DAY /\
           start_date `mod` DAY <= last `mod` DAY))).
  { intros r.
    assert (Hret : returned res r <->
              r ∈ concat (_yield_batches
                            (_files_from_date_range files_on now_read start_date end_date))
              /\ q_filter now start_date end_date satellite_ids coverages bands
                   sections sources instruments topic_regex date_like r = true).
    { unfold res, satellite_data_from_filters. cbn zeta.
      destruct (_yield_batches _) as [|b bs] eqn:Hb.
      - cbn. split; [tauto|]. intros [Hin _]. inversion Hin.
      - unfold returned, read_frame. cbn [rows]. rewrite Hb.
        rewrite list_elem_of_In, List.filter_In, <- list_elem_of_In. tauto. }
    rewrite Hret, elem_of_read. clear Hret.
    assert (Hday : forall s, start_date <= s ->
              (s `div` DAY ∈ days_read now_read start_date end_date <->
               s `div` DAY < last `div` DAY \/
               (s `div` DAY = last `div` DAY /\
                start_date `mod` DAY <= last `mod` DAY))).
    { intros s Hs. rewrite days_read_seqZ, elem_of_seqZ. fold last.
      rewrite (days_span start_date last).
      pose proof (Z.div_le_mono start_date s DAY HD Hs) as Hmono.
      destruct (Z.ltb_spec (last `mod` DAY) (start_date `mod` DAY)); lia. }
    split.
    - intros [(d & Hd & Hst) Hq].
      destruct (Hpart d r Hst) as (s & Hs & Hsd). subst d.
      exists s. split; [exact Hs|]. split; [exact Hst|]. split; [exact Hq|].
      apply Hday; [|exact Hd].
      unfold q_filter in Hq. rewrite Hs in Hq.
      destruct (Z.leb_spec start_date s) as [Hle|]; [exact Hle|discriminate Hq].
    - intros (s & Hs & Hst & Hq & Hd). split; [|exact Hq].
      exists (s `div` DAY). split; [|exact Hst].
      apply Hday; [|exact Hd].
      unfold q_filter in Hq. rewrite Hs in Hq.
      destruct (Z.leb_spec start_date s) as [Hle|]; [exact Hle|discriminate Hq]. }
  split; [exact Hmain|].
  intros Hlt r s Hs Hsd Hret. apply Hmain in Hret as (s' & Hs' & _ & _ & Hd).
  rewrite Hs in Hs'. injection Hs' as <-. lia.
Qed.

End Filters.

(** An instance: a store with a row at 13:00 of day 0 and a row at 01:00
    of day 2, and the window from 12:00 of day 0 until 06:00 of day 2.
    Both rows are in the window; the second is not returned. *)
Definition HOUR : Z := 3600 * 1000000.

Definition row_at (s : Z) : stored_record :=
  mkStored (Some "t") None None None None (Some "G16") None
    (Some (s + 5000000)) (Some s) None None.

Definition two_days (d : Z) : option arrows_file :=
  if d =? 0 then Some [Some [row_at (13 * HOUR)]]
  else if d =? 2 then Some [Some [row_at (2 * DAY + HOUR)]]
  else None.

Definition any_text (text pattern : string) : bool := true.

Lemma query_returns_window_but_last_day_witness :
  let r := row_at (2 * DAY + HOUR) in
  let q := q_filter (fun _ => "") any_text any_text 0 (12 * HOUR)
             (Some (2 * DAY + 6 * HOUR)) None None None None None None None None in
  let res := satellite_data_from_filters (fun _ => "") any_text any_text two_days
               0 0 (12 * HOUR) (Some (2 * DAY + 6 * HOUR))
               None None None None None None None None in
  q r = true /\ stored two_days 2 r /\
  (exists df, res = Ok df /\ rows df = [row_at (13 * HOUR)]) /\
  ~ returned res r.
Proof.
  cbn zeta. split; [vm_compute; reflexivity|].
  split; [exists [Some [row_at (2 * DAY + HOUR)]], [row_at (2 * DAY + HOUR)];
          split; [reflexivity|split; apply list_elem_of_here]|].
  split; [eexists; split; vm_compute; reflexivity|].
  refine (proj2 (query_returns_window_but_last_day (fun _ => "") any_text any_text
                   two_days 0 0 (12 * HOUR) (Some (2 * DAY + 6 * HOUR))
                   None None None None None None None None _) _
            (row_at (2 * DAY + HOUR)) (2 * DAY + HOUR) eq_refl _).
  - intros d r (file & batch & Hfile & Hb & Hr). unfold two_days in Hfile.
    destruct (Z.eqb_spec d 0) as [->|_].
    + injection Hfile as <-. apply list_elem_of_singleton in Hb. injection Hb as ->.
      apply list_elem_of_singleton in Hr. subst r.
      exists (13 * HOUR). split; [reflexivity|]. vm_compute. reflexivity.
    + destruct (Z.eqb_spec d 2) as [->|]; [|discriminate Hfile].
      injection Hfile as <-. apply list_elem_of_singleton in Hb. injection Hb as ->.
      apply list_elem_of_singleton in Hr. subst r.
      exists (2 * DAY + HOUR). split; [reflexivity|]. vm_compute. reflexivity.
  - vm_compute. reflexivity.
  - vm_compute. reflexivity.
Defined.

End Interface.

(** ** The latency column: [read_satellite_data] of
       [sat_latency/pipeline/load.py] *)

Module Latency.
Import Reader ReaderFacts Interface.
Local Open Scope Z_scope.

(** *** The float64 of an integer *)

(** The float [f] is finite and stands for the integer [z]. *)
Definition represents (f : spec_float) (z : Z) : Prop :=
  match f with
  | S754_zero _ => z = 0
  | S754_finite s m e =>
      cond_Zopp s (Zpos m) * 2 ^ Z.max e 0 = z * 2 ^ Z.max (- e) 0
  | _ => False
  end.

Lemma digits2_pos_bounds (p : positive) :
  2 ^ (Zpos (digits2_pos p) - 1) <= Zpos p < 2 ^ Zpos (digits2_pos p).
Proof.
  induction p as [p IH|p IH|]; cbn [digits2_pos].
  - rewrite Pos2Z.inj_succ.
    replace (Z.succ (Zpos (digits2_pos p)) - 1) with (Zpos (digits2_pos p)) by lia.
    rewrite Z.pow_succ_r by lia.
    replace (Zpos (digits2_pos p)) with (Z.succ (Zpos (digits2_pos p) - 1)) at 1 by lia.
    rewrite Z.pow_succ_r by lia. lia.
  - rewrite Pos2Z.inj_succ.
    replace (Z.succ (Zpos (digits2_pos p)) - 1) with (Zpos (digits2_pos p)) by lia.
    rewrite Z.pow_succ_r by lia.
    replace (Zpos (digits2_pos p)) with (Z.succ (Zpos (digits2_pos p) - 1)) at 1 by lia.
    rewrite Z.pow_succ_r by lia. lia.
  - cbn. lia.
Qed.

Lemma iter_xO_value (p k : positive) :
  Zpos (Pos.iter xO p k) = Zpos p * 2 ^ Zpos k.
Proof.
  induction k as [|k IH] using Pos.peano_ind.
  - cbn. lia.
  - rewrite Pos.iter_succ, Pos2Z.inj_succ, Z.pow_succ_r by lia.
    rewrite Pos2Z.inj_xO, IH. lia.
Qed.

Lemma iter_xO_digits (p k : positive) :
  digits2_pos (Pos.iter xO p k) = (digits2_pos p + k)%positive.
Proof.
  induction k as [|k IH] using Pos.peano_ind.
  - cbn. lia.
  - rewrite Pos.iter_succ. cbn [digits2_pos]. rewrite IH. lia.
Qed.

(** A mantissa of 53 bits is kept as it is. *)
Lemma binary_round_aux_canonical (s : bool) (m : positive) (e : Z) :
  Zpos (digits2_pos m) = 53 -> -1074 <= e <= 971 ->
  binary_round_aux prec emax s (Zpos m) e loc_Exact = S754_finite s m e.
Proof.
  intros Hd He. unfold binary_round_aux, shr_fexp.
  cbn [Zdigits2 shr_record_of_loc]. rewrite Hd.
  assert (Hf : fexp prec emax (53 + e) - e = 0).
  { unfold fexp, emin, prec, emax. lia. }
  rewrite Hf. cbn [shr shr_m loc_of_shr_record round_nearest_even Zdigits2 shr_record_of_loc].
  rewrite Hd, Hf. cbn [shr shr_m].
  replace (e <=? emax - prec) with true; [reflexivity|].
  symmetry. apply Z.leb_le. unfold emax, prec. lia.
Qed.

(** Rounding an integer up to [2^53] to binary64 loses nothing. *)
Lemma binary_round_exact (s : bool) (p : positive) :
  Zpos p <= 2 ^ 53 ->
  represents (binary_round prec emax s p 0) (cond_Zopp s (Zpos p)).
Proof.
  intros Hp. pose proof (digits2_pos_bounds p) as [Hlo Hhi].
  set (d := Zpos (digits2_pos p)) in *.
  assert (Hd1 : 1 <= d) by (unfold d; lia).
  assert (Hd : d <= 54).
  { destruct (Z_le_gt_dec d 54) as [|Hgt]; [assumption|].
    assert (2 ^ 54 <= 2 ^ (d - 1)) by (apply Z.pow_le_mono_r; lia).
    assert (2 ^ 53 < 2 ^ 54) by (apply Z.pow_lt_mono_r; lia). lia. }
  destruct (Z.eq_dec d 54) as [E54|N54].
  - assert (H : Zpos p = 2 ^ 53)
      by (rewrite E54 in Hlo; change (54 - 1) with 53 in Hlo; lia).
    assert (p = 9007199254740992%positive) as ->
      by (change (2 ^ 53) with 9007199254740992 in H; congruence).
    destruct s; vm_compute; reflexivity.
  - unfold binary_round, shl_align. fold d.
    assert (Hf : fexp prec emax (d + 0) = d - 53).
    { unfold fexp, emin, prec, emax. lia. }
    rewrite Hf, Z.sub_0_r.
    destruct (Z.eq_dec d 53) as [E53|N53].
    + rewrite E53. change (53 - 53) with 0. cbv iota beta.
      rewrite binary_round_aux_canonical; [|fold d; lia|lia].
      unfold represents. change (Z.max 0 0) with 0. change (Z.max (- 0) 0) with 0.
      reflexivity.
    + destruct (d - 53) as [|k|k] eqn:Hk; [lia|lia|].
      assert (Hdig : Zpos (digits2_pos (Pos.iter xO p k)) = 53).
      { rewrite iter_xO_digits, Pos2Z.inj_add. fold d. lia. }
      rewrite binary_round_aux_canonical; [|exact Hdig|lia].
      unfold represents. rewrite iter_xO_value.
      replace (Z.max (Zneg k) 0) with 0 by lia.
      replace (Z.max (- Zneg k) 0) with (Zpos k) by lia.
      rewrite Z.pow_0_r. destruct s; cbn [cond_Zopp]; ring.
Qed.

Lemma float64_value_spec (z : Z) :
  Z.abs z <= 2 ^ 53 ->
  Prim2SF (float64_value z) = binary_normalize prec emax z 0 false.
Proof.
  intros Hz. assert (H53 : 2 ^ 53 < Uint63.wB) by (vm_compute; reflexivity).
  destruct z as [|p|p]; cbn [float64_value].
  - reflexivity.
  - rewrite FloatAxioms.of_uint63_spec, Uint63.of_Z_spec, Z.mod_small by lia.
    reflexivity.
  - rewrite FloatAxioms.opp_spec, FloatAxioms.of_uint63_spec, Uint63.of_Z_spec,
      Z.mod_small by lia.
    cbn [binary_normalize]. unfold binary_round.
    destruct (shl_align _ _ _) as [mz ez]. unfold binary_round_aux.
    destruct (shr_fexp _ _ _ _ _) as [mrs' e'].
    destruct (shr_fexp _ _ _ _ _) as [mrs'' e''].
    destruct (shr_m mrs''); cbn [SFopp]; try reflexivity.
    destruct (e'' <=? emax - prec); reflexivity.
Qed.

(** The float64 of an integer up to [2^53] in magnitude is that
    integer. *)
Lemma float64_value_exact (z : Z) :
  Z.abs z <= 2 ^ 53 -> represents (Prim2SF (float64_value z)) z.
Proof.
  intros Hz. rewrite float64_value_spec by exact Hz.
  destruct z as [|p|p]; cbn [binary_normalize].
  - reflexivity.
  - apply (binary_round_exact false p). lia.
  - apply (binary_round_exact true p). lia.
Qed.

(** *** The cast of the column *)

(** The millisecond difference of [r] is one that the cast accepts. *)
Definition castable (r : stored_record) : Prop :=
  match milliseconds_between (start_time r) (reception_time r) with
  | Some ms => Z.abs ms <= 2 ^ 53
  | None => True
  end.

Definition in_range (v : option Z) : Prop :=
  match v with
  | Some z => Z.abs z <= 2 ^ 53
  | None => True
  end.

#[local] Instance in_range_dec (v : option Z) : Decision (in_range v).
Proof. destruct v as [z|]; cbn; apply _. Defined.

Lemma cast_float64_ok (col : list (option Z)) :
  Forall in_range col ->
  cast_float64 col = Ok ((fun v : option Z => float64_value <$> v) <$> col).
Proof.
  induction col as [|[z|] col IH]; intros Hall; cbn [cast_float64].
  - reflexivity.
  - apply Forall_cons in Hall as [Hz Hall]. cbn in Hz.
    unfold float64_of_int. apply Z.leb_le in Hz. rewrite Hz.
    rewrite (IH Hall). reflexivity.
  - apply Forall_cons in Hall as [_ Hall]. rewrite (IH Hall). reflexivity.
Qed.

Lemma cast_float64_raise (col : list (option Z)) :
  ~ Forall in_range col ->
  cast_float64 col = Raise (UserError "ArrowInvalid").
Proof.
  induction col as [|[z|] col IH]; intros Hnot; cbn [cast_float64].
  - exfalso. apply Hnot. constructor.
  - unfold float64_of_int. destruct (Z.leb_spec (Z.abs z) (2 ^ 53)) as [Hz|Hz];
      [|reflexivity].
    rewrite IH; [reflexivity|]. intros Hall. apply Hnot. constructor; assumption.
  - rewrite IH; [reflexivity|]. intros Hall. apply Hnot. constructor; [exact I|assumption].
Qed.

Lemma in_range_castable (tbl : list stored_record) :
  Forall in_range
    ((fun r => milliseconds_between (start_time r) (reception_time r)) <$> tbl)
  <-> forall r, r ∈ tbl -> castable r.
Proof.
  rewrite Forall_fmap, Forall_forall. reflexivity.
Qed.

(** The rows that pass the filter, when there is one. *)
Definition passes (arrow_filter : option (stored_record -> bool))
    (r : stored_record) : bool :=
  match arrow_filter with
  | Some f => f r
  | None => true
  end.

(** When it returns, [read_satellite_data] returns [read_frame]. *)
Lemma read_satellite_data_frame (files_on : Z -> option arrows_file)
    (now date_from : Z) (date_until : option Z)
    (arrow_filter : option (stored_record -> bool)) (df : frame) :
  read_satellite_data files_on now date_from date_until arrow_filter = Ok df ->
  df = read_frame files_on now date_from date_until arrow_filter.
Proof.
  unfold read_satellite_data, read_frame.
  destruct (_yield_batches _) as [|b bs]; [discriminate|].
  set (tbl := match arrow_filter with
              | Some f => List.filter f (concat (b :: bs))
              | None => concat (b :: bs)
              end).
  set (col := (fun r => milliseconds_between (start_time r) (reception_time r)) <$> tbl).
  destruct (decide (Forall in_range col)) as [Hall|Hnot].
  - rewrite (cast_float64_ok col Hall). cbn. intros [= <-]. f_equal.
    unfold divide, col, latency_of. rewrite <- !list_fmap_compose.
    apply list_fmap_ext. intros i r _. cbn.
    destruct (milliseconds_between _ _); reflexivity.
  - rewrite (cast_float64_raise col Hnot). discriminate.
Qed.

(** C7. The storage schema has the eleven ingest fields and no [latency]
    field. [read_satellite_data] raises [ValueError] when the files of
    the date range hold no batch, and [ArrowInvalid] when a row that
    passes the filter has its two times more than [2^53] milliseconds
    apart. Otherwise it returns a frame with the storage columns
    followed by a [latency] column. Its rows are, in the order of the
    files, the rows stored in a file of a day read that pass the filter.
    The latency of a row is null when its start time or its reception
    time is null. Otherwise it is the float64 quotient by 1000.0, which
    stands for 1000, of a float64 that stands for the number of
    milliseconds between the two times, each cut to the millisecond; 1000
    times that number is less than 1000 microseconds from the reception
    time minus the start time. *)
Theorem latency_computed_on_read
    (files_on : Z -> option arrows_file) (now date_from : Z)
    (date_until : option Z) (arrow_filter : option (stored_record -> bool)) :
  let batches :=
    _yield_batches (_files_from_date_range files_on now date_from date_until) in
  let kept := List.filter (passes arrow_filter)
                (stored_rows files_on now date_from date_until) in
  let res := read_satellite_data files_on now date_from date_until arrow_filter in
  ("latency" ∉ schema_names STORAGE_SCHEMA) /\
  schema_names STORAGE_SCHEMA = Ingest.INGEST_FIELDS /\
  represents (Prim2SF 1000%float) 1000 /\
  (batches = [] -> res = Raise ValueError) /\
  (batches <> [] -> (exists r, r ∈ kept /\ ~ castable r) ->
     res = Raise (UserError "ArrowInvalid")) /\
  (batches <> [] -> (forall r, r ∈ kept -> castable r) ->
     exists df,
       res = Ok df /\
       column_names df = Ingest.INGEST_FIELDS ++ ["latency"] /\
       rows df = kept /\
       (forall r, r ∈ rows df <->
          (exists d, d ∈ days_read now date_from date_until /\ stored files_on d r) /\
          passes arrow_filter r = true) /\
       length (last_column df) = length (rows df) /\
       (forall i r, rows df !! i = Some r ->
          match start_time r, reception_time r with
          | Some s, Some e =>
              let ms := e `div` 1000 - s `div` 1000 in
              e - s - 1000 < 1000 * ms < e - s + 1000 /\
              exists x,
                represents (Prim2SF x) ms /\
                last_column df !! i = Some (Some (PrimFloat.div x 1000%float))
          | _, _ => last_column df !! i = Some None
          end)).
Proof.
  intros batches kept res.
  assert (Hkept : kept = match arrow_filter with
                         | Some f => List.filter f (concat batches)
                         | None => concat batches
                         end).
  { unfold kept, stored_rows, passes. fold batches.
    destruct arrow_filter as [f|]; [reflexivity|].
    induction (concat batches) as [|r l IH]; [reflexivity|].
    cbn. f_equal. exact IH. }
  assert (Hres : batches <> [] ->
            res = (ms ← cast_float64
                          ((fun r => milliseconds_between (start_time r) (reception_time r))
                             <$> kept);
                   Ok {| column_names := schema_names STORAGE_SCHEMA ++ ["latency"];
                         rows := kept;
                         last_column := divide ms 1000%float |})).
  { intros Hne. unfold res, read_satellite_data. fold batches. rewrite Hkept.
    destruct batches as [|b bs]; [congruence|reflexivity]. }
  split; [apply latency_not_stored|].
  split; [apply storage_schema_names|].
  split; [vm_compute; reflexivity|].
  split; [|split].
  - intros Hb. unfold res, read_satellite_data. fold batches. rewrite Hb. reflexivity.
  - intros Hne (r & Hr & Hnc). rewrite (Hres Hne).
    rewrite cast_float64_raise; [reflexivity|].
    rewrite in_range_castable. intros Hall. apply Hnc, Hall, Hr.
  - intros Hne Hall. rewrite (Hres Hne).
    rewrite cast_float64_ok by (apply in_range_castable; exact Hall).
    eexists. split; [reflexivity|]. cbn [column_names rows last_column].
    split; [rewrite storage_schema_names; reflexivity|].
    split; [reflexivity|]. split; [|split].
    + intros r. unfold kept, stored_rows.
      rewrite list_elem_of_In, List.filter_In, <- list_elem_of_In.
      rewrite elem_of_read. reflexivity.
    + unfold divide. rewrite !length_fmap. reflexivity.
    + intros i r Hi.
      assert (Hin : r ∈ kept) by (apply (list_elem_of_lookup_2 _ i); exact Hi).
      specialize (Hall r Hin). unfold castable, milliseconds_between in Hall.
      unfold divide. rewrite !list_lookup_fmap, Hi. cbn [fmap option_fmap option_map].
      unfold milliseconds_between.
      destruct (start_time r) as [s|]; [|reflexivity].
      destruct (reception_time r) as [e|]; [|reflexivity].
      cbv zeta. split.
      * pose proof (Z.div_mod e 1000). pose proof (Z.div_mod s 1000).
        pose proof (Z.mod_pos_bound e 1000). pose proof (Z.mod_pos_bound s 1000). lia.
      * exists (float64_value (e `div` 1000 - s `div` 1000)).
        split; [apply float64_value_exact; exact Hall|reflexivity].
Qed.

(** Scenario S5 and two rows with a null time, read from the file of one
    day: latencies 5.0, null and -2.5. *)
Definition S5_row (reception start : option Z) : stored_record :=
  mkStored (Some "topic1") (Some "b1") (Some "c1") (Some "s1")
    (Some "i1") (Some "G16") (Some "sec1") reception start None None.

Definition S5_store (d : Z) : option arrows_file :=
  if d =? 20090 then
    Some [Some [S5_row (Some 1735787045000000) (Some 1735787040000000);
                S5_row None (Some 1735787040000000)];
          None;
          Some [S5_row (Some 1735787040000999) (Some 1735787042500000)]]
  else None.

Example read_S5 :
  exists df,
    read_satellite_data S5_store 1735787040000000 1735787040000000 None None = Ok df /\
    last_column df = [Some 5%float; None; Some (-2.5)%float].
Proof. eexists. split; vm_compute; reflexivity. Qed.

(** A date range with no file, and a file whose one batch is corrupt:
    [ValueError]. A row received [2^53 + 1] milliseconds after its start
    time: [ArrowInvalid]. *)
Example read_nothing :
  read_satellite_data (fun _ => None) 0 0 None None = Raise ValueError /\
  read_satellite_data (fun _ => Some [None]) 0 0 None None = Raise ValueError /\
  read_satellite_data
    (fun _ => Some [Some [S5_row (Some ((2 ^ 53 + 1) * 1000)) (Some 0)]]) 0 0 (Some 0) None
  = Raise (UserError "ArrowInvalid").
Proof. vm_compute. repeat split; reflexivity. Qed.

End Latency.
